(** * react-redux-provide: provider instantiation and query handling

    A shallow embedding of [src/instantiateProvider.js], and what holds of
    it.  Definitions come first:

    - [Js]: the fragment of JavaScript data that query results are made of,
      with truthiness, spread and property assignment as the language
      defines them, and completions that are normal or a thrown error;
    - [Merge]: [getMergedResult];
    - [Provider]: [instantiateProvider], the wrapper it puts around
      [store.setKey] and [getResultInstances] as state transformers over
      an explicit world of definitions, tables, instances and joins;
    - [Query]: [getQueryHandler] and [handleQueries] over the state the
      consumers of one context share;
    - [MergeSpec], [QuerySpec], [ProviderSpec]: the notions the facts are
      stated with;
    - [Examples] and [Scenes]: a small application to run the model on;
    - [Lifecycle], [Gathering], [Caching], [MergeMore]: the notions
      further facts about instances, the arrays of [getResultInstances],
      the query cache and merging are stated with;
    - [Faux]: [getFromContextOrProps], [getFunctionOrObject] and the
      getters built on them.

    The facts follow in [MergeFacts], [ProviderFacts], [QueryFacts] and
    [JoinFacts]; then, on the life of an instance, [FrameFacts],
    [LifecycleFacts], [LifecycleTheorems], [ProgressFacts] and
    [GatheringFacts]; on the query cache, [CachingFacts] and
    [CachingWitnesses]; and [MergeMoreFacts] and [FauxFacts].

    Callbacks supplied by the application (hooks, ready callbacks,
    subscription handlers, replicators) are opaque collaborators: the model
    records each invocation in a trace instead of running foreign code. *)

From stdpp Require Import gmap strings list pretty.

Set Warnings "-register-all".
Open Scope Z_scope.

(* ===================================================================== *)
(** ** JavaScript data                                                   *)
(* ===================================================================== *)

Module Js.

(** Exceptions the modelled code can raise. *)
Inductive exn :=
| TypeError.

(** Completion of an expression: a value or a thrown exception. *)
Inductive completion (A : Type) :=
| Normal (a : A)
| Throw (e : exn).
Arguments Normal {A} a.
Arguments Throw {A} e.

Definition bind {A B} (c : completion A) (k : A → completion B) : completion B :=
  match c with
  | Normal a => k a
  | Throw e => Throw e
  end.

Notation "x ←! c ; k" := (bind c (λ x, k))
  (at level 20, c at level 100, k at level 200, right associativity).

(** Data values: what a query handler hands to its completion callback.
    Numbers are modelled by the integers plus [NaN]; an object is the list
    of its own enumerable properties in creation order. *)
Inductive val :=
| VUndefined
| VNull
| VBool (b : bool)
| VNum (n : Z)
| VNaN
| VStr (s : string)
| VArr (xs : list val)
| VObj (ps : list (string * val)).

(** [ToBoolean]. *)
Definition truthy (v : val) : bool :=
  match v with
  | VUndefined | VNull | VNaN => false
  | VBool b => b
  | VNum n => negb (n =? 0)
  | VStr s => negb (String.eqb s "")
  | VArr _ | VObj _ => true
  end.

(** [a || b]. *)
Definition or_else (a b : val) : val := if truthy a then a else b.

(** [Array.isArray]. *)
Definition isArray (v : val) : bool :=
  match v with VArr _ => true | _ => false end.

(** [typeof v === 'object']: true of [null], arrays and objects. *)
Definition typeof_object (v : val) : bool :=
  match v with VNull | VArr _ | VObj _ => true | _ => false end.

(** [typeof v === 'undefined']. *)
Definition typeof_undefined (v : val) : bool :=
  match v with VUndefined => true | _ => false end.

(** The characters of a string, each as a one-character string. *)
Fixpoint chars (s : string) : list val :=
  match s with
  | EmptyString => []
  | String c s' => VStr (String c EmptyString) :: chars s'
  end.

(** Index keys ["0"], ["1"], ... paired with the elements of a list. *)
Definition indexed (xs : list val) : list (string * val) :=
  imap (λ i x, (pretty i, x)) xs.

(** Own enumerable properties, as copied by an object spread [{...v}]:
    nothing for [undefined], [null], booleans and numbers; the indexed
    characters of a string; the indexed elements of an array. *)
Definition own_props (v : val) : list (string * val) :=
  match v with
  | VUndefined | VNull | VBool _ | VNum _ | VNaN => []
  | VStr s => indexed (chars s)
  | VArr xs => indexed xs
  | VObj ps => ps
  end.

(** The elements produced by iterating a value, as an array spread
    [[...v]] does: only arrays and strings are iterable. *)
Definition iterate (v : val) : completion (list val) :=
  match v with
  | VArr xs => Normal xs
  | VStr s => Normal (chars s)
  | _ => Throw TypeError
  end.

(** [o[k] = v] on a property list: an existing key keeps its position. *)
Fixpoint set_prop {A} (k : string) (v : A) (ps : list (string * A))
  : list (string * A) :=
  match ps with
  | [] => [(k, v)]
  | (k', v') :: ps' =>
      if String.eqb k k' then (k, v) :: ps' else (k', v') :: set_prop k v ps'
  end.

(** [o[k]] on a property list. *)
Fixpoint get_prop {A} (k : string) (ps : list (string * A)) : option A :=
  match ps with
  | [] => None
  | (k', v') :: ps' => if String.eqb k k' then Some v' else get_prop k ps'
  end.

(** [Object.keys]. *)
Definition keys {A} (ps : list (string * A)) : list string := map fst ps.

(** Copy properties one by one onto a target, left to right. *)
Definition assign (target src : list (string * val)) : list (string * val) :=
  fold_left (λ acc kv, set_prop kv.1 kv.2 acc) src target.

(** The object literal [{...a, ...b}]. *)
Definition spread2 (a b : val) : val :=
  VObj (assign (assign [] (own_props a)) (own_props b)).

End Js.

(* ===================================================================== *)
(** ** getMergedResult                                                   *)
(* ===================================================================== *)

Module Merge.
Import Js.

(** One turn of the [for (let providerKey in results)] loop. *)
Definition merge_step (mergedResult result : val) : completion val :=
  if isArray result then
    xs ←! iterate (or_else mergedResult (VArr []));
    ys ←! iterate result;
    Normal (VArr (xs ++ ys))
  else if truthy result && typeof_object result then
    Normal (spread2 (or_else mergedResult (VObj [])) result)
  else if negb (typeof_undefined result) then
    Normal result
  else
    Normal mergedResult.

(** The loop from an arbitrary accumulated value; [results] lists the
    properties of the results object in iteration order. *)
Fixpoint merge_from (mergedResult : val) (results : list (string * val))
  : completion val :=
  match results with
  | [] => Normal mergedResult
  | (_, result) :: rest =>
      m ←! merge_step mergedResult result;
      merge_from m rest
  end.

Definition getMergedResult (results : list (string * val)) : completion val :=
  merge_from VNull results.

End Merge.

(* ===================================================================== *)
(** ** Specification-side notions for the merge law                      *)
(* ===================================================================== *)

Module MergeSpec.
Import Js.

(** Shallow merge of a sequence of objects, in order. *)
Definition shallow_merge (objs : list (list (string * val))) : list (string * val) :=
  fold_left assign objs [].

(** The value a property list gives to [k] when it is written out as an
    object literal: the last binding of [k] wins. *)
Fixpoint last_prop (k : string) (ps : list (string * val)) : option val :=
  match ps with
  | [] => None
  | (k', v) :: ps' =>
      match last_prop k ps' with
      | Some w => Some w
      | None => if String.eqb k k' then Some v else None
      end
  end.

(** Lookup with later objects overriding earlier ones. *)
Fixpoint lookup_merged (k : string) (objs : list (list (string * val))) : option val :=
  match objs with
  | [] => None
  | o :: rest =>
      match lookup_merged k rest with
      | Some v => Some v
      | None => last_prop k o
      end
  end.

Definition as_objects (rs : list (string * list (string * val))) : list (string * val) :=
  map (λ r, (r.1, VObj r.2)) rs.

Definition as_arrays (rs : list (string * list val)) : list (string * val) :=
  map (λ r, (r.1, VArr r.2)) rs.

(** Container-typed results: arrays and plain objects. *)
Definition is_container (v : val) : bool :=
  match v with VArr _ | VObj _ => true | _ => false end.

(** Scalars that take the third branch of the merge: anything that is
    neither a container nor [undefined]. *)
Definition is_scalar (v : val) : bool :=
  negb (is_container v) && negb (typeof_undefined v).

(** Scalars without own enumerable properties. *)
Definition is_plain_scalar (v : val) : bool :=
  match v with VNull | VBool _ | VNum _ | VNaN => true | _ => false end.

(** Truthy values that an array spread cannot iterate: plain objects,
    numbers other than 0 and [NaN], and [true]. *)
Definition blocks_array (v : val) : bool :=
  match v with
  | VObj _ => true
  | VNum n => negb (n =? 0)
  | VBool b => b
  | _ => false
  end.

(** Results that leave a blocking accumulated value blocking. *)
Definition keeps_block (v : val) : bool :=
  is_container v || typeof_undefined v.

(** Plain objects and numbers. *)
Definition is_object_or_number (v : val) : bool :=
  match v with VObj _ | VNum _ | VNaN => true | _ => false end.

(** Some array-valued result occurs after a plain-object-valued or numeric
    result in iteration order. *)
Fixpoint array_after_object_or_number (rs : list (string * val)) : bool :=
  match rs with
  | [] => false
  | (_, v) :: rest =>
      (is_object_or_number v && existsb (λ r, isArray r.2) rest)
      || array_after_object_or_number rest
  end.

(** The reading of the precedence rule under which containers win
    whenever one is present: scalars then play no part in the result. *)
Definition containers_take_precedence (rs : list (string * val)) : Prop :=
  existsb (λ r, is_container r.2) rs = true →
  Merge.getMergedResult rs
  = Merge.getMergedResult (filter (λ r, is_container r.2 = true) rs).


End MergeSpec.

(* ===================================================================== *)
(** ** Provider definitions, instances and the world                     *)
(* ===================================================================== *)

Module Provider.
Import Js.
Local Open Scope nat_scope.

(** A field that holds nothing, one function, or an array of functions
    ([wait], [clear], [onReady], [onInstantiated]).  Functions supplied by
    the application are opaque and named by a number. *)
Inductive callbacks :=
| Absent
| Single (f : nat)
| Several (fs : list nat).

(** The functions called by
    [if (x) { Array.isArray(x) ? x.forEach(...) : x(...) }]. *)
Definition callback_list (c : callbacks) : list nat :=
  match c with
  | Absent => []
  | Single f => [f]
  | Several fs => fs
  end.

(** The functions called by [if (x) { x.forEach(...) }]: a bare function
    has no [forEach]. *)
Definition forEach (c : callbacks) : completion (list nat) :=
  match c with
  | Absent => Normal []
  | Single _ => Throw TypeError
  | Several fs => Normal fs
  end.

(** [if (x && !Array.isArray(x)) x = [ x ]]. *)
Definition as_array (c : callbacks) : callbacks :=
  match c with
  | Single f => Several [f]
  | _ => c
  end.

(** A value that may be given alone or as an array. *)
Inductive one_or_many (A : Type) :=
| One (a : A)
| Many (l : list A).
Arguments One {A} a.
Arguments Many {A} l.

Definition to_array {A} (x : one_or_many A) : list A :=
  match x with
  | One a => [a]
  | Many l => l
  end.

(** A replicator's [handleQuery].  It is an opaque collaborator; the model
    keeps its name and whether it calls [onResult] before returning
    ([Some v]) or at a later turn ([None]), given the query and options. *)
Record query_handler := QueryHandler {
  hq_name : nat;
  hq_answer : val → val → option val
}.

Record replicator_node := Replicator {
  handleQuery : option query_handler
}.

Record replication_node := Replication {
  replicator : option (one_or_many replicator_node);
  reducerKeys : option (list string)
}.

(** A provider definition.  Its [key] is the key under which the
    [providers] table holds it.  The last two fields say what
    [createProviderStore] builds for it: whether the store has an
    [onReady] hook and whether it already initialized replication. *)
Record provider := Provider_ {
  reducers : list string;
  isGlobal : bool;
  hasThunk : bool;
  wait : callbacks;
  clear : callbacks;
  replication : option (one_or_many replication_node);
  subscribers : option (list (string * nat));
  subscribeTo : option (list (string * nat));
  instances : option (list nat);
  onReady : callbacks;
  onInstantiated : callbacks;
  store_onReady : bool;
  store_initializedReplication : bool
}.

Definition set_thunk (p : provider) : provider :=
  Provider_ (reducers p) (isGlobal p) true (as_array (wait p)) (as_array (clear p))
    (replication p) (subscribers p) (subscribeTo p) (instances p)
    (onReady p) (onInstantiated p) (store_onReady p) (store_initializedReplication p).

Definition set_subscribers (s : option (list (string * nat))) (p : provider) : provider :=
  Provider_ (reducers p) (isGlobal p) (hasThunk p) (wait p) (clear p)
    (replication p) s (subscribeTo p) (instances p)
    (onReady p) (onInstantiated p) (store_onReady p) (store_initializedReplication p).

Definition set_subscribeTo (s : option (list (string * nat))) (p : provider) : provider :=
  Provider_ (reducers p) (isGlobal p) (hasThunk p) (wait p) (clear p)
    (replication p) (subscribers p) s (instances p)
    (onReady p) (onInstantiated p) (store_onReady p) (store_initializedReplication p).

Definition set_instances (s : option (list nat)) (p : provider) : provider :=
  Provider_ (reducers p) (isGlobal p) (hasThunk p) (wait p) (clear p)
    (replication p) (subscribers p) (subscribeTo p) s
    (onReady p) (onInstantiated p) (store_onReady p) (store_initializedReplication p).

(** Callbacks the caller of [instantiateProvider] may pass: an opaque
    function of the application, or the closure [getResultInstances]
    builds for entry [index] of join [j]. *)
Inductive caller_cb :=
| User (f : nat)
| Gathered (j index : nat).

(** Entries of an instance's [onReady] list: the internal closure that
    sets [ready], or a callback from outside. *)
Inductive ready_cb :=
| FlipReady
| Caller (c : caller_cb).

(** A provider instance.  [proto] is the definition it was created from
    ([Object.create(provider)]); [listeners] are the functions subscribed
    to its store, each a subscription handler together with the key of the
    definition whose instances it is called with; [awaiting] says that
    [done] is registered with the store's [onReady] and has not run. *)
Record instance := Instance {
  proto : string;
  providerKey : string;
  isStatic : bool;
  ready : bool;
  i_onReady : list ready_cb;
  listeners : list (nat * string);
  awaiting : bool
}.

Definition set_ready (b : bool) (x : instance) : instance :=
  Instance (proto x) (providerKey x) (isStatic x) b (i_onReady x) (listeners x) (awaiting x).

Definition set_onReady (l : list ready_cb) (x : instance) : instance :=
  Instance (proto x) (providerKey x) (isStatic x) (ready x) l (listeners x) (awaiting x).

Definition set_listeners (l : list (nat * string)) (x : instance) : instance :=
  Instance (proto x) (providerKey x) (isStatic x) (ready x) (i_onReady x) l (awaiting x).

Definition set_awaiting (b : bool) (x : instance) : instance :=
  Instance (proto x) (providerKey x) (isStatic x) (ready x) (i_onReady x) (listeners x) b.

(** The state of one [getResultInstances] call: the counter, the array
    being filled and the name of the completion callback. *)
Record join := Join {
  semaphore : Z;
  resultInstances : list (option nat);
  j_callback : nat
}.

Definition set_semaphore (s : Z) (j : join) : join :=
  Join s (resultInstances j) (j_callback j).

Definition set_resultInstances (l : list (option nat)) (j : join) : join :=
  Join (semaphore j) l (j_callback j).

(** Calls into opaque code, in the order they happen.  The arguments of
    [wait] and [clear] hooks are left out. *)
Inductive event :=
| EMiddleware (d : string)
| EWait (d : string) (f : nat)
| EClear (d : string) (f : nat)
| EStore (i : nat)
| EHandler (h sup sub : nat)
| EInstantiated (f i : nat)
| EReady (f i : nat) (is_ready : bool)
| EGathered (f j : nat) (got : list (option nat))
| EKeyReady (f i : nat).

(** Everything [instantiateProvider] reads and writes: the definitions of
    the context with their mutable fields, the module-level table, the
    table of instances that the fauxInstances of the context share (absent
    when [getProviderInstances] gives [null], that is when the context
    holds [null] for it; a context that holds nothing at all for it is
    not covered: there every fauxInstance falls back on an empty table of
    its own), the consumer's [relevantProviders] (absent when it has
    none), the instances and joins created so far (named by their
    position), and the trace. *)
Record world := World {
  providers : gmap string provider;
  globalProviderInstances : gmap string nat;
  providerInstances : option (gmap string nat);
  relevantProviders : option (gset string);
  heap : list instance;
  joins : list join;
  trace : list event
}.

Definition upd_providers (f : gmap string provider → gmap string provider) (w : world) :=
  World (f (providers w)) (globalProviderInstances w) (providerInstances w)
    (relevantProviders w) (heap w) (joins w) (trace w).

Definition upd_global (f : gmap string nat → gmap string nat) (w : world) :=
  World (providers w) (f (globalProviderInstances w)) (providerInstances w)
    (relevantProviders w) (heap w) (joins w) (trace w).

Definition upd_table (f : gmap string nat → gmap string nat) (w : world) :=
  World (providers w) (globalProviderInstances w) (f <$> providerInstances w)
    (relevantProviders w) (heap w) (joins w) (trace w).

Definition upd_relevant (f : gset string → gset string) (w : world) :=
  World (providers w) (globalProviderInstances w) (providerInstances w)
    (f <$> relevantProviders w) (heap w) (joins w) (trace w).

Definition upd_heap (f : list instance → list instance) (w : world) :=
  World (providers w) (globalProviderInstances w) (providerInstances w)
    (relevantProviders w) (f (heap w)) (joins w) (trace w).

Definition upd_joins (f : list join → list join) (w : world) :=
  World (providers w) (globalProviderInstances w) (providerInstances w)
    (relevantProviders w) (heap w) (f (joins w)) (trace w).

Definition log (es : list event) (w : world) :=
  World (providers w) (globalProviderInstances w) (providerInstances w)
    (relevantProviders w) (heap w) (joins w) (trace w ++ es).

(** [a[i] = x] on an array: writing past the end extends it. *)
Definition array_set {A} (i : nat) (x hole : A) (l : list A) : list A :=
  if bool_decide (i < length l) then <[i := x]> l
  else l ++ replicate (i - length l) hole ++ [x].

Definition instance_ready (w : world) (i : nat) : bool :=
  match heap w !! i with
  | Some x => ready x
  | None => false
  end.

Definition instances_of (w : world) (d : string) : list nat :=
  match providers w !! d with
  | Some p => default [] (instances p)
  | None => []
  end.

(** [clear] of [getResultInstances]:
    [if (--semaphore === 0) callback(resultInstances)]. *)
Definition join_clear (j : nat) (w : world) : world :=
  match joins w !! j with
  | None => w
  | Some jn =>
      let s := (semaphore jn - 1)%Z in
      let w := upd_joins (alter (set_semaphore s) j) w in
      if (s =? 0)%Z then log [EGathered (j_callback jn) j (resultInstances jn)] w
      else w
  end.

(** Calling one entry of an [onReady] list with instance [i]. *)
Definition run_ready_cb (i : nat) (c : ready_cb) (w : world) : world :=
  match c with
  | FlipReady => upd_heap (alter (set_ready true) i) w
  | Caller (User f) => log [EReady f i (instance_ready w i)] w
  | Caller (Gathered j index) =>
      join_clear j
        (upd_joins (alter (λ jn, set_resultInstances
                                   (array_set index (Some i) None (resultInstances jn)) jn) j) w)
  end.

(** Modelled from the spec: [pushOnReady] and [unshiftOnReady] of
    [keyConcats], which is not part of the sources at hand.  The ready
    queue is an ordered list with insertion at the back and at the front. *)
Definition pushOnReady (i : nat) (c : ready_cb) (w : world) : world :=
  upd_heap (alter (λ x, set_onReady (i_onReady x ++ [c]) x) i) w.

Definition unshiftOnReady (i : nat) (c : ready_cb) (w : world) : world :=
  upd_heap (alter (λ x, set_onReady (c :: i_onReady x) x) i) w.

(** [store.subscribe(listener)]. *)
Definition subscribe (i : nat) (l : nat * string) (w : world) : world :=
  upd_heap (alter (λ x, set_listeners (listeners x ++ [l]) x) i) w.

(** The [done] closure of instance [i] of definition [d]. *)
Definition done (d : string) (i : nat) (w : world) : completion world :=
  let cbs := match heap w !! i with Some x => i_onReady x | None => [] end in
  let w := fold_left (λ w c, run_ready_cb i c w) cbs w in
  fs ←! forEach (match providers w !! d with Some p => clear p | None => Absent end);
  Normal (log (EClear d <$> fs) w).

(** The third and fourth arguments of [instantiateProvider].  A key
    given as a function is represented by the value it returns for the
    calling fauxInstance. *)
Inductive key_arg :=
| Literal (k : string)
| Computed (k : string).

Inductive args :=
| Short (readyCallback : option caller_cb)
| Full (providerKey : key_arg) (readyCallback : option caller_cb).

(** The first argument: the fauxInstance of the consuming component,
    which may carry [relevantProviders], or a new [{ props, context }]
    object, which does not. *)
Inductive faux :=
| Consumer
| Fresh.

(** Lines 24-40: the resolved key, [isStatic] and the ready callback. *)
Definition resolve (d : string) (a : args) : string * bool * option caller_cb :=
  match a with
  | Short rc => (d, true, rc)
  | Full (Literal k) rc => (k, true, rc)
  | Full (Computed k) rc => (k, bool_decide (k = d), rc)
  end.

(** Lines 42-44. *)
Definition lookup_instance (w : world) (p : provider) (k : string) : option nat :=
  if isGlobal p then globalProviderInstances w !! k
  else match providerInstances w with
       | Some t => t !! k
       | None => None
       end.

(** Lines 62-228, as far as the world is concerned: the flag, the
    normalised hook lists and the installation of the middleware. *)
Definition install_thunk (d : string) (w : world) : world :=
  match providers w !! d with
  | Some p =>
      if hasThunk p then w
      else log [EMiddleware d] (upd_providers (<[d := set_thunk p]>) w)
  | None => w
  end.

(** Lines 275-284. *)
Definition register (d k : string) (i : nat) (w : world) : world :=
  let g := match providers w !! d with Some p => isGlobal p | None => false end in
  let w := if g then upd_global (<[k := i]>) w else w in
  let w := upd_table (<[k := i]>) w in
  upd_providers (alter (λ p, set_instances (Some (default [] (instances p) ++ [i])) p) d) w.

(** One turn of the loop over [provider.subscribers], lines 287-309. *)
Definition wire_subscriber (d : string) (i : nat) (kh : string * nat) (w : world)
  : completion world :=
  let '(key, handler) := kh in
  match providers w !! key with
  | None => Throw TypeError
  | Some sub =>
      let to := default [] (subscribeTo sub) in
      let to := match get_prop d to with
                | Some _ => to
                | None => set_prop d handler to
                end in
      let w := upd_providers (alter (set_subscribeTo (Some to)) key) w in
      let w := subscribe i (handler, key) w in
      Normal (log (EHandler handler i <$> instances_of w key) w)
  end.

(** One turn of the loop over [provider.subscribeTo], lines 313-339. *)
Definition wire_subscribeTo (d : string) (i : nat) (kh : string * nat) (w : world)
  : completion world :=
  let '(key, handler) := kh in
  match providers w !! key with
  | None => Throw TypeError
  | Some sup =>
      let subs := default [] (subscribers sup) in
      let w :=
        match get_prop d subs with
        | Some _ => w
        | None =>
            let w := upd_providers
                       (alter (set_subscribers (Some (set_prop d handler subs))) key) w in
            fold_left (λ w s, subscribe s (handler, d) w) (instances_of w key) w
        end in
      Normal (log ((λ s, EHandler handler s i) <$> instances_of w key) w)
  end.

(** [xs.forEach(f)] where [f] may throw. *)
Fixpoint for_each {A} (f : A → world → completion world) (xs : list A) (w : world)
  : completion world :=
  match xs with
  | [] => Normal w
  | x :: rest => w' ←! f x w; for_each f rest w'
  end.

Definition subscribers_of (w : world) (d : string) : list (string * nat) :=
  match providers w !! d with
  | Some p => default [] (subscribers p)
  | None => []
  end.

Definition subscribeTo_of (w : world) (d : string) : list (string * nat) :=
  match providers w !! d with
  | Some p => default [] (subscribeTo p)
  | None => []
  end.

(** Lines 234-284: the new instance [i] with its store, entered in the
    tables and in the definition's [instances]. *)
Definition allocate (d k : string) (static : bool) (p : provider) (w : world) : world :=
  let i := length (heap w) in
  let x := Instance d k static false
             (Caller ∘ User <$> callback_list (onReady p)) [] false in
  register d k i (log [EStore i] (upd_heap (λ h, h ++ [x]) w)).

(** Lines 342-375: [onInstantiated], the ready queue, and [done] now or
    when the store is ready. *)
Definition finish (d : string) (i : nat) (p : provider) (rc : option caller_cb) (w : world)
  : completion world :=
  let w := log ((λ f, EInstantiated f i) <$> callback_list (onInstantiated p)) w in
  let w := unshiftOnReady i FlipReady w in
  let w := match rc with
           | Some c => pushOnReady i (Caller c) w
           | None => w
           end in
  if bool_decide (is_Some (replication p))
     && store_onReady p && negb (store_initializedReplication p)
  then Normal (upd_heap (alter (set_awaiting true) i) w)
  else done d i w.

(** Lines 62-377: creation of an instance once the lookup has failed. *)
Definition create (d k : string) (static : bool) (rc : option caller_cb) (w : world)
  : completion (world * nat) :=
  let w := install_thunk d w in
  match providers w !! d with
  | None => Throw TypeError
  | Some p =>
      fs ←! forEach (wait p);
      let w := log (EWait d <$> fs) w in
      let i := length (heap w) in
      let w := allocate d k static p w in
      w ←! for_each (wire_subscriber d i) (subscribers_of w d) w;
      w ←! for_each (wire_subscribeTo d i) (subscribeTo_of w d) w;
      w ←! finish d i p rc w;
      Normal (w, i)
  end.

Definition instantiateProvider (w : world) (fi : faux) (d : string) (a : args)
  : completion (world * nat) :=
  match providers w !! d with
  | None => Throw TypeError
  | Some p =>
      let '(k, static, rc) := resolve d a in
      let found := lookup_instance w p k in
      let w := match fi with
               | Consumer => upd_relevant (λ r, {[k]} ∪ r) w
               | Fresh => w
               end in
      match found with
      | Some i =>
          match rc with
          | Some c =>
              if instance_ready w i then Normal (run_ready_cb i (Caller c) w, i)
              else Normal (pushOnReady i (Caller c) w, i)
          | None => Normal (w, i)
          end
      | None => create d k static rc w
      end
  end.

(** The store of instance [i] reports that replication is done and calls
    the [done] it was given, once. *)
Definition store_ready (i : nat) (w : world) : completion world :=
  match heap w !! i with
  | Some x =>
      if awaiting x then done (proto x) i (upd_heap (alter (set_awaiting false) i) w)
      else Normal w
  | None => Normal w
  end.

(** The calls made by the listeners of instance [i]'s store, in order,
    when its state changes. *)
Definition listener_calls (w : world) (i : nat) : list event :=
  match heap w !! i with
  | Some x =>
      flat_map (λ l : nat * string, EHandler l.1 i <$> instances_of w l.2) (listeners x)
  | None => []
  end.

Definition store_change (i : nat) (w : world) : world :=
  log (listener_calls w i) w.

(** The wrapper that [instantiateProvider] puts around [store.setKey]
    of instance [i], lines 243-248: the [wait] hooks of the definition
    run, then the store's own [setKey] is given the new key and the
    closure [setKey_ready]. *)
Definition setKey_wrapper (i : nat) (w : world) : completion world :=
  match heap w !! i with
  | Some x =>
      fs ←! forEach (match providers w !! proto x with Some p => wait p | None => Absent end);
      Normal (log (EWait (proto x) <$> fs) w)
  | None => Normal w
  end.


(** An entry of the [result] array, as [instantiateProvider] meets it in
    the fauxInstance [{ props: resultProps, context }]: [null] or
    [undefined], of which no property can be read, or any other value,
    given by the key of the definition [findProvider] picks for it.  Such
    a value is taken to have no property named [providers] or
    [providerInstances], so that the call works on the tables of the
    context. *)
Inductive entry :=
| Nullish
| Props (d : string).

(** The [result] argument as lines 89 and 102 see it: a value that is
    falsy or whose [length] is missing or falsy ([null], [undefined],
    [{}], a number); an array, which is taken to have no holes; or a
    value with a truthy [length] and no [forEach] (a string that is not
    empty, [{ length: 2 }]). *)
Inductive result_arg :=
| Unsized
| Entries (es : list entry)
| Sized.

Definition entries_of (result : result_arg) : list entry :=
  match result with
  | Entries es => es
  | _ => []
  end.

(** The loop of [getResultInstances], lines 102-113.  With an entry that
    is [null] or [undefined], [getProviders] throws on reading
    [props.providers] (lines 30 and 384). *)
Fixpoint gather_loop (j index : nat) (entries : list entry) (w : world)
  : completion world :=
  match entries with
  | [] => Normal w
  | e :: rest =>
      let w := upd_joins (alter (λ jn, set_resultInstances
                                         (array_set index None None (resultInstances jn)) jn) j) w in
      match e with
      | Nullish => Throw TypeError
      | Props d =>
          r ←! instantiateProvider w Fresh d (Short (Some (Gathered j index)));
          gather_loop j (S index) rest r.1
      end
  end.

(** [getResultInstances], lines 87-114.  A value with a truthy [length]
    that is no array has no [forEach] to call. *)
Definition getResultInstances (result : result_arg) (callback : nat) (w : world)
  : completion (world * nat) :=
  let j := length (joins w) in
  let entries := entries_of result in
  let n := length entries in
  let w := upd_joins (λ js, js ++ [Join (Z.of_nat n) [] callback]) w in
  match result with
  | Sized => Throw TypeError
  | _ =>
      if bool_decide (n = 0) then
        let w := upd_joins (alter (set_semaphore 1%Z) j) w in
        Normal (join_clear j w, j)
      else
        w ←! gather_loop j 0 entries w; Normal (w, j)
  end.

(** What the environment can do to a world. *)
Inductive action :=
| Instantiate (fi : faux) (d : string) (a : args)
| GetResultInstances (result : result_arg) (callback : nat)
| StoreReady (i : nat)
| StoreChange (i : nat).

Definition perform (o : action) (w : world) : completion world :=
  match o with
  | Instantiate fi d a => r ←! instantiateProvider w fi d a; Normal r.1
  | GetResultInstances result callback =>
      r ←! getResultInstances result callback w; Normal r.1
  | StoreReady i => store_ready i w
  | StoreChange i => Normal (store_change i w)
  end.

(** A fresh context: definitions as configured, nothing instantiated. *)
Definition pristine (p : provider) : Prop :=
  instances p = None
  ∧ NoDup (keys (default [] (subscribers p)))
  ∧ NoDup (keys (default [] (subscribeTo p))).

Definition initial (w : world) : Prop :=
  map_Forall (λ _ p, pristine p) (providers w)
  ∧ globalProviderInstances w = ∅
  ∧ (∀ t, providerInstances w = Some t → t = ∅)
  ∧ heap w = [] ∧ joins w = [] ∧ trace w = [].

(** Running a list of actions. *)
Fixpoint run (os : list action) (w : world) : completion world :=
  match os with
  | [] => Normal w
  | o :: rest => w' ←! perform o w; run rest w'
  end.

(** Counting in traces. *)
Definition is_store (e : event) : bool :=
  match e with EStore _ => true | _ => false end.

Definition is_wait (d : string) (e : event) : bool :=
  match e with EWait d' _ => String.eqb d d' | _ => false end.

Definition is_pair (s b : nat) (e : event) : bool :=
  match e with EHandler _ s' b' => (s =? s') && (b =? b') | _ => false end.

Definition is_call (h s b : nat) (e : event) : bool :=
  match e with
  | EHandler h' s' b' => (h =? h') && (s =? s') && (b =? b')
  | _ => false
  end.

Definition is_gathered (j : nat) (e : event) : bool :=
  match e with EGathered _ j' _ => j =? j' | _ => false end.

Definition count (f : event → bool) (t : list event) : nat :=
  length (filter (λ e, f e = true) t).

End Provider.

(* ===================================================================== *)
(** ** Query handling                                                    *)
(* ===================================================================== *)

Module Query.
Import Js Provider.
Local Open Scope nat_scope.

(** [getQueryHandler], lines 504-531: the first [handleQuery] found in
    the replicators, with the reducer keys of its replication entry or,
    failing those, of the provider. *)
Definition first_handler (rs : list replicator_node) : option query_handler :=
  list_find (λ r, is_Some (handleQuery r)) rs ≫= λ ir, handleQuery ir.2.

Fixpoint find_handler (reducers : list string) (entries : list replication_node)
  : option (query_handler * list string) :=
  match entries with
  | [] => None
  | entry :: rest =>
      match replicator entry ≫= λ r, first_handler (to_array r) with
      | Some h => Some (h, default reducers (reducerKeys entry))
      | None => find_handler reducers rest
      end
  end.

Definition getQueryHandler (p : provider) : option (query_handler * list string) :=
  match replication p with
  | Some r => find_handler (reducers p) (to_array r)
  | None => None
  end.

(** One call of [handleQueries]: the closure variables and the parts of
    its fauxInstance and props that the call and its result handlers read
    and write.  [entries] is the number of sub-queries the call started
    with; the counter is absent when the call had no queries at all. *)
Record call := Call {
  entries : nat;
  semaphore : option Z;
  has_query : bool;
  has_update : bool;
  has_callback : bool;
  doUpdate : bool;
  previousResults : list (string * val);
  results : list (string * val);
  result : val
}.

Definition set_join (s : option Z) (c : call) : call :=
  Call (entries c) s (has_query c) (has_update c) (has_callback c) (doUpdate c)
    (previousResults c) (results c) (result c).

Definition set_doUpdate (b : bool) (c : call) : call :=
  Call (entries c) (semaphore c) (has_query c) (has_update c) (has_callback c) b
    (previousResults c) (results c) (result c).

Definition set_results (r : list (string * val)) (c : call) : call :=
  Call (entries c) (semaphore c) (has_query c) (has_update c) (has_callback c) (doUpdate c)
    (previousResults c) r (result c).

Definition set_result (v : val) (c : call) : call :=
  Call (entries c) (semaphore c) (has_query c) (has_update c) (has_callback c) (doUpdate c)
    (previousResults c) (results c) v.

(** One invocation of a replicator's [handleQuery]: the result key it
    was issued for, the array of result handlers it will drain (each the
    closure of a call for a provider key), and whether its completion
    callback has been called. *)
Record execution := Execution {
  x_key : string;
  x_handlers : list (nat * string);
  x_called : bool
}.

Inductive qevent :=
| QWait (key : string) (f : nat)
| QClear (key : string) (f : nat)
| QHandle (h : nat) (resultKey : string) (query options : val)
| QResult (c : nat) (key : string) (v : val)
| QUpdate (c : nat)
| QCallback (c : nat).

(** The state shared by the consumers of one context: the definitions,
    [activeQueries] (result key to pending array), the executions issued
    so far, [queryResults], the calls made so far and the trace. *)
Record qworld := QWorld {
  q_providers : gmap string provider;
  activeQueries : gmap string nat;
  executions : list execution;
  queryResults : gmap string val;
  calls : list call;
  qtrace : list qevent
}.

Definition upd_active (f : gmap string nat → gmap string nat) (w : qworld) :=
  QWorld (q_providers w) (f (activeQueries w)) (executions w) (queryResults w)
    (calls w) (qtrace w).

Definition upd_executions (f : list execution → list execution) (w : qworld) :=
  QWorld (q_providers w) (activeQueries w) (f (executions w)) (queryResults w)
    (calls w) (qtrace w).

Definition upd_queryResults (f : gmap string val → gmap string val) (w : qworld) :=
  QWorld (q_providers w) (activeQueries w) (executions w) (f (queryResults w))
    (calls w) (qtrace w).

Definition upd_calls (f : list call → list call) (w : qworld) :=
  QWorld (q_providers w) (activeQueries w) (executions w) (queryResults w)
    (f (calls w)) (qtrace w).

Definition qlog (es : list qevent) (w : qworld) :=
  QWorld (q_providers w) (activeQueries w) (executions w) (queryResults w)
    (calls w) (qtrace w ++ es).

(** The arguments of a call: what [getQueries], [getQuery],
    [getQueryOptions] and [getQueriesOptions] return for the fauxInstance
    (options are objects), the results of the previous render, and
    whether an update hook and a callback are there. *)
Record request := Request {
  r_queries : option (list (string * val));
  r_query : bool;
  r_props_query : bool;
  r_queryOptions : option (list (string * val));
  r_queriesOptions : list (string * list (string * val));
  r_previousResults : list (string * val);
  r_update : bool;
  r_callback : bool
}.

Section Collaborators.

(** [JSON.stringify] and [shallowEqual]. *)
Variable stringify : val → string.
Variable shallowEqual : val → val → bool.

(** [JSON.stringify({ query, options })]. *)
Definition resultKey_of (query : val) (options : list (string * val)) : string :=
  stringify (VObj [("query", query); ("options", VObj options)]).

(** [queryResults[resultKey]] when it is not [undefined]. *)
Definition cached (w : qworld) (rk : string) : option val :=
  match queryResults w !! rk with
  | Some v => if typeof_undefined v then None else Some v
  | None => None
  end.

(** The [clear] closure of call [c], lines 572-587. *)
Definition clear_call (c : nat) (w : qworld) : completion qworld :=
  match calls w !! c with
  | None => Normal w
  | Some st =>
      match semaphore st with
      | None => Normal w
      | Some s =>
          let s := (s - 1)%Z in
          let w := upd_calls (alter (set_join (Some s)) c) w in
          if (s =? 0)%Z then
            w ←! (if has_query st then
                    m ←! Merge.getMergedResult (results st);
                    Normal (upd_calls (alter (set_result m) c) w)
                  else Normal w);
            let w := if doUpdate st && has_update st then qlog [QUpdate c] w else w in
            Normal (if has_callback st then qlog [QCallback c] w else w)
          else Normal w
      end
  end.

(** The [resultHandler] closure of call [c] for provider [key] and
    result key [rk], lines 617-636, applied to [v]. *)
Definition result_handler (c : nat) (key rk : string) (v : val) (w : qworld)
  : completion qworld :=
  let w := qlog [QResult c key v] w in
  let w := upd_calls (alter (λ st,
             let previousResult := default VUndefined (get_prop key (previousResults st)) in
             let st := if negb (doUpdate st) && negb (shallowEqual v previousResult)
                       then set_doUpdate true st else st in
             set_results (set_prop key v (results st)) st) c) w in
  let w := upd_queryResults (<[rk := v]>) w in
  w ←! clear_call c w;
  Normal (qlog (QClear key <$> match q_providers w !! key with
                               | Some p => callback_list (clear p)
                               | None => []
                               end) w).

Fixpoint drain (rk : string) (v : val) (hs : list (nat * string)) (w : qworld)
  : completion qworld :=
  match hs with
  | [] => Normal w
  | (c, key) :: rest => w' ←! result_handler c key rk v w; drain rk v rest w'
  end.

(** The callback given to [handleQuery] for execution [e], lines 652-658,
    applied to [v]. *)
Definition on_result (e : nat) (v : val) (w : qworld) : completion qworld :=
  match executions w !! e with
  | None => Normal w
  | Some x =>
      let w := upd_active (delete (x_key x)) w in
      let w := upd_executions (<[e := Execution (x_key x) [] true]>) w in
      drain (x_key x) v (x_handlers x) w
  end.

(** The loop variables: the world and the options objects, which the
    loop may change. *)
Record loop_state := LoopState {
  l_world : qworld;
  l_queryOptions : option (list (string * val));
  l_queriesOptions : list (string * list (string * val))
}.

(** [options.select], lines 643-647. *)
Definition with_select (reducerKeys : list string) (options : list (string * val))
  : list (string * val) :=
  match get_prop "select" options with
  | None | Some VUndefined => set_prop "select" (VArr (VStr <$> reducerKeys)) options
  | Some (VArr _) => options
  | Some v => set_prop "select" (VArr [v]) options
  end.

(** One turn of the loop over [queries], lines 595-660. *)
Definition process_entry (c : nat) (entry : string * val) (st : loop_state)
  : completion loop_state :=
  let '(key, query) := entry in
  let w := l_world st in
  let options :=
    match l_queryOptions st with
    | Some o => o
    | None => default [] (get_prop key (l_queriesOptions st))
    end in
  let rk := resultKey_of query options in
  match cached w rk with
  | Some v =>
      let w := upd_calls (alter (λ s, set_results (set_prop key v (results s)) s) c) w in
      w ←! clear_call c w;
      Normal (LoopState w (l_queryOptions st) (l_queriesOptions st))
  | None =>
      match q_providers w !! key with
      | None => Throw TypeError
      | Some p =>
          let w := qlog (QWait key <$> callback_list (wait p)) w in
          match activeQueries w !! rk with
          | Some e =>
              let w := upd_executions
                         (alter (λ x, Execution (x_key x) (x_handlers x ++ [(c, key)])
                                        (x_called x)) e) w in
              Normal (LoopState w (l_queryOptions st) (l_queriesOptions st))
          | None =>
              match getQueryHandler p with
              | None => Throw TypeError
              | Some (h, reducerKeys) =>
                  let options := with_select reducerKeys options in
                  let qo := match l_queryOptions st with
                            | Some _ => Some options
                            | None => None
                            end in
                  let qso := match l_queryOptions st, get_prop key (l_queriesOptions st) with
                             | None, Some _ => set_prop key options (l_queriesOptions st)
                             | _, _ => l_queriesOptions st
                             end in
                  let e := length (executions w) in
                  let w := upd_executions (λ xs, xs ++ [Execution rk [(c, key)] false]) w in
                  let w := upd_active (<[rk := e]>) w in
                  let w := qlog [QHandle (hq_name h) rk query (VObj options)] w in
                  w ←! match hq_answer h query (VObj options) with
                       | Some v => on_result e v w
                       | None => Normal w
                       end;
                  Normal (LoopState w qo qso)
              end
          end
      end
  end.

Fixpoint process_entries (c : nat) (qs : list (string * val)) (st : loop_state)
  : completion loop_state :=
  match qs with
  | [] => Normal st
  | q :: rest => st' ←! process_entry c q st; process_entries c rest st'
  end.

(** The value the counter is given on line 571. *)
Definition semaphore_start (qs : list (string * val)) : Z := Z.of_nat (length qs).

(** [handleQueries], lines 551-663. *)
Definition handleQueries (r : request) (w : qworld) : completion (qworld * bool) :=
  let c := length (calls w) in
  match r_queries r with
  | None =>
      let st := Call 0 None (r_query r) (r_update r) (r_callback r) false
                  (r_previousResults r) [] VUndefined in
      let w := upd_calls (λ cs, cs ++ [st]) w in
      Normal (if r_callback r then qlog [QCallback c] w else w, false)
  | Some qs =>
      let st := Call (length qs) (Some (semaphore_start qs)) (r_query r) (r_update r)
                  (r_callback r) false (r_previousResults r) []
                  (if r_props_query r then VNull else VUndefined) in
      let w := upd_calls (λ cs, cs ++ [st]) w in
      st' ←! process_entries c qs (LoopState w (r_queryOptions r) (r_queriesOptions r));
      Normal (l_world st', true)
  end.

(** What can happen to the shared state: a consumer calls
    [handleQueries], or a replicator calls the completion callback of one
    of its executions. *)
Inductive qaction :=
| HandleQueries (r : request)
| Answer (e : nat) (v : val).

Definition qperform (o : qaction) (w : qworld) : completion qworld :=
  match o with
  | HandleQueries r => p ←! handleQueries r w; Normal p.1
  | Answer e v => on_result e v w
  end.

(** A replicator answers an execution that was issued, and only once. *)
Definition qallowed (o : qaction) (w : qworld) : bool :=
  match o with
  | HandleQueries _ => true
  | Answer e _ =>
      match executions w !! e with
      | Some x => negb (x_called x)
      | None => false
      end
  end.

Inductive qreachable (w0 : qworld) : qworld → Prop :=
| qreachable_refl : qreachable w0 w0
| qreachable_step w o w' :
    qreachable w0 w → qallowed o w = true → qperform o w = Normal w' →
    qreachable w0 w'.

End Collaborators.

(** A context in which no query has been issued. *)
Definition qinitial (w : qworld) : Prop :=
  activeQueries w = ∅ ∧ executions w = [] ∧ calls w = [] ∧ qtrace w = [].



Definition is_callback (c : nat) (e : qevent) : bool :=
  match e with QCallback c' => c =? c' | _ => false end.

Definition qcount (f : qevent → bool) (t : list qevent) : nat :=
  length (filter (λ e, f e = true) t).

End Query.

(* ===================================================================== *)
(** ** Notions used to state facts about queries                         *)
(* ===================================================================== *)

Module QuerySpec.
Import Js Provider Query.
Local Open Scope nat_scope.

(** The replication tree of a provider has no [handleQuery] anywhere. *)
Definition no_handler (p : provider) : Prop :=
  ∀ entries entry rs r,
    replication p = Some entries → entry ∈ to_array entries →
    replicator entry = Some rs → r ∈ to_array rs → handleQuery r = None.


(** The result handlers of call [c] that wait in pending arrays. *)
Definition mine (c : nat) (hs : list (nat * string)) : nat :=
  length (filter (λ h, h.1 = c) hs).

Definition pending_of (c : nat) (w : qworld) : nat :=
  mine c (concat (x_handlers <$> executions w)).

(** The times the callback of call [c] was called. *)
Definition fired (c : nat) (w : qworld) : nat := qcount (is_callback c) (qtrace w).





(** What the invariant reads of a call. *)
Definition essence (st : call) : nat * option Z * bool :=
  (entries st, semaphore st, has_callback st).


(** [w'] differs from [w] in nothing the invariant reads. *)
Definition qsame (w w' : qworld) : Prop :=
  activeQueries w' = activeQueries w
  ∧ executions w' = executions w
  ∧ essence <$> calls w' = essence <$> calls w
  ∧ ∀ c, fired c w' = fired c w.

(** The loop variables on entering the loop over [queries] of a call
    with queries [qs], lines 571-593: the call is there with its counter,
    nothing is enumerated yet. *)
Definition loop_start (r : request) (qs : list (string * val)) (w : qworld) : loop_state :=
  LoopState
    (upd_calls (λ cs, cs ++ [Call (length qs) (Some (semaphore_start qs)) (r_query r)
                               (r_update r) (r_callback r) false (r_previousResults r) []
                               (if r_props_query r then VNull else VUndefined)]) w)
    (r_queryOptions r) (r_queriesOptions r).

(** The options a turn of the loop uses for [key], line 598. *)
Definition options_for (key : string) (st : loop_state) : list (string * val) :=
  match l_queryOptions st with
  | Some o => o
  | None => default [] (get_prop key (l_queriesOptions st))
  end.

End QuerySpec.

(* ===================================================================== *)
(** ** Notions used to state facts about providers                       *)
(* ===================================================================== *)

Module ProviderSpec.
Import Js Provider.
Local Open Scope nat_scope.

(** The key an instantiation resolves to. *)
Definition resolved_key (d : string) (a : args) : string := (resolve d a).1.1.

(** Whether the key argument is a function. *)
Definition key_is_function (a : args) : bool :=
  match a with
  | Full (Computed _) _ => true
  | _ => false
  end.

(** The instance the lookup of lines 42-44 finds for definition [d] and
    key [k]. *)
Definition finds (w : world) (d k : string) : option nat :=
  match providers w !! d with
  | Some p => lookup_instance w p k
  | None => None
  end.

(** The table consulted for definition [d] exists: [d] is global, or the
    context has a table of instances. *)
Definition has_table (w : world) (d : string) : Prop :=
  match providers w !! d with
  | Some p => isGlobal p = true ∨ is_Some (providerInstances w)
  | None => False
  end.



(** What never changes about an instance. *)
Definition identity (x : instance) : string * string * bool :=
  (proto x, providerKey x, isStatic x).

(** The part of the world that decides which instance a lookup finds. *)
Definition registry (w : world) :=
  (globalProviderInstances w, providerInstances w,
   isGlobal <$> providers w, identity <$> heap w).

Definition is_any_wait (e : event) : bool :=
  match e with EWait _ _ => true | _ => false end.

(** Calls that neither build a store nor run a [wait] hook. *)
Definition quiet (e : event) : bool := negb (is_store e) && negb (is_any_wait e).

(** [w'] differs from [w] by changes that leave the registry alone and by
    quiet calls. *)
Definition calm (w w' : world) : Prop :=
  registry w' = registry w
  ∧ ∃ es, trace w' = trace w ++ es ∧ Forall (λ e, quiet e = true) es.

(** The ready flag a callback saw when it was called. *)
Definition honest (e : event) : bool :=
  match e with
  | EReady _ _ r => r
  | _ => true
  end.

Definition is_any_gathered (e : event) : bool :=
  match e with EGathered _ _ _ => true | _ => false end.

(** Calls that are neither a ready callback that saw [ready] unset nor
    the completion of a join. *)
Definition plain (e : event) : bool := honest e && negb (is_any_gathered e).

(** Every ready callback called so far saw [ready] set. *)
Definition truthful (w : world) : Prop :=
  Forall (λ e, honest e = true) (trace w).

(** What readiness of an instance consists of. *)
Definition readiness (x : instance) : bool * list ready_cb * bool :=
  (ready x, i_onReady x, awaiting x).

Definition starts_with_flip (l : list ready_cb) : Prop :=
  ∃ l', l = FlipReady :: l'.

(** The internal flag-setting callback heads every instance's queue. *)
Definition flip_first (w : world) : Prop :=
  Forall starts_with_flip (i_onReady <$> heap w).

(** [w'] differs from [w] by changes that leave joins and the readiness
    of instances alone, and by plain calls. *)
Definition tame (w w' : world) : Prop :=
  joins w' = joins w
  ∧ readiness <$> heap w' = readiness <$> heap w
  ∧ ∃ es, trace w' = trace w ++ es ∧ Forall (λ e, plain e = true) es.

(** Readiness of the instances, seen from outside. *)
Definition ready_ok (w : world) : Prop := flip_first w ∧ truthful w.

(** Actions of the environment: it cannot forge the closures of
    [getResultInstances]. *)
Definition external (o : action) : bool :=
  match o with
  | Instantiate _ _ (Short (Some (Gathered _ _)))
  | Instantiate _ _ (Full _ (Some (Gathered _ _))) => false
  | _ => true
  end.

(** Worlds reached from [w0] by external actions that complete normally. *)
Inductive reachable (w0 : world) : world → Prop :=
| reachable_refl : reachable w0 w0
| reachable_step w o w' :
    reachable w0 w → external o = true → perform o w = Normal w' → reachable w0 w'.

(** What the subscription graph consists of on the side of an instance. *)
Definition wiring (x : instance) : string * list (nat * string) :=
  (proto x, listeners x).

(** The number of listeners that call a handler with the instances of
    definition [k]. *)
Definition listeners_for (k : string) (ls : list (nat * string)) : nat :=
  length (filter (λ l, l.2 = k) ls).

(** The subscription graph is wired once: every definition's
    [instances] lists exactly its instances, and every instance's store
    has one listener for each key of its definition's [subscribers] and
    no other; the listener's handler is the one recorded there. *)
Definition wired (w : world) : Prop :=
  (∀ d, NoDup (keys (subscribers_of w d)))
  ∧ (∀ d, NoDup (instances_of w d))
  ∧ (∀ d i, i ∈ instances_of w d ↔ ∃ x, heap w !! i = Some x ∧ proto x = d)
  ∧ (∀ i x k, heap w !! i = Some x →
       listeners_for k (listeners x)
       = if bool_decide (k ∈ keys (subscribers_of w (proto x))) then 1 else 0)
  ∧ (∀ i x l, heap w !! i = Some x → l ∈ listeners x →
       get_prop l.2 (subscribers_of w (proto x)) = Some l.1).

(** [w'] has the subscription graph of [w]. *)
Definition same_wiring (w w' : world) : Prop :=
  (∀ d, subscribers_of w' d = subscribers_of w d)
  ∧ (∀ d, instances_of w' d = instances_of w d)
  ∧ wiring <$> heap w' = wiring <$> heap w.

(** Entries of [subscribers] are never removed or replaced. *)
Definition keeps_subscribers (w w' : world) : Prop :=
  ∀ d k h, get_prop k (subscribers_of w d) = Some h →
           get_prop k (subscribers_of w' d) = Some h.

(** The tables name instances that exist. *)
Definition valid_tables (w : world) : Prop :=
  (∀ k i, globalProviderInstances w !! k = Some i → i < length (heap w))
  ∧ (∀ t k i, providerInstances w = Some t → t !! k = Some i → i < length (heap w)).

(** Entries of a ready queue that are the closure of join [j]. *)
Definition is_gathered_cb (j : nat) (c : ready_cb) : bool :=
  match c with
  | Caller (Gathered j' _) => j =? j'
  | _ => false
  end.

Definition gathered_in (j : nat) (l : list ready_cb) : nat :=
  length (filter (λ c, is_gathered_cb j c = true) l).

(** The completions join [j] still waits for from an instance: those
    queued on it while it is not ready. *)
Definition waits_for (j : nat) (x : instance) : nat :=
  if ready x then 0 else gathered_in j (i_onReady x).

Definition waiting (j : nat) (w : world) : nat :=
  sum_list (waits_for j <$> heap w).

(** The times the callback of join [j] was called. *)
Definition gathered (j : nat) (w : world) : nat := count (is_gathered j) (trace w).

(** Joins are consistent, given for every join the number [extra j] of
    its completions still to come from the loop or the ready queue under
    way: each counter is the number of completions outstanding, and a
    callback has been called exactly when its counter reached zero. *)
Definition joined_with (extra : nat → nat) (w : world) : Prop :=
  (∀ j, 0 < waiting j w + extra j → is_Some (joins w !! j))
  ∧ (∀ j jn, joins w !! j = Some jn →
       semaphore jn = Z.of_nat (waiting j w + extra j)
       ∧ gathered j w = if (semaphore jn =? 0)%Z then 1 else 0)
  ∧ (∀ j, length (joins w) ≤ j → gathered j w = 0)
  ∧ (∀ i x, heap w !! i = Some x → awaiting x = true → ready x = false).

Definition joined (w : world) : Prop := joined_with (λ _, 0) w.

(** One completion of join [j] fewer to come. *)
Definition minus_one (j : nat) (extra : nat → nat) : nat → nat :=
  λ j', if decide (j' = j) then extra j' - 1 else extra j'.

(** The completions a caller's callback stands for. *)
Definition consumed (rc : option caller_cb) (extra : nat → nat) : nat → nat :=
  match rc with
  | Some (Gathered j _) => minus_one j extra
  | _ => extra
  end.

(** The world on entering the loop of [getResultInstances], lines 88-89
    and 102, for a result that is an array or has no length: the join is
    there with its counter, nothing is enumerated yet. *)
Definition join_start (result : result_arg) (callback : nat) (w : world) : world :=
  upd_joins (λ js, js ++ [Join (Z.of_nat (length (entries_of result))) [] callback]) w.

(** What holds of every world the environment can bring about. *)
Definition healthy (w : world) : Prop := joined w ∧ valid_tables w ∧ ready_ok w.

End ProviderSpec.

(* ===================================================================== *)
(** ** A small application                                               *)
(* ===================================================================== *)

Module Examples.
Import Js Provider Query QuerySpec.
Local Open Scope nat_scope.

(** A printer that stands for [JSON.stringify] (numbers are written in
    binary) and a comparison that stands for [shallowEqual]. *)
Fixpoint bits (p : positive) : string :=
  match p with
  | xH => "1"
  | xO q => bits q +:+ "0"
  | xI q => bits q +:+ "1"
  end.

Definition number (n : Z) : string :=
  match n with
  | Z0 => "0"
  | Zpos p => bits p
  | Zneg p => "-" +:+ bits p
  end.

Fixpoint json (v : val) : string :=
  match v with
  | VUndefined => "undefined"
  | VNull => "null"
  | VBool b => if b then "true" else "false"
  | VNum n => number n
  | VNaN => "NaN"
  | VStr s => s
  | VArr xs =>
      "[" +:+ (fix items (l : list val) : string :=
                 match l with
                 | [] => ""
                 | x :: r => json x +:+ "," +:+ items r
                 end) xs +:+ "]"
  | VObj ps =>
      "{" +:+ (fix props (l : list (string * val)) : string :=
                 match l with
                 | [] => ""
                 | (k, x) :: r => k +:+ ":" +:+ json x +:+ "," +:+ props r
                 end) ps +:+ "}"
  end.

Definition same (a b : val) : bool := bool_decide (json a = json b).

(** Two definitions that declare one edge from both sides: [list]
    supplies [user].  The store of [list] replicates and reports
    readiness at a later turn; its replicator answers queries at a later
    turn.  [bare] has no replication at all. *)
Definition later_handler : query_handler := QueryHandler 1 (λ _ _, None).

Definition list_provider : provider :=
  Provider_ ["items"] false false (Single 1) Absent
    (Some (One (Replication (Some (One (Replicator (Some later_handler)))) None)))
    (Some [("user", 7)]) None None (Single 3) Absent true false.

Definition user_provider : provider :=
  Provider_ ["name"] false false Absent Absent None
    None (Some [("list", 8)]) None Absent Absent false false.

Definition bare_provider : provider :=
  Provider_ ["z"] false false Absent Absent
    (Some (Many [Replication None None; Replication (Some (One (Replicator None))) None]))
    None None None Absent Absent false false.

Definition definitions : gmap string provider :=
  <["list" := list_provider]> (<["user" := user_provider]> (<["bare" := bare_provider]> ∅)).

Definition fresh_world : world := World definitions ∅ (Some ∅) (Some ∅) [] [] [].


Definition world_after (os : list action) (w : world) : world :=
  match run os w with
  | Normal w' => w'
  | Throw _ => w
  end.

Definition fresh_context : qworld := QWorld definitions ∅ [] ∅ [] [].

Definition context_after (os : list qaction) (w : qworld) : qworld :=
  fold_left (λ w o, match qperform json same o w with
                    | Normal w' => w'
                    | Throw _ => w
                    end) os w.

Definition request_for (qs : option (list (string * val))) : request :=
  Request qs false false None [] [] false true.

Definition items_query : val := VObj [("items", VNum 1)].

End Examples.

(* ===================================================================== *)
(** ** Notions for the life of an instance                               *)
(* ===================================================================== *)

Module Lifecycle.
Import Js Provider ProviderSpec.
Local Open Scope nat_scope.

Definition is_middleware (d : string) (e : event) : bool :=
  match e with EMiddleware d' => String.eqb d d' | _ => false end.

Definition is_any_middleware (e : event) : bool :=
  match e with EMiddleware _ => true | _ => false end.

(** Calls other than the building of a store and the installation of the
    middleware. *)
Definition ordinary (e : event) : bool := negb (is_store e) && negb (is_any_middleware e).

(** What [instantiateProvider] reads of a definition besides its
    subscription graph and its instances. *)
Definition conduct (p : provider) : bool * bool * callbacks * callbacks :=
  (isGlobal p, hasThunk p, wait p, clear p).

(** An instance stays what it is, and [ready] is not unset. *)
Definition persists (w w' : world) : Prop :=
  ∀ i x, heap w !! i = Some x →
         ∃ x', heap w' !! i = Some x' ∧ identity x' = identity x
               ∧ (ready x = true → ready x' = true).

(** Whether the middleware of definition [d] is installed. *)
Definition hasThunk_of (w : world) (d : string) : bool :=
  match providers w !! d with
  | Some p => hasThunk p
  | None => false
  end.

(** A hook field that [forEach] can enumerate: absent, or an array. *)
Definition enumerable (c : callbacks) : Prop := ∀ f, c ≠ Single f.

(** The middleware is installed for the definition of every instance,
    and where it is installed the hooks are arrays. *)
Definition hooked (w : world) : Prop :=
  (∀ i x, heap w !! i = Some x → hasThunk_of w (proto x) = true)
  ∧ (∀ d p, providers w !! d = Some p → hasThunk p = true →
            enumerable (wait p) ∧ enumerable (clear p)).

(** The middleware of a definition was installed once if [hasThunk] is
    set and not at all otherwise. *)
Definition installed (w : world) : Prop :=
  (∀ d, count (is_middleware d) (trace w) = if hasThunk_of w d then 1 else 0)
  ∧ hooked w.

(** A key that names a definition of the context. *)
Definition defined (w : world) (k : string) : Prop := is_Some (providers w !! k).

(** Every key of a [subscribers] or [subscribeTo] object names a
    definition. *)
Definition linked (w : world) : Prop :=
  ∀ d p, providers w !! d = Some p →
         (∀ k, k ∈ keys (default [] (subscribers p)) → defined w k)
         ∧ (∀ k, k ∈ keys (default [] (subscribeTo p)) → defined w k).

Definition well_formed (w : world) : Prop := hooked w ∧ linked w.

(** An entry that is neither [null] nor [undefined] and for which
    [findProvider] picks a definition that is there. *)
Definition names_definition (w : world) (e : entry) : Prop :=
  ∃ d, e = Props d ∧ defined w d.

(** What an action is given can be worked on: the definition to
    instantiate is there; the result to gather from is an array of
    entries other than [null] and [undefined] that name definitions, or
    has no length. *)
Definition names_definitions (w : world) (o : action) : Prop :=
  match o with
  | Instantiate _ d _ => defined w d
  | GetResultInstances result _ =>
      result ≠ Sized ∧ Forall (names_definition w) (entries_of result)
  | _ => True
  end.

(** The subscription graph as the definitions have it. *)
Definition edges (p : provider) : option (list (string * nat)) * option (list (string * nat)) :=
  (subscribers p, subscribeTo p).

(** As many stores were built from [w] to [w'] as instances were added. *)
Definition store_each (w w' : world) : Prop :=
  length (heap w') + count is_store (trace w) = length (heap w) + count is_store (trace w').

(** [w'] has the definitions of [w], under the same keys. *)
Definition same_names (w w' : world) : Prop := ∀ k, defined w' k ↔ defined w k.

(** The consumer's relevant providers are what they were. *)
Definition same_relevant (w w' : world) : Prop := relevantProviders w' = relevantProviders w.

End Lifecycle.

(* ===================================================================== *)
(** ** Notions for the arrays of getResultInstances                      *)
(* ===================================================================== *)

Module Gathering.
Import Js Provider ProviderSpec.
Local Open Scope nat_scope.

(** The slot a ready callback fills when it is the closure that
    [getResultInstances] builds for an entry: the join and the index. *)
Definition slot_of (c : ready_cb) : option (nat * nat) :=
  match c with
  | Caller (Gathered j idx) => Some (j, idx)
  | _ => None
  end.

Definition slots_of (cbs : list ready_cb) : list (nat * nat) := omap slot_of cbs.

Definition rc_slots (rc : option caller_cb) : list (nat * nat) :=
  match rc with
  | Some c => slots_of [Caller c]
  | None => []
  end.

Definition slot_count (j : nat) (l : list (nat * nat)) : nat :=
  length (filter (λ s, s.1 = j) l).

(** The closure for slot [idx] of join [j] waits in the queue of an
    instance that is not ready. *)
Definition queued (w : world) (j idx : nat) : Prop :=
  ∃ i x, heap w !! i = Some x ∧ ready x = false ∧ Caller (Gathered j idx) ∈ i_onReady x.

(** Join [j] exists and its array reaches beyond [idx]. *)
Definition in_range (w : world) (j idx : nat) : Prop :=
  ∃ jn, joins w !! j = Some jn ∧ idx < length (resultInstances jn).

(** Every entry of the array is an instance, and that instance is ready. *)
Definition all_ready (w : world) (got : list (option nat)) : Prop :=
  Forall (λ o, ∃ i, o = Some i ∧ instance_ready w i = true) got.

(** What does not go back: an instance that is ready stays ready, and
    the array of a join does not shrink. *)
Definition settles (w w' : world) : Prop :=
  (∀ i, instance_ready w i = true → instance_ready w' i = true)
  ∧ (∀ j idx, in_range w j idx → in_range w' j idx).

(** The arrays of the joins are consistent, given the slots [inflight]
    whose closures are neither queued nor called yet: a slot that still
    holds the placeholder has its closure queued or in flight, a slot
    that holds an instance holds a ready one, every closure that is
    queued or in flight has its slot, and every array a callback of
    [getResultInstances] was given was full of ready instances. *)
Definition filled_with (inflight : list (nat * nat)) (w : world) : Prop :=
  (∀ j jn idx, joins w !! j = Some jn → resultInstances jn !! idx = Some None →
               queued w j idx ∨ (j, idx) ∈ inflight)
  ∧ (∀ j jn idx i, joins w !! j = Some jn → resultInstances jn !! idx = Some (Some i) →
                   instance_ready w i = true)
  ∧ (∀ i x j idx, heap w !! i = Some x → Caller (Gathered j idx) ∈ i_onReady x →
                  in_range w j idx)
  ∧ (∀ j idx, (j, idx) ∈ inflight → in_range w j idx)
  ∧ (∀ f j got, EGathered f j got ∈ trace w → all_ready w got).

End Gathering.

(* ===================================================================== *)
(** ** Notions for the query cache                                       *)
(* ===================================================================== *)

Module Caching.
Import Js Provider Query QuerySpec.
Local Open Scope nat_scope.

(** Every [handleQuery] of a provider's replication, in the order the
    loops of [getQueryHandler] come to them, each with the reducer keys
    that would be returned with it. *)
Definition handlers_of (p : provider) : list (query_handler * list string) :=
  match replication p with
  | None => []
  | Some r =>
      flat_map (λ entry,
        match replicator entry with
        | None => []
        | Some rs =>
            (λ h, (h, default (reducers p) (reducerKeys entry)))
              <$> omap handleQuery (to_array rs)
        end) (to_array r)
  end.

(** The options of a handler call carry [select] as an array. *)
Definition select_is_array (e : qevent) : Prop :=
  match e with
  | QHandle _ _ _ options =>
      ∃ o xs, options = VObj o ∧ get_prop "select" o = Some (VArr xs)
  | _ => True
  end.

Definition is_any_handle (e : qevent) : bool :=
  match e with QHandle _ _ _ _ => true | _ => false end.

Definition is_any_qwait (e : qevent) : bool :=
  match e with QWait _ _ => true | _ => false end.


(** The trace of [w'] is that of [w] and then calls that satisfy [P]. *)
Definition grows_by (P : qevent → Prop) (w w' : qworld) : Prop :=
  ∃ es, qtrace w' = qtrace w ++ es ∧ Forall P es.

(** Replicators answer one after the other: each answer names the
    execution, the provider key of its handler and the value. *)
Fixpoint answer_all (shallowEqual : val → val → bool) (answers : list (nat * string * val))
    (w : qworld) : completion qworld :=
  match answers with
  | [] => Normal w
  | (e, _, v) :: rest => w' ←! on_result shallowEqual e v w; answer_all shallowEqual rest w'
  end.

(** The results of [answers] as they are stored: provider key and value. *)
Definition stored (answers : list (nat * string * val)) : list (string * val) :=
  (λ a, (a.1.2, a.2)) <$> answers.

(** Each answer is for an execution in flight whose pending array holds
    one handler, that of call [c] for the answer's provider key. *)
Definition awaited_by (c : nat) (answers : list (nat * string * val)) (w : qworld) : Prop :=
  Forall (λ a, ∃ rk, executions w !! a.1.1 = Some (Execution rk [(c, a.1.2)] false)) answers.

(** Keys that start with a digit (the characters 48 to 57).  Among them
    are the array indices, which an object enumerates before its other
    keys and in ascending order, whatever the order in which they were
    created. *)
Definition starts_with_digit (k : string) : bool :=
  match k with
  | String a _ => (48 <=? Ascii.nat_of_ascii a)%nat && (Ascii.nat_of_ascii a <=? 57)%nat
  | EmptyString => false
  end.

(** Call [c], in state [st], waits for [answers] and for nothing else:
    its counter is their number, each is for an execution of its own, no
    provider key has a result yet or is answered twice, and none starts
    with a digit, so that the results object enumerates its keys in the
    order of their creation. *)
Definition awaits (c : nat) (st : call) (answers : list (nat * string * val)) (w : qworld)
  : Prop :=
  calls w !! c = Some st
  ∧ semaphore st = Some (Z.of_nat (length answers))
  ∧ NoDup (answers.*1.*1)
  ∧ NoDup (keys (stored answers) ++ keys (results st))
  ∧ Forall (λ k, starts_with_digit k = false) (keys (stored answers) ++ keys (results st))
  ∧ awaited_by c answers w.

End Caching.

(* ===================================================================== *)
(** ** A second definition to run queries on                             *)
(* ===================================================================== *)

Module Scenes.
Import Js Provider Query QuerySpec Examples.
Local Open Scope nat_scope.

(** A second definition whose replicator answers at a later turn, and a
    context with both. *)
Definition tags_provider : provider :=
  Provider_ ["tags"] false false Absent Absent
    (Some (One (Replication (Some (One (Replicator (Some (QueryHandler 2 (λ _ _, None)))))) None)))
    None None None Absent Absent false false.

Definition shop_context : qworld :=
  QWorld (<["tags" := tags_provider]> definitions) ∅ [] ∅ [] [].

End Scenes.

(* ===================================================================== *)
(** ** Results that count in a merge                                     *)
(* ===================================================================== *)

Module MergeMore.
Import Js Merge MergeSpec.

(** The results that are not [undefined]. *)
Definition defined_results (rs : list (string * val)) : list (string * val) :=
  filter (λ kv, typeof_undefined kv.2 = false) rs.

End MergeMore.

(* ===================================================================== *)
(** ** The getters of a fauxInstance                                     *)
(* ===================================================================== *)

Module Faux.
Import Js.

(** Values a fauxInstance, its props and its context hold: data, a
    function of the application (opaque, named by a number) or an object
    whose properties are such values.  An object is given by the list of
    its own properties. *)
Inductive jval :=
| JData (v : val)
| JFun (f : nat)
| JObj (ps : list (string * jval)).

(** [typeof x === 'undefined']. *)
Definition is_undefined (x : jval) : bool :=
  match x with
  | JData VUndefined => true
  | _ => false
  end.

(** [typeof x === 'function']. *)
Definition is_function (x : jval) : bool :=
  match x with
  | JFun _ => true
  | _ => false
  end.

(** [ToBoolean]. *)
Definition jtruthy (x : jval) : bool :=
  match x with
  | JData v => truthy v
  | JFun _ | JObj _ => true
  end.

(** The properties a value holds itself, as far as they are data: those
    listed for an object, and the [length] and the indexed elements of a
    string or an array. *)
Definition own (x : jval) (k : string) : option jval :=
  match x with
  | JObj ps => get_prop k ps
  | JFun _ => None
  | JData (VStr s) =>
      if String.eqb k "length" then Some (JData (VNum (Z.of_nat (String.length s))))
      else JData <$> get_prop k (own_props (VStr s))
  | JData (VArr xs) =>
      if String.eqb k "length" then Some (JData (VNum (Z.of_nat (length xs))))
      else JData <$> get_prop k (own_props (VArr xs))
  | JData v => JData <$> get_prop k (own_props v)
  end.

Section Lookup.

(** What the runtime gives for a property that a value does not hold
    itself: what it inherits ([toString], [constructor] and the like) and
    the properties of functions; [undefined] for most keys. *)
Variable inherited : jval → string → jval.

(** What a function of the application returns for a fauxInstance. *)
Variable invoke : nat → list (string * jval) → jval.

(** [x[k]] for any value [x]: reading a property of [undefined] or
    [null] throws; otherwise the value's own property comes first. *)
Definition member (x : jval) (k : string) : completion jval :=
  match x with
  | JData VUndefined | JData VNull => Throw TypeError
  | _ => Normal (default (inherited x k) (own x k))
  end.

(** [o[k]] where [o] is the object with the own properties [ps]. *)
Definition field (k : string) (ps : list (string * jval)) : jval :=
  default (inherited (JObj ps) k) (get_prop k ps).

(** [getFromContextOrProps], lines 380-394.  The fauxInstance is given
    by its own properties, [props] and [context] among them; the result
    is the value returned and the fauxInstance as the call leaves it. *)
Definition getFromContextOrProps (fauxInstance : list (string * jval)) (key : string)
    (defaultValue : jval) : completion (jval * list (string * jval)) :=
  if is_undefined (field key fauxInstance) then
    let props := field "props" fauxInstance in
    let context := field "context" fauxInstance in
    from_props ←! member props key;
    if negb (is_undefined from_props) then
      let fauxInstance := set_prop key from_props fauxInstance in
      Normal (field key fauxInstance, fauxInstance)
    else
      from_context ←! member context key;
      if negb (is_undefined from_context) then
        let fauxInstance := set_prop key from_context fauxInstance in
        Normal (field key fauxInstance, fauxInstance)
      else
        let fauxInstance := set_prop key defaultValue fauxInstance in
        Normal (field key fauxInstance, fauxInstance)
  else Normal (field key fauxInstance, fauxInstance).

(** Lines 396-410. *)
Definition getProviders (fauxInstance : list (string * jval)) :=
  getFromContextOrProps fauxInstance "providers" (JObj []).

Definition getProviderInstances (fauxInstance : list (string * jval)) :=
  getFromContextOrProps fauxInstance "providerInstances" (JObj []).

Definition getActiveQueries (fauxInstance : list (string * jval)) :=
  getFromContextOrProps fauxInstance "activeQueries" (JObj []).

Definition getQueryResults (fauxInstance : list (string * jval)) :=
  getFromContextOrProps fauxInstance "queryResults" (JObj []).

(** [getFunctionOrObject], lines 412-426.  The default of the third
    parameter, [null], stands in when it is [undefined]. *)
Definition getFunctionOrObject (fauxInstance : list (string * jval)) (key : string)
    (defaultValue : jval) : completion (jval * list (string * jval)) :=
  let defaultValue := if is_undefined defaultValue then JData VNull else defaultValue in
  if negb (is_undefined (field key fauxInstance)) then
    Normal (field key fauxInstance, fauxInstance)
  else
    value ←! member (field "props" fauxInstance) key;
    let value := match value with
                 | JFun f => invoke f fauxInstance
                 | _ => value
                 end in
    let fauxInstance := set_prop key (if jtruthy value then value else defaultValue)
                          fauxInstance in
    Normal (field key fauxInstance, fauxInstance).

(** Lines 488-502. *)
Definition getQuery (fauxInstance : list (string * jval)) :=
  getFunctionOrObject fauxInstance "query" (JData VUndefined).

Definition getQueryOptions (fauxInstance : list (string * jval)) :=
  getFunctionOrObject fauxInstance "queryOptions" (JData VUndefined).

Definition getQueriesOptions (fauxInstance : list (string * jval)) :=
  getFunctionOrObject fauxInstance "queriesOptions" (JObj []).

End Lookup.

(** A runtime in which nothing is inherited under the keys in use. *)
Definition nothing_inherited : jval → string → jval := λ _ _, JData VUndefined.

End Faux.

(* ===================================================================== *)
(** ** Facts about getMergedResult                                       *)
(* ===================================================================== *)

Module MergeFacts.
Import Js Merge MergeSpec.

Lemma set_prop_fresh {A} k (v : A) ps :
  k ∉ keys ps → set_prop k v ps = ps ++ [(k, v)].
Proof.
  induction ps as [|[k' v'] ps IH]; simpl; intros Hk; [done|].
  apply not_elem_of_cons in Hk as [Hne Hk].
  destruct (String.eqb_spec k k'); [done|]. by rewrite IH.
Qed.

Lemma keys_set_prop {A} k (v : A) ps :
  keys (set_prop k v ps) = if bool_decide (k ∈ keys ps) then keys ps else keys ps ++ [k].
Proof.
  induction ps as [|[k' v'] ps IH]; simpl; [done|].
  destruct (String.eqb_spec k k') as [->|Hne]; simpl.
  - rewrite bool_decide_eq_true_2; [done|]. apply list_elem_of_here.
  - rewrite IH. case_bool_decide as H1.
    + rewrite bool_decide_eq_true_2; [done|]. by apply list_elem_of_further.
    + rewrite bool_decide_eq_false_2; [done|].
      intros [?|?]%elem_of_cons; congruence.
Qed.

Lemma set_prop_NoDup {A} k (v : A) ps : NoDup (keys ps) → NoDup (keys (set_prop k v ps)).
Proof.
  intros Hnd. rewrite keys_set_prop. case_bool_decide as H; [done|].
  apply NoDup_app. split_and!; [done| |apply NoDup_singleton].
  intros x Hx Hx'%list_elem_of_singleton. by subst.
Qed.

Lemma assign_NoDup target src : NoDup (keys target) → NoDup (keys (assign target src)).
Proof.
  unfold assign. revert target.
  induction src as [|[k v] src IH]; simpl; intros target Hnd; [done|].
  by apply IH, set_prop_NoDup.
Qed.

Lemma assign_fresh target src :
  NoDup (keys src) → (∀ k, k ∈ keys src → k ∉ keys target) →
  assign target src = target ++ src.
Proof.
  unfold assign. revert target.
  induction src as [|[k v] src IH]; simpl; intros target Hnd Hfresh.
  - by rewrite app_nil_r.
  - apply NoDup_cons in Hnd as [Hk Hnd].
    rewrite set_prop_fresh; [|apply Hfresh, list_elem_of_here].
    rewrite IH; [by rewrite <- app_assoc|done|].
    intros k' Hk'. unfold keys. rewrite map_app. simpl.
    intros [?|Hx%list_elem_of_singleton]%elem_of_app.
    + eapply Hfresh; [by apply list_elem_of_further|done].
    + by subst.
Qed.

(** Re-spreading an object built by assignment gives it back. *)
Lemma assign_nil_id ps : NoDup (keys ps) → assign [] ps = ps.
Proof.
  intros Hnd. rewrite assign_fresh; [done|done|].
  intros k _ H. by apply elem_of_nil in H.
Qed.

Lemma get_set_prop {A} k k' (v : A) ps :
  get_prop k (set_prop k' v ps) = if String.eqb k k' then Some v else get_prop k ps.
Proof.
  induction ps as [|[k0 v0] ps IH]; simpl.
  - done.
  - destruct (String.eqb_spec k' k0) as [->|Hne]; simpl.
    + destruct (String.eqb_spec k k0); done.
    + rewrite IH. destruct (String.eqb_spec k k0) as [->|?]; [|done].
      destruct (String.eqb_spec k0 k'); congruence.
Qed.

Lemma get_assign k target src :
  get_prop k (assign target src) =
  match last_prop k src with Some v => Some v | None => get_prop k target end.
Proof.
  unfold assign. revert target.
  induction src as [|[k' v'] src IH]; simpl; intros target; [done|].
  rewrite IH, get_set_prop.
  destruct (last_prop k src); [done|]. by destruct (String.eqb k k').
Qed.

Lemma get_shallow_merge_from k objs acc :
  get_prop k (fold_left assign objs acc) =
  match lookup_merged k objs with Some v => Some v | None => get_prop k acc end.
Proof.
  revert acc. induction objs as [|o objs IH]; simpl; intros acc; [done|].
  rewrite IH, get_assign. by destruct (lookup_merged k objs).
Qed.

Lemma merge_objects_from m rs :
  NoDup (keys m) →
  merge_from (VObj m) (as_objects rs) = Normal (VObj (fold_left assign (map snd rs) m)).
Proof.
  revert m. induction rs as [|[k o] rs IH]; simpl; intros m Hnd; [done|].
  unfold spread2; simpl. rewrite (assign_nil_id m Hnd).
  apply IH. by apply assign_NoDup.
Qed.

Lemma merge_arrays_from xs rs :
  merge_from (VArr xs) (as_arrays rs) = Normal (VArr (xs ++ concat (map snd rs))).
Proof.
  revert xs. induction rs as [|[k ys] rs IH]; simpl; intros xs.
  - by rewrite app_nil_r.
  - rewrite IH. by rewrite <- app_assoc.
Qed.

(** Results that are all plain objects merge to their shallow merge in
    the order of the results object, later results overriding earlier
    ones key by key; results that are all arrays merge to their
    concatenation in that order. *)
Lemma merge_law :
  (∀ r rs, getMergedResult (as_objects (r :: rs))
           = Normal (VObj (shallow_merge (map snd (r :: rs)))))
  ∧ (∀ k objs, get_prop k (shallow_merge objs) = lookup_merged k objs)
  ∧ (∀ r rs, getMergedResult (as_arrays (r :: rs))
             = Normal (VArr (concat (map snd (r :: rs)))))
  ∧ getMergedResult [("A", VObj [("a", VNum 1)]); ("B", VObj [("b", VNum 2)])]
    = Normal (VObj [("a", VNum 1); ("b", VNum 2)])
  ∧ getMergedResult [("A", VArr [VNum 1]); ("B", VArr [VNum 2])]
    = Normal (VArr [VNum 1; VNum 2]).
Proof.
  split_and!.
  - intros [k o] rs. unfold getMergedResult, shallow_merge. simpl.
    unfold spread2. simpl.
    change (merge_from (VObj (assign [] o)) (as_objects rs) =
            Normal (VObj (fold_left assign (map snd rs) (assign [] o)))).
    apply merge_objects_from, assign_NoDup, NoDup_nil_2.
  - intros k objs. unfold shallow_merge. rewrite get_shallow_merge_from.
    by destruct (lookup_merged k objs).
  - intros [k xs] rs. unfold getMergedResult. simpl.
    change (merge_from (VArr xs) (as_arrays rs) =
            Normal (VArr (xs ++ concat (map snd rs)))).
    apply merge_arrays_from.
  - reflexivity.
  - reflexivity.
Qed.

Lemma merge_from_app acc rs1 rs2 :
  merge_from acc (rs1 ++ rs2) = (m ←! merge_from acc rs1; merge_from m rs2).
Proof.
  revert acc. induction rs1 as [|[k r] rs1 IH]; simpl; intros acc; [done|].
  destruct (merge_step acc r) as [m|e]; simpl; [apply IH|done].
Qed.

Lemma merge_step_scalar acc s :
  is_scalar s = true → merge_step acc s = Normal s.
Proof.
  destruct s; try done; intros _; unfold merge_step; simpl;
    by rewrite ?andb_false_r.
Qed.

Lemma merge_step_object_after_plain_scalar s o :
  is_plain_scalar s = true →
  merge_step s (VObj o) = merge_step VNull (VObj o).
Proof.
  destruct s as [| |b|n| | | |]; try done; unfold merge_step; simpl;
    unfold or_else; simpl.
  - by destruct b.
  - by destruct (n =? 0).
Qed.

(** C3, as the code has it: results are folded in iteration order and a
    scalar (neither container nor undefined) always replaces the
    accumulated merge, whatever preceded it; a plain-object result that
    follows a number, boolean or null starts from an empty object and so
    drops that scalar.  Provider A resolving to 5 followed by B resolving
    to {y:9} gives {y:9}; the same two results in the other order give 5. *)
Theorem scalar_overwrite_law :
  (∀ pre m k s post,
     getMergedResult pre = Normal m → is_scalar s = true →
     getMergedResult (pre ++ (k, s) :: post) = merge_from s post)
  ∧ (∀ s k o rest,
       is_plain_scalar s = true →
       merge_from s ((k, VObj o) :: rest) = getMergedResult ((k, VObj o) :: rest))
  ∧ getMergedResult [("A", VNum 5); ("B", VObj [("y", VNum 9)])]
    = Normal (VObj [("y", VNum 9)])
  ∧ getMergedResult [("B", VObj [("y", VNum 9)]); ("A", VNum 5)]
    = Normal (VNum 5).
Proof.
  split_and!.
  - intros pre m k s post Hpre Hs. unfold getMergedResult in *.
    rewrite merge_from_app, Hpre. simpl. by rewrite merge_step_scalar.
  - intros s k o rest Hs. unfold getMergedResult. cbn [merge_from].
    by rewrite merge_step_object_after_plain_scalar.
  - reflexivity.
  - reflexivity.
Qed.

(** The hypotheses of [scalar_overwrite_law] at concrete results. *)
Lemma scalar_overwrite_law_witness :
  getMergedResult ([("A", VArr [VNum 1])] ++ ("B", VStr "s") :: [("C", VUndefined)])
  = merge_from (VStr "s") [("C", VUndefined)]
  ∧ merge_from (VBool true) [("B", VObj [("y", VNum 9)])]
    = getMergedResult [("B", VObj [("y", VNum 9)])].
Proof.
  split.
  - apply (proj1 scalar_overwrite_law _ (VArr [VNum 1])); reflexivity.
  - apply (proj1 (proj2 scalar_overwrite_law)); reflexivity.
Defined.

(** C3 as stated fails: with a container present, a later scalar still
    replaces the merge. *)
Lemma scalar_after_container_wins :
  ¬ containers_take_precedence [("B", VObj [("y", VNum 9)]); ("A", VNum 5)]
  ∧ getMergedResult [("B", VObj [("y", VNum 9)]); ("A", VNum 5)] = Normal (VNum 5).
Proof.
  split; [|reflexivity].
  intros H. specialize (H eq_refl). vm_compute in H. discriminate H.
Qed.

Lemma blocks_array_truthy v : blocks_array v = true → truthy v = true.
Proof. by destruct v. Qed.

Lemma blocks_array_iterate v : blocks_array v = true → iterate v = Throw TypeError.
Proof. by destruct v. Qed.

Lemma merge_from_blocked acc mid k xs post :
  blocks_array acc = true →
  forallb keeps_block (map snd mid) = true →
  merge_from acc (mid ++ (k, VArr xs) :: post) = Throw TypeError.
Proof.
  revert acc. induction mid as [|[k' r] mid IH]; simpl; intros acc Hacc Hmid.
  - unfold merge_step, or_else; simpl.
    by rewrite (blocks_array_truthy _ Hacc), (blocks_array_iterate _ Hacc).
  - apply andb_prop in Hmid as [Hr Hmid].
    destruct r as [| | | | | |ys|o]; try discriminate Hr.
    + simpl. by apply IH.
    + unfold merge_step, or_else; simpl.
      by rewrite (blocks_array_truthy _ Hacc), (blocks_array_iterate _ Hacc).
    + simpl. by apply IH.
Qed.

Lemma merge_step_blocking acc v :
  blocks_array v = true →
  ∃ acc', merge_step acc v = Normal acc' ∧ blocks_array acc' = true.
Proof.
  destruct v as [| |b|n| | | |o]; try discriminate; intros Hv.
  - exists (VBool b). by rewrite merge_step_scalar.
  - exists (VNum n). by rewrite merge_step_scalar.
  - eexists. split; [reflexivity|done].
Qed.

(** C10, as the code has it: when an array-valued result comes after a
    result that is a plain object, a number other than 0 and [NaN], or
    [true], with only containers or undefined results in between, the
    array branch spreads a value that is not iterable and a TypeError is
    raised; the empty mapping merges to null. *)
Theorem merge_partiality :
  (∀ pre k v mid k' xs post,
     blocks_array v = true →
     forallb keeps_block (map snd mid) = true →
     getMergedResult (pre ++ (k, v) :: mid ++ (k', VArr xs) :: post)
     = Throw TypeError)
  ∧ getMergedResult [] = Normal VNull.
Proof.
  split; [|reflexivity].
  intros pre k v mid k' xs post Hv Hmid. unfold getMergedResult.
  rewrite merge_from_app.
  destruct (merge_from VNull pre) as [m|[]]; simpl; [|done].
  destruct (merge_step_blocking m v Hv) as (acc' & -> & Hacc'). simpl.
  by apply merge_from_blocked.
Qed.

(** The hypotheses of [merge_partiality] at concrete results. *)
Lemma merge_partiality_witness :
  getMergedResult ([("A", VStr "s")] ++ ("B", VNum 7)
                     :: [("C", VUndefined)] ++ ("D", VArr [VNum 1]) :: [])
  = Throw TypeError.
Proof. apply (proj1 merge_partiality); reflexivity. Defined.

(** C10 as stated fails: an array after the number 0, after [NaN], or
    after an object that a null result has since replaced, merges without
    error. *)
Lemma array_after_falsy_merges :
  array_after_object_or_number [("A", VNum 0); ("B", VArr [VNum 1])] = true
  ∧ getMergedResult [("A", VNum 0); ("B", VArr [VNum 1])] = Normal (VArr [VNum 1])
  ∧ array_after_object_or_number [("A", VNaN); ("B", VArr [VNum 1])] = true
  ∧ getMergedResult [("A", VNaN); ("B", VArr [VNum 1])] = Normal (VArr [VNum 1])
  ∧ array_after_object_or_number
      [("A", VObj [("a", VNum 1)]); ("B", VNull); ("C", VArr [VNum 1])] = true
  ∧ getMergedResult [("A", VObj [("a", VNum 1)]); ("B", VNull); ("C", VArr [VNum 1])]
    = Normal (VArr [VNum 1]).
Proof. split_and!; reflexivity. Qed.

End MergeFacts.

(* ===================================================================== *)
(** ** Facts about instantiateProvider                                   *)
(* ===================================================================== *)

Module ProviderFacts.
Import Js Provider ProviderSpec MergeFacts Examples.
Local Open Scope nat_scope.

(** *** The shapes of a result *)

Lemma result_shape (result : result_arg) : result = Sized ∨ result ≠ Sized.
Proof. destruct result; [by right|by right|by left]. Qed.

Lemma not_sized {A} (result : result_arg) (a b : A) :
  result ≠ Sized →
  match result with
  | Sized => a
  | _ => b
  end = b.
Proof. by destruct result. Qed.

(** [getResultInstances] as it goes on when the result is not one that
    has a length and no [forEach]. *)
Ltac gather_cases result Hns :=
  unfold getResultInstances;
  destruct (result_shape result) as [->|Hns]; [done|rewrite (not_sized _ _ _ Hns)].

(** *** Changes that leave the registry alone *)

Lemma fmap_alter_same {A B} (f : A → B) (g : A → A) (k : string) (m : gmap string A) :
  (∀ x, f (g x) = f x) → f <$> alter g k m = f <$> m.
Proof.
  intros Hfg. apply map_eq. intros j. rewrite !lookup_fmap.
  destruct (decide (k = j)) as [->|Hne].
  - rewrite lookup_alter_eq. destruct (m !! j); simpl; [by rewrite Hfg|done].
  - by rewrite lookup_alter_ne.
Qed.

Lemma list_fmap_alter_same {A B} (f : A → B) (g : A → A) (i : nat) (l : list A) :
  (∀ x, f (g x) = f x) → f <$> alter g i l = f <$> l.
Proof.
  intros Hfg. revert i. induction l as [|x l IH]; intros [|i]; csimpl; try done.
  - by rewrite Hfg.
  - by rewrite IH.
Qed.

Lemma registry_log es w : registry (log es w) = registry w.
Proof. done. Qed.

Lemma registry_join_clear j w : registry (join_clear j w) = registry w.
Proof. unfold join_clear. destruct (joins w !! j); [|done]. by case_match. Qed.

Lemma registry_heap_alter g i w :
  (∀ x, identity (g x) = identity x) →
  registry (upd_heap (alter g i) w) = registry w.
Proof.
  intros Hg. unfold registry. simpl. by rewrite list_fmap_alter_same.
Qed.

Lemma registry_providers_alter g k w :
  (∀ p, isGlobal (g p) = isGlobal p) →
  registry (upd_providers (alter g k) w) = registry w.
Proof.
  intros Hg. unfold registry. simpl. by rewrite fmap_alter_same.
Qed.

Lemma registry_run_ready_cb i c w : registry (run_ready_cb i c w) = registry w.
Proof.
  destruct c as [|[f|j idx]]; simpl.
  - by apply registry_heap_alter.
  - done.
  - by rewrite registry_join_clear.
Qed.

Lemma calm_refl w : calm w w.
Proof. split; [done|]. exists []. by rewrite app_nil_r. Qed.

Lemma calm_trans w1 w2 w3 : calm w1 w2 → calm w2 w3 → calm w1 w3.
Proof.
  intros [Hr1 (es1 & Ht1 & Hq1)] [Hr2 (es2 & Ht2 & Hq2)]. split; [congruence|].
  exists (es1 ++ es2). split; [by rewrite Ht2, Ht1, app_assoc|by apply Forall_app].
Qed.

Lemma calm_log es w : Forall (λ e, quiet e = true) es → calm w (log es w).
Proof. intros Hq. split; [done|]. by exists es. Qed.

Lemma calm_silent w w' : registry w' = registry w → trace w' = trace w → calm w w'.
Proof. intros Hr Ht. split; [done|]. exists []. by rewrite app_nil_r. Qed.

Lemma calm_heap_alter g i w :
  (∀ x, identity (g x) = identity x) → calm w (upd_heap (alter g i) w).
Proof. intros Hg. apply calm_silent; [by apply registry_heap_alter|done]. Qed.

Lemma calm_providers_alter g k w :
  (∀ p, isGlobal (g p) = isGlobal p) → calm w (upd_providers (alter g k) w).
Proof. intros Hg. apply calm_silent; [by apply registry_providers_alter|done]. Qed.

Lemma calm_joins f w : calm w (upd_joins f w).
Proof. by apply calm_silent. Qed.

Lemma calm_relevant f w : calm w (upd_relevant f w).
Proof. by apply calm_silent. Qed.

Lemma calm_join_clear j w : calm w (join_clear j w).
Proof.
  unfold join_clear. destruct (joins w !! j) as [jn|]; [|apply calm_refl].
  case_match.
  - eapply calm_trans; [apply calm_joins|]. apply calm_log. by repeat constructor.
  - apply calm_joins.
Qed.

Lemma calm_run_ready_cb i c w : calm w (run_ready_cb i c w).
Proof.
  destruct c as [|[f|j idx]]; simpl.
  - by apply calm_heap_alter.
  - apply calm_log. by repeat constructor.
  - eapply calm_trans; [apply calm_joins|apply calm_join_clear].
Qed.

Lemma calm_fold {A} (f : world → A → world) xs w :
  (∀ w x, calm w (f w x)) → calm w (fold_left f xs w).
Proof.
  intros Hf. revert w. induction xs as [|x xs IH]; intros w; simpl; [apply calm_refl|].
  eapply calm_trans; [apply Hf|apply IH].
Qed.

Lemma Forall_quiet_fmap {A} (f : A → event) (xs : list A) :
  (∀ x, quiet (f x) = true) → Forall (λ e, quiet e = true) (f <$> xs).
Proof. intros Hf. apply Forall_fmap, Forall_forall. intros x _. apply Hf. Qed.

Lemma calm_done d i w w' : done d i w = Normal w' → calm w w'.
Proof.
  unfold done. intros H.
  set (w1 := fold_left _ _ w) in H.
  destruct (forEach _) as [fs|e] eqn:Hfs; simpl in H; [|done].
  injection H as <-.
  eapply calm_trans; [|apply calm_log; by apply Forall_quiet_fmap].
  apply (calm_fold (λ w c, run_ready_cb i c w)). intros. apply calm_run_ready_cb.
Qed.

Lemma calm_for_each {A} (f : A → world → completion world) xs w w' :
  (∀ x w w', f x w = Normal w' → calm w w') →
  for_each f xs w = Normal w' → calm w w'.
Proof.
  intros Hf. revert w. induction xs as [|x xs IH]; intros w; simpl.
  - intros [= <-]. apply calm_refl.
  - destruct (f x w) as [w1|e] eqn:Hx; simpl; [|done].
    intros H. eapply calm_trans; [by eapply Hf|by apply IH].
Qed.

Lemma calm_subscribe i l w : calm w (subscribe i l w).
Proof. by apply calm_heap_alter. Qed.

Lemma calm_wire_subscriber d i kh w w' :
  wire_subscriber d i kh w = Normal w' → calm w w'.
Proof.
  destruct kh as [key handler]. unfold wire_subscriber.
  destruct (providers w !! key) as [sub|]; [|done]. intros [= <-].
  eapply calm_trans; [|apply calm_log; by apply Forall_quiet_fmap].
  eapply calm_trans; [|apply calm_subscribe].
  by apply calm_providers_alter.
Qed.

Lemma calm_wire_subscribeTo d i kh w w' :
  wire_subscribeTo d i kh w = Normal w' → calm w w'.
Proof.
  destruct kh as [key handler]. unfold wire_subscribeTo.
  destruct (providers w !! key) as [sup|]; [|done]. intros [= <-].
  eapply calm_trans; [|apply calm_log; by apply Forall_quiet_fmap].
  destruct (get_prop d _); [apply calm_refl|].
  eapply calm_trans; [|apply (calm_fold (λ w s, subscribe s (handler, d) w)); intros; apply calm_subscribe].
  by apply calm_providers_alter.
Qed.

Lemma calm_finish d i p rc w w' : finish d i p rc w = Normal w' → calm w w'.
Proof.
  unfold finish.
  set (w1 := log _ w). set (w2 := unshiftOnReady i FlipReady w1).
  set (w3 := match rc with Some c => _ | None => _ end). intros H.
  assert (calm w w3) as Hc.
  { apply (calm_trans _ w1); [apply calm_log; by apply Forall_quiet_fmap|].
    apply (calm_trans _ w2); [by apply calm_heap_alter|].
    subst w3. destruct rc; [by apply calm_heap_alter|apply calm_refl]. }
  destruct (_ && _).
  - injection H as <-. eapply calm_trans; [done|]. by apply calm_heap_alter.
  - apply calm_done in H. by eapply calm_trans.
Qed.

Lemma registry_global w w' :
  registry w' = registry w → globalProviderInstances w' = globalProviderInstances w.
Proof. unfold registry. congruence. Qed.

Lemma registry_table w w' :
  registry w' = registry w → providerInstances w' = providerInstances w.
Proof. unfold registry. congruence. Qed.

Lemma registry_isGlobal w w' d :
  registry w' = registry w →
  isGlobal <$> providers w' !! d = isGlobal <$> providers w !! d.
Proof.
  unfold registry. intros [= _ _ H _]. by rewrite <- !lookup_fmap, H.
Qed.

Lemma registry_identity w w' i :
  registry w' = registry w →
  identity <$> heap w' !! i = identity <$> heap w !! i.
Proof.
  unfold registry. intros [= _ _ _ H]. by rewrite <- !list_lookup_fmap, H.
Qed.

Lemma registry_length w w' :
  registry w' = registry w → length (heap w') = length (heap w).
Proof.
  unfold registry. intros [= _ _ _ H].
  by rewrite <- (length_fmap identity (heap w')), H, length_fmap.
Qed.

Lemma finds_registry w w' d k :
  registry w' = registry w → finds w' d k = finds w d k.
Proof.
  intros Hr. unfold finds, lookup_instance.
  pose proof (registry_isGlobal _ _ d Hr) as Hg.
  rewrite (registry_global _ _ Hr), (registry_table _ _ Hr).
  destruct (providers w' !! d) as [p'|], (providers w !! d) as [p|];
    simpl in Hg; try done.
  injection Hg as ->. done.
Qed.

Lemma count_app f (t es : list event) : count f (t ++ es) = count f t + count f es.
Proof. unfold count. by rewrite filter_app, length_app. Qed.

Lemma count_quiet_store es :
  Forall (λ e, quiet e = true) es → count is_store es = 0.
Proof.
  unfold count. induction 1 as [|e es He _ IH]; [done|].
  rewrite filter_cons. destruct (decide (is_store e = true)) as [Hs|_]; [|done].
  unfold quiet in He. by rewrite Hs in He.
Qed.

Lemma count_quiet_wait d es :
  Forall (λ e, quiet e = true) es → count (is_wait d) es = 0.
Proof.
  unfold count. induction 1 as [|e es He _ IH]; [done|].
  rewrite filter_cons. destruct (decide (is_wait d e = true)) as [Hs|_]; [|done].
  by destruct e.
Qed.

Lemma calm_counts w w' :
  calm w w' →
  registry w' = registry w
  ∧ count is_store (trace w') = count is_store (trace w)
  ∧ ∀ d, count (is_wait d) (trace w') = count (is_wait d) (trace w).
Proof.
  intros [Hr (es & -> & Hq)]. split_and!; [done| |intros d].
  - by rewrite count_app, (count_quiet_store es Hq), Nat.add_0_r.
  - by rewrite count_app, (count_quiet_wait d es Hq), Nat.add_0_r.
Qed.

Lemma calm_install_thunk d w : calm w (install_thunk d w).
Proof.
  unfold install_thunk. destruct (providers w !! d) as [p|] eqn:Hp; [|apply calm_refl].
  destruct (hasThunk p); [apply calm_refl|].
  eapply calm_trans; [|apply calm_log; by repeat constructor].
  apply calm_silent; [|done]. unfold registry. simpl. do 2 f_equal.
  apply map_eq. intros j. rewrite !lookup_fmap.
  destruct (decide (d = j)) as [->|Hne].
  - by rewrite lookup_insert_eq, Hp.
  - by rewrite lookup_insert_ne.
Qed.

Lemma install_thunk_wait d w p :
  providers w !! d = Some p →
  ∃ p', providers (install_thunk d w) !! d = Some p'
        ∧ callback_list (wait p') = callback_list (wait p).
Proof.
  intros Hp. unfold install_thunk. rewrite Hp.
  destruct (hasThunk p); [by exists p|].
  exists (set_thunk p). simpl. rewrite lookup_insert_eq. split; [done|].
  by destruct (wait p).
Qed.

Lemma forEach_list c fs : forEach c = Normal fs → callback_list c = fs.
Proof. destruct c; simpl; congruence. Qed.

Lemma count_cons f e (t : list event) :
  count f (e :: t) = (if f e then 1 else 0) + count f t.
Proof. unfold count. rewrite filter_cons. by destruct (f e). Qed.

Lemma count_wait_fmap d d' (fs : list nat) :
  count (is_wait d') (EWait d <$> fs) = if decide (d' = d) then length fs else 0.
Proof.
  induction fs as [|f fs IH]; [by case_decide|].
  rewrite fmap_cons, count_cons, IH. simpl.
  destruct (String.eqb_spec d' d) as [->|Hne].
  - by rewrite !decide_True.
  - by rewrite !decide_False.
Qed.

Lemma count_store_wait d (fs : list nat) : count is_store (EWait d <$> fs) = 0.
Proof. induction fs as [|f fs IH]; [done|]. by rewrite fmap_cons, count_cons, IH. Qed.

Lemma allocate_finds d k static p p0 w :
  providers w !! d = Some p0 →
  isGlobal p0 = true ∨ is_Some (providerInstances w) →
  finds (allocate d k static p w) d k = Some (length (heap w)).
Proof.
  intros Hp0 Hcond. unfold finds, allocate, register. simpl. rewrite Hp0.
  destruct (isGlobal p0) eqn:Hg; simpl; rewrite lookup_alter_eq, Hp0; simpl;
    unfold lookup_instance; simpl; rewrite Hg; simpl.
  - by rewrite lookup_insert_eq.
  - destruct Hcond as [?|[t Ht]]; [done|]. rewrite Ht. simpl. by rewrite lookup_insert_eq.
Qed.

Lemma allocate_heap d k static p w :
  heap (allocate d k static p w)
  = heap w ++ [Instance d k static false (Caller ∘ User <$> callback_list (onReady p)) [] false].
Proof. unfold allocate, register. simpl. by destruct (match providers w !! d with Some _ => _ | None => _ end). Qed.

Lemma allocate_trace d k static p w :
  trace (allocate d k static p w) = trace w ++ [EStore (length (heap w))].
Proof. unfold allocate, register. simpl. by destruct (match providers w !! d with Some _ => _ | None => _ end). Qed.

(** What a creation does to the tables, the heap and the trace. *)
Lemma create_spec d k static rc w w' i p :
  providers w !! d = Some p →
  create d k static rc w = Normal (w', i) →
  i = length (heap w)
  ∧ identity <$> heap w' !! i = Some (d, k, static)
  ∧ length (heap w') = S (length (heap w))
  ∧ (isGlobal p = true ∨ is_Some (providerInstances w) → finds w' d k = Some i)
  ∧ count is_store (trace w') = count is_store (trace w) + 1
  ∧ ∀ d', count (is_wait d') (trace w')
          = count (is_wait d') (trace w)
            + if decide (d' = d) then length (callback_list (wait p)) else 0.
Proof.
  intros Hp. unfold create.
  pose proof (calm_install_thunk d w) as Hc0.
  destruct (install_thunk_wait d w p Hp) as (p' & Hp' & Hwait).
  set (w0 := install_thunk d w) in *. rewrite Hp'.
  destruct (forEach (wait p')) as [fs|] eqn:Hfs; simpl; [|done].
  apply forEach_list in Hfs. rewrite Hwait in Hfs. subst fs.
  set (w1 := log _ w0). set (w2 := allocate d k static p' w1).
  destruct (for_each (wire_subscriber d _) _ w2) as [w3|] eqn:H3; simpl; [|done].
  destruct (for_each (wire_subscribeTo d _) _ w3) as [w4|] eqn:H4; simpl; [|done].
  destruct (finish d _ p' rc w4) as [w5|] eqn:H5; simpl; [|done].
  intros [= <- <-].
  assert (calm w2 w5) as Hc.
  { apply (calm_trans _ w3); [eapply calm_for_each, H3; apply calm_wire_subscriber|].
    apply (calm_trans _ w4); [eapply calm_for_each, H4; apply calm_wire_subscribeTo|].
    by eapply calm_finish. }
  apply calm_counts in Hc as (Hr & Hs & Hw).
  apply calm_counts in Hc0 as (Hr0 & Hs0 & Hw0).
  assert (length (heap w1) = length (heap w)) as Hlen by apply (registry_length _ _ Hr0).
  split_and!.
  - done.
  - rewrite (registry_identity _ _ _ Hr). unfold w2. rewrite allocate_heap.
    rewrite lookup_app_r by done. by rewrite Nat.sub_diag.
  - rewrite (registry_length _ _ Hr). unfold w2. rewrite allocate_heap, length_app, Hlen. simpl. lia.
  - intros Hcond. rewrite (finds_registry _ _ _ _ Hr).
    change (length (heap w0)) with (length (heap w1)).
    apply (allocate_finds d k static p' p' w1); [done|].
    pose proof (registry_isGlobal _ _ d Hr0) as Hg.
    pose proof (registry_table _ _ Hr0) as Ht.
    fold w0 in Hg, Ht. rewrite Hp', Hp in Hg. simpl in Hg. injection Hg as Hg.
    change (providerInstances w1) with (providerInstances w0). rewrite Ht, Hg. done.
  - rewrite Hs. unfold w2. rewrite allocate_trace, count_app. unfold w1. simpl.
    rewrite count_app, count_store_wait. fold w0. rewrite Hs0.
    rewrite count_cons. simpl. unfold count. simpl. lia.
  - intros d'. rewrite Hw. unfold w2. rewrite allocate_trace, count_app. unfold w1. simpl.
    rewrite count_app, count_wait_fmap. fold w0. rewrite Hw0.
    rewrite (count_cons _ (EStore _)). simpl.
    change (count (is_wait d') []) with 0. lia.
Qed.

Lemma instantiate_found w fi d a p i :
  providers w !! d = Some p →
  lookup_instance w p (resolved_key d a) = Some i →
  ∃ w', instantiateProvider w fi d a = Normal (w', i) ∧ calm w w'.
Proof.
  intros Hp Hfound. unfold instantiateProvider, resolved_key in *. rewrite Hp.
  destruct (resolve d a) as [[k static] rc]. simpl in Hfound. rewrite Hfound.
  set (w1 := match fi with Consumer => _ | Fresh => _ end).
  assert (calm w w1) as Hc1.
  { subst w1. destruct fi; [apply calm_relevant|apply calm_refl]. }
  destruct rc as [c|].
  - destruct (instance_ready w1 i); eexists; (split; [done|]).
    + eapply calm_trans; [done|apply calm_run_ready_cb].
    + eapply calm_trans; [done|by apply calm_heap_alter].
  - by eexists.
Qed.

Lemma instantiate_created w fi d a p w' i :
  providers w !! d = Some p →
  lookup_instance w p (resolved_key d a) = None →
  instantiateProvider w fi d a = Normal (w', i) →
  ∃ w1, calm w w1 ∧ providers w1 = providers w
        ∧ providerInstances w1 = providerInstances w
        ∧ create d (resolved_key d a) (resolve d a).1.2 (resolve d a).2 w1 = Normal (w', i).
Proof.
  intros Hp Hnone. unfold instantiateProvider, resolved_key in *. rewrite Hp.
  destruct (resolve d a) as [[k static] rc]. simpl in *. rewrite Hnone.
  intros H. eexists. split_and!; [|..|exact H].
  - destruct fi; [apply calm_relevant|apply calm_refl].
  - by destruct fi.
  - by destruct fi.
Qed.

Lemma finds_Some w d k i :
  finds w d k = Some i → ∃ p, providers w !! d = Some p ∧ lookup_instance w p k = Some i.
Proof. unfold finds. destruct (providers w !! d) as [p|]; [|done]. by exists p. Qed.

(** After any instantiation the lookup for the same definition and key
    finds the instance that was returned. *)
Lemma instantiate_registers w fi d a w1 i :
  instantiateProvider w fi d a = Normal (w1, i) →
  has_table w d →
  finds w1 d (resolved_key d a) = Some i.
Proof.
  intros Hcall Htab. unfold has_table in Htab.
  destruct (providers w !! d) as [p|] eqn:Hp; [|done].
  destruct (lookup_instance w p (resolved_key d a)) as [i'|] eqn:Hlook.
  - destruct (instantiate_found w fi d a p i' Hp Hlook) as (w' & Hcall' & [Hr _]).
    rewrite Hcall in Hcall'. injection Hcall' as <- <-.
    rewrite (finds_registry _ _ _ _ Hr). unfold finds. by rewrite Hp.
  - destruct (instantiate_created w fi d a p w1 i Hp Hlook Hcall)
      as (w0 & [Hr _] & Hprov & Htable & Hcreate).
    eapply create_spec in Hcreate as (_ & _ & _ & Hfinds & _); [|by rewrite Hprov].
    apply Hfinds. by rewrite Htable.
Qed.

Lemma has_table_registry w w' d :
  registry w' = registry w → has_table w d → has_table w' d.
Proof.
  intros Hr. unfold has_table.
  pose proof (registry_isGlobal _ _ d Hr) as Hg. rewrite (registry_table _ _ Hr).
  destruct (providers w' !! d), (providers w !! d); simpl in Hg; try done.
  by injection Hg as ->.
Qed.



(** C5, as the code has it: the created instance is static exactly when
    the key argument is not a function or the key it computes equals the
    definition's key; its [providerKey] is the resolved key. *)
Theorem isStatic_of_created w fi d a w' i :
  instantiateProvider w fi d a = Normal (w', i) →
  finds w d (resolved_key d a) = None →
  ∃ x, heap w' !! i = Some x
       ∧ proto x = d
       ∧ providerKey x = resolved_key d a
       ∧ (isStatic x = true ↔ key_is_function a = false ∨ resolved_key d a = d).
Proof.
  intros Hcall Hnone. unfold finds in Hnone.
  destruct (providers w !! d) as [p|] eqn:Hp.
  2:{ unfold instantiateProvider in Hcall. by rewrite Hp in Hcall. }
  destruct (instantiate_created w fi d a p w' i Hp Hnone Hcall)
    as (w0 & _ & Hprov & _ & Hcreate).
  eapply create_spec in Hcreate as (_ & Hid & _); [|by rewrite Hprov].
  destruct (heap w' !! i) as [x|]; [|done]. injection Hid as Hproto Hkey Hstatic.
  exists x. split_and!; try done. rewrite Hstatic.
  destruct a as [rc|[k|k] rc]; simpl; unfold resolved_key; simpl.
  - naive_solver.
  - naive_solver.
  - rewrite bool_decide_eq_true. naive_solver.
Qed.

(** *** Changes that leave readiness alone *)

Lemma tame_refl w : tame w w.
Proof. split_and!; [done..|]. exists []. by rewrite app_nil_r. Qed.

Lemma tame_trans w1 w2 w3 : tame w1 w2 → tame w2 w3 → tame w1 w3.
Proof.
  intros (Hj1 & Hr1 & es1 & Ht1 & Hq1) (Hj2 & Hr2 & es2 & Ht2 & Hq2).
  split_and!; [congruence..|].
  exists (es1 ++ es2). split; [by rewrite Ht2, Ht1, app_assoc|by apply Forall_app].
Qed.

Lemma tame_log es w : Forall (λ e, plain e = true) es → tame w (log es w).
Proof. intros Hq. split_and!; [done..|]. by exists es. Qed.

Lemma tame_silent w w' :
  joins w' = joins w → readiness <$> heap w' = readiness <$> heap w →
  trace w' = trace w → tame w w'.
Proof. intros Hj Hr Ht. split_and!; [done..|]. exists []. by rewrite app_nil_r. Qed.

Lemma tame_heap_alter g i w :
  (∀ x, readiness (g x) = readiness x) → tame w (upd_heap (alter g i) w).
Proof.
  intros Hg. apply tame_silent; [done| |done]. simpl. by apply list_fmap_alter_same.
Qed.

Lemma tame_providers f w : tame w (upd_providers f w).
Proof. by apply tame_silent. Qed.

Lemma tame_fold {A} (f : world → A → world) xs w :
  (∀ w x, tame w (f w x)) → tame w (fold_left f xs w).
Proof.
  intros Hf. revert w. induction xs as [|x xs IH]; intros w; simpl; [apply tame_refl|].
  eapply tame_trans; [apply Hf|apply IH].
Qed.

Lemma tame_for_each {A} (f : A → world → completion world) xs w w' :
  (∀ x w w', f x w = Normal w' → tame w w') →
  for_each f xs w = Normal w' → tame w w'.
Proof.
  intros Hf. revert w. induction xs as [|x xs IH]; intros w; simpl.
  - intros [= <-]. apply tame_refl.
  - destruct (f x w) as [w1|e] eqn:Hx; simpl; [|done].
    intros H. eapply tame_trans; [by eapply Hf|by apply IH].
Qed.

Lemma Forall_plain_fmap {A} (f : A → event) (xs : list A) :
  (∀ x, plain (f x) = true) → Forall (λ e, plain e = true) (f <$> xs).
Proof. intros Hf. apply Forall_fmap, Forall_forall. intros x _. apply Hf. Qed.

Lemma tame_subscribe i l w : tame w (subscribe i l w).
Proof. by apply tame_heap_alter. Qed.

Lemma tame_wire_subscriber d i kh w w' :
  wire_subscriber d i kh w = Normal w' → tame w w'.
Proof.
  destruct kh as [key handler]. unfold wire_subscriber.
  destruct (providers w !! key) as [sub|]; [|done]. intros [= <-].
  eapply tame_trans; [|apply tame_log; by apply Forall_plain_fmap].
  eapply tame_trans; [|apply tame_subscribe].
  apply tame_providers.
Qed.

Lemma tame_wire_subscribeTo d i kh w w' :
  wire_subscribeTo d i kh w = Normal w' → tame w w'.
Proof.
  destruct kh as [key handler]. unfold wire_subscribeTo.
  destruct (providers w !! key) as [sup|]; [|done]. intros [= <-].
  eapply tame_trans; [|apply tame_log; by apply Forall_plain_fmap].
  destruct (get_prop d _); [apply tame_refl|].
  eapply tame_trans;
    [|apply (tame_fold (λ w s, subscribe s (handler, d) w)); intros; apply tame_subscribe].
  apply tame_providers.
Qed.

Lemma tame_install_thunk d w : tame w (install_thunk d w).
Proof.
  unfold install_thunk. destruct (providers w !! d) as [p|]; [|apply tame_refl].
  destruct (hasThunk p); [apply tame_refl|].
  eapply tame_trans; [apply tame_providers|]. apply tame_log. by repeat constructor.
Qed.


Lemma readiness_queues (h h' : list instance) :
  readiness <$> h' = readiness <$> h → i_onReady <$> h' = i_onReady <$> h.
Proof.
  intros H. apply (f_equal (fmap (λ t : bool * list ready_cb * bool, t.1.2))) in H.
  by rewrite <- !list_fmap_compose in H.
Qed.

Lemma plain_honest es :
  Forall (λ e, plain e = true) es → Forall (λ e, honest e = true) es.
Proof.
  intros H. eapply Forall_impl; [exact H|].
  intros e. unfold plain. by intros [? _]%andb_true_iff.
Qed.

Lemma ready_ok_tame w w' : tame w w' → ready_ok w → ready_ok w'.
Proof.
  intros (_ & Hr & es & Ht & Hq) [Hf Htr]. split.
  - unfold flip_first. by rewrite (readiness_queues _ _ Hr).
  - unfold truthful. rewrite Ht. apply Forall_app. split; [done|by apply plain_honest].
Qed.

Lemma truthful_log es w :
  Forall (λ e, honest e = true) es → truthful w → truthful (log es w).
Proof. intros Hes Hw. unfold truthful. simpl. by apply Forall_app. Qed.

Lemma truthful_join_clear j w : truthful w → truthful (join_clear j w).
Proof.
  unfold join_clear. destruct (joins w !! j); [|done]. case_match; [|done].
  intros. apply truthful_log; [by repeat constructor|done].
Qed.

Lemma queues_join_clear j w : heap (join_clear j w) = heap w.
Proof. unfold join_clear. destruct (joins w !! j); [|done]. by case_match. Qed.

Lemma instance_ready_alter_ready i w :
  i < length (heap w) →
  instance_ready (upd_heap (alter (set_ready true) i) w) i = true.
Proof.
  intros Hi. unfold instance_ready. simpl.
  apply lookup_lt_is_Some_2 in Hi as [x Hx].
  by rewrite list_lookup_alter_eq, Hx.
Qed.

(** Once [ready] is set for [i], calling any queue entry keeps it set and
    keeps the trace truthful. *)
Lemma run_ready_cb_ready i c w :
  instance_ready w i = true → truthful w →
  instance_ready (run_ready_cb i c w) i = true
  ∧ truthful (run_ready_cb i c w)
  ∧ i_onReady <$> heap (run_ready_cb i c w) = i_onReady <$> heap w.
Proof.
  intros Hi Ht. destruct c as [|[f|j idx]]; simpl.
  - split_and!; [|done|by apply list_fmap_alter_same].
    unfold instance_ready in *. simpl. rewrite list_lookup_alter_eq.
    by destruct (heap w !! i).
  - split_and!; [done| |done]. apply truthful_log; [|done]. rewrite Hi. by repeat constructor.
  - split_and!.
    + unfold instance_ready. by rewrite queues_join_clear.
    + by apply truthful_join_clear.
    + by rewrite queues_join_clear.
Qed.

Lemma fold_run_ready_cb_ready i cbs w :
  instance_ready w i = true → truthful w →
  let w' := fold_left (λ w c, run_ready_cb i c w) cbs w in
  truthful w' ∧ i_onReady <$> heap w' = i_onReady <$> heap w.
Proof.
  revert w. induction cbs as [|c cbs IH]; intros w Hi Ht; simpl; [done|].
  destruct (run_ready_cb_ready i c w Hi Ht) as (Hi' & Ht' & Hq').
  destruct (IH _ Hi' Ht') as [Ht'' Hq'']. split; [done|congruence].
Qed.

Lemma flip_first_lookup w i x :
  flip_first w → heap w !! i = Some x → starts_with_flip (i_onReady x).
Proof.
  intros Hf Hx. eapply Forall_lookup_1; [exact Hf|].
  by rewrite list_lookup_fmap, Hx.
Qed.

Lemma ready_ok_done d i w w' :
  ready_ok w → done d i w = Normal w' → ready_ok w'.
Proof.
  intros [Hf Ht]. unfold done.
  destruct (heap w !! i) as [x|] eqn:Hx.
  - destruct (flip_first_lookup _ _ _ Hf Hx) as [l ->]. simpl.
    set (w1 := upd_heap (alter (set_ready true) i) w).
    assert (instance_ready w1 i = true) as Hi.
    { apply instance_ready_alter_ready. by eapply lookup_lt_Some. }
    assert (truthful w1) as Ht1 by done.
    destruct (fold_run_ready_cb_ready i l w1 Hi Ht1) as [Ht2 Hq2].
    set (w2 := fold_left _ l w1) in *.
    destruct (forEach _) as [fs|]; simpl; [|done]. intros [= <-].
    split.
    + unfold flip_first. simpl. rewrite Hq2. unfold w1. simpl.
      by rewrite list_fmap_alter_same.
    + apply truthful_log; [|done]. apply Forall_fmap, Forall_forall. by intros.
  - simpl. destruct (forEach _) as [fs|]; simpl; [|done]. intros [= <-].
    split; [done|]. apply truthful_log; [|done]. apply Forall_fmap, Forall_forall. by intros.
Qed.

Lemma flip_first_alt w :
  flip_first w ↔ ∀ j x, heap w !! j = Some x → starts_with_flip (i_onReady x).
Proof.
  unfold flip_first. rewrite Forall_fmap, Forall_lookup. done.
Qed.

Lemma flip_first_alter g i w :
  (∀ x, starts_with_flip (i_onReady x) → starts_with_flip (i_onReady (g x))) →
  flip_first w → flip_first (upd_heap (alter g i) w).
Proof.
  intros Hg. rewrite !flip_first_alt. intros Hf j x. simpl.
  destruct (decide (i = j)) as [->|Hne].
  - rewrite list_lookup_alter_eq. destruct (heap w !! j) as [y|] eqn:Hy; [|done].
    intros [= <-]. by eapply Hg, Hf.
  - rewrite list_lookup_alter_ne by done. apply Hf.
Qed.

Lemma ready_ok_push i c w : ready_ok w → ready_ok (pushOnReady i c w).
Proof.
  intros [Hf Ht]. split; [|done]. apply flip_first_alter; [|done].
  intros x [l ->]. simpl. by eexists.
Qed.

Lemma ready_ok_finish d i p rc w w' :
  (∀ j x, j ≠ i → heap w !! j = Some x → starts_with_flip (i_onReady x)) →
  truthful w →
  finish d i p rc w = Normal w' → ready_ok w'.
Proof.
  intros Hothers Ht. unfold finish.
  set (w1 := log _ w). set (w2 := unshiftOnReady i FlipReady w1).
  set (w3 := match rc with Some c => _ | None => _ end). intros H.
  assert (ready_ok w2) as H2.
  { split.
    - apply flip_first_alt. intros j x. unfold w2, unshiftOnReady, w1. simpl.
      destruct (decide (i = j)) as [->|Hne].
      + rewrite list_lookup_alter_eq. destruct (heap w !! j); [|done].
        intros [= <-]. simpl. by eexists.
      + rewrite list_lookup_alter_ne by done. by apply Hothers.
    - unfold w2, unshiftOnReady. change (truthful w1). unfold w1.
      apply truthful_log; [|done]. apply Forall_fmap, Forall_forall. by intros. }
  assert (ready_ok w3) as H3.
  { unfold w3. destruct rc; [by apply ready_ok_push|done]. }
  destruct (_ && _).
  - injection H as <-. destruct H3 as [Hf3 Ht3]. split; [|done].
    apply flip_first_alter; [|done]. by intros x.
  - by eapply ready_ok_done.
Qed.

Lemma ready_ok_create d k static rc w w' i :
  ready_ok w → create d k static rc w = Normal (w', i) → ready_ok w'.
Proof.
  intros Hok. unfold create.
  set (w0 := install_thunk d w).
  destruct (providers w0 !! d) as [p|]; [|done].
  destruct (forEach (wait p)) as [fs|]; simpl; [|done].
  set (w1 := log _ w0). set (w2 := allocate d k static p w1).
  destruct (for_each (wire_subscriber d _) _ w2) as [w3|] eqn:H3; simpl; [|done].
  destruct (for_each (wire_subscribeTo d _) _ w3) as [w4|] eqn:H4; simpl; [|done].
  destruct (finish d _ p rc w4) as [w5|] eqn:H5; simpl; [|done].
  intros [= <- <-].
  assert (ready_ok w1) as [Hf1 Ht1].
  { eapply ready_ok_tame; [|exact Hok].
    eapply tame_trans; [apply tame_install_thunk|].
    apply tame_log. by apply Forall_plain_fmap. }
  assert (tame w2 w4) as (_ & Hr & es & Hes & Hq).
  { apply (tame_trans _ w3); [eapply tame_for_each, H3; apply tame_wire_subscriber|].
    eapply tame_for_each, H4; apply tame_wire_subscribeTo. }
  eapply ready_ok_finish; [| |exact H5].
  - intros j x Hne Hx.
    assert ((i_onReady <$> heap w4) !! j = Some (i_onReady x)) as Hj
      by by rewrite list_lookup_fmap, Hx.
    rewrite (readiness_queues _ _ Hr) in Hj. unfold w2 in Hj.
    rewrite allocate_heap, fmap_app in Hj.
    change (length (heap w0)) with (length (heap w1)) in Hne.
    destruct (decide (j < length (heap w1))) as [Hlt|Hge].
    + rewrite lookup_app_l in Hj by by rewrite length_fmap.
      eapply Forall_lookup_1; [exact Hf1|exact Hj].
    + apply lookup_lt_Some in Hj. rewrite length_app, length_fmap in Hj. simpl in Hj.
      change (heap w0) with (heap w1) in Hj. lia.
  - unfold truthful. rewrite Hes. apply Forall_app. split; [|by apply plain_honest].
    unfold w2. rewrite allocate_trace. apply Forall_app. split; [done|by repeat constructor].
Qed.

Lemma ready_ok_relevant f w : ready_ok w → ready_ok (upd_relevant f w).
Proof. done. Qed.

Lemma ready_ok_joins f w : ready_ok w → ready_ok (upd_joins f w).
Proof. done. Qed.

Lemma instance_ready_lookup w i :
  instance_ready w i = true → ∃ x, heap w !! i = Some x ∧ ready x = true.
Proof. unfold instance_ready. destruct (heap w !! i) as [x|]; [|done]. by exists x. Qed.

Lemma ready_ok_instantiate w fi d a w' i :
  ready_ok w → instantiateProvider w fi d a = Normal (w', i) → ready_ok w'.
Proof.
  intros Hok. unfold instantiateProvider.
  destruct (providers w !! d) as [p|]; [|done].
  destruct (resolve d a) as [[k static] rc].
  set (w1 := match fi with Consumer => _ | Fresh => _ end).
  assert (ready_ok w1) as Hok1 by (subst w1; by destruct fi).
  destruct (lookup_instance w p k) as [j|].
  - destruct rc as [c|]; [|by intros [= <- <-]].
    destruct (instance_ready w1 j) eqn:Hj.
    + destruct Hok1 as [Hf1 Ht1].
      destruct (run_ready_cb_ready j (Caller c) w1 Hj Ht1) as (_ & Ht & Hq).
      intros [= <- <-].
      split; [|done]. unfold flip_first. simpl in Hq. by rewrite Hq.
    + intros [= <- <-]. by apply ready_ok_push.
  - by apply ready_ok_create.
Qed.

Lemma ready_ok_gather_loop j entries : ∀ index w w',
  ready_ok w → gather_loop j index entries w = Normal w' → ready_ok w'.
Proof.
  induction entries as [|[|d] entries IH]; intros index w w' Hok; simpl; [|done|].
  - by intros [= <-].
  - destruct (instantiateProvider _ Fresh d _) as [[w1 i]|] eqn:Hcall; simpl; [|done].
    apply ready_ok_instantiate in Hcall; [|by apply ready_ok_joins].
    by apply IH.
Qed.

Lemma ready_ok_join_clear j w : ready_ok w → ready_ok (join_clear j w).
Proof.
  intros [Hf Ht]. split; [|by apply truthful_join_clear].
  unfold flip_first. by rewrite queues_join_clear.
Qed.

Lemma ready_ok_perform o w w' :
  ready_ok w → perform o w = Normal w' → ready_ok w'.
Proof.
  intros Hok. destruct o as [fi d a|result callback|i|i]; simpl.
  - destruct (instantiateProvider w fi d a) as [[w1 i]|] eqn:Hcall; simpl; [|done].
    intros [= <-]. by eapply ready_ok_instantiate.
  - gather_cases result Hns. case_bool_decide.
    + simpl. intros [= <-]. by apply ready_ok_join_clear.
    + destruct (gather_loop _ _ _ _) as [w1|] eqn:Hloop; simpl; [|done].
      intros [= <-]. eapply ready_ok_gather_loop; [|exact Hloop]. done.
  - unfold store_ready. destruct (heap w !! i) as [x|]; [|by intros [= <-]].
    destruct (awaiting x); [|by intros [= <-]].
    apply ready_ok_done. destruct Hok as [Hf Ht]. split; [|done].
    apply flip_first_alter; [|done]. by intros y.
  - intros [= <-]. destruct Hok as [Hf Ht]. split; [done|].
    apply truthful_log; [|done]. unfold listener_calls.
    destruct (heap w !! i) as [x|]; [|done].
    apply Forall_forall. intros e [l [_ He]]%list_elem_of_In%in_flat_map.
    apply list_elem_of_In, list_elem_of_fmap in He as (b & -> & _). done.
Qed.

Lemma ready_ok_initial w : initial w → ready_ok w.
Proof.
  intros (_ & _ & _ & Hh & _ & Ht). split.
  - unfold flip_first. by rewrite Hh.
  - unfold truthful. by rewrite Ht.
Qed.







(** *** Property lists *)

Lemma keys_cons {A} k (v : A) ps : keys ((k, v) :: ps) = k :: keys ps.
Proof. done. Qed.

Lemma get_prop_None {A} k (ps : list (string * A)) :
  get_prop k ps = None ↔ k ∉ keys ps.
Proof.
  induction ps as [|[k' v] ps IH].
  - split; [|done]. by intros _ ?%elem_of_nil.
  - rewrite keys_cons. simpl. rewrite not_elem_of_cons. destruct (String.eqb_spec k k') as [->|Hne].
    + split; [done|]. by intros [? _].
    + rewrite IH. naive_solver.
Qed.

Lemma get_prop_elem {A} k (v : A) ps :
  NoDup (keys ps) → (k, v) ∈ ps → get_prop k ps = Some v.
Proof.
  induction ps as [|[k' v'] ps IH]; intros Hnd Hin.
  - by apply elem_of_nil in Hin.
  - rewrite keys_cons in Hnd. simpl. apply NoDup_cons in Hnd as [Hk' Hnd].
    apply elem_of_cons in Hin as [[= -> ->]|Hin].
    + by rewrite String.eqb_refl.
    + destruct (String.eqb_spec k k') as [->|Hne]; [|by apply IH].
      exfalso. apply Hk'. apply list_elem_of_fmap. by exists (k', v).
Qed.

Lemma listeners_for_app k ls ls' :
  listeners_for k (ls ++ ls') = listeners_for k ls + listeners_for k ls'.
Proof. unfold listeners_for. by rewrite filter_app, length_app. Qed.

Lemma listeners_for_cons k h k' ls :
  listeners_for k ((h, k') :: ls)
  = (if bool_decide (k' = k) then 1 else 0) + listeners_for k ls.
Proof.
  unfold listeners_for. rewrite filter_cons. simpl.
  case_bool_decide; [by rewrite decide_True|by rewrite decide_False].
Qed.

Lemma listeners_for_one k h k' :
  listeners_for k [(h, k')] = if bool_decide (k' = k) then 1 else 0.
Proof. rewrite listeners_for_cons. unfold listeners_for. simpl. lia. Qed.

Lemma listeners_for_swap k (subs : list (string * nat)) :
  NoDup (keys subs) →
  listeners_for k ((λ kh, (kh.2, kh.1)) <$> subs)
  = if bool_decide (k ∈ keys subs) then 1 else 0.
Proof.
  induction subs as [|[k' h] subs IH]; intros Hnd.
  - rewrite bool_decide_eq_false_2; [done|]. by intros ?%elem_of_nil.
  - rewrite keys_cons in *. apply NoDup_cons in Hnd as [Hk' Hnd].
    rewrite fmap_cons. cbn [fst snd]. rewrite listeners_for_cons, (IH Hnd).
    destruct (decide (k' = k)) as [->|Hne].
    + rewrite bool_decide_eq_true_2 by done.
      rewrite (bool_decide_eq_false_2 (k ∈ keys subs)) by done.
      rewrite bool_decide_eq_true_2; [done|]. apply list_elem_of_here.
    + rewrite (bool_decide_eq_false_2 (k' = k)) by done. simpl.
      repeat case_bool_decide; try done.
      * exfalso. set_solver.
      * exfalso. set_solver.
Qed.

Lemma view_lookup {A B} (f : A → B) (l l' : list A) i x' :
  f <$> l' = f <$> l → l' !! i = Some x' → ∃ x, l !! i = Some x ∧ f x = f x'.
Proof.
  intros Hv Hx'.
  assert ((f <$> l) !! i = Some (f x')) as H by by rewrite <- Hv, list_lookup_fmap, Hx'.
  rewrite list_lookup_fmap in H. destruct (l !! i) as [x|]; [|done].
  exists x. split; [done|]. by injection H.
Qed.

(** *** Changes that leave the subscription graph alone *)

Lemma same_wiring_refl w : same_wiring w w.
Proof. done. Qed.

Lemma same_wiring_trans w1 w2 w3 :
  same_wiring w1 w2 → same_wiring w2 w3 → same_wiring w1 w3.
Proof.
  intros (Hs1 & Hi1 & Hh1) (Hs2 & Hi2 & Hh2). split_and!.
  - intros d. by rewrite Hs2.
  - intros d. by rewrite Hi2.
  - congruence.
Qed.

Lemma wired_same_wiring w w' : same_wiring w w' → wired w → wired w'.
Proof.
  intros (Hs & Hi & Hh) (W1 & W2 & W3 & W4 & W5). split_and!.
  - intros d. by rewrite Hs.
  - intros d. by rewrite Hi.
  - intros d i. rewrite Hi, W3. split.
    + intros (x & Hx & Hp).
      destruct (view_lookup wiring (heap w') (heap w) i x) as (x' & Hx' & Hw); [done..|].
      exists x'. split; [done|]. injection Hw as Hw _. congruence.
    + intros (x' & Hx' & Hp).
      destruct (view_lookup wiring (heap w) (heap w') i x' Hh Hx') as (x & Hx & Hw).
      exists x. split; [done|]. injection Hw as Hw _. congruence.
  - intros i x' k Hx'.
    destruct (view_lookup wiring (heap w) (heap w') i x' Hh Hx') as (x & Hx & Hw).
    injection Hw as Hw1 Hw2. rewrite Hs, <- Hw1, <- Hw2. by eapply W4.
  - intros i x' l Hx' Hl.
    destruct (view_lookup wiring (heap w) (heap w') i x' Hh Hx') as (x & Hx & Hw).
    injection Hw as Hw1 Hw2. rewrite Hs, <- Hw1. eapply W5; [done|]. by rewrite Hw2.
Qed.

Lemma same_wiring_keeps w w' : same_wiring w w' → keeps_subscribers w w'.
Proof. intros (Hs & _) d k h. by rewrite Hs. Qed.

Lemma keeps_refl w : keeps_subscribers w w.
Proof. by intros d k h. Qed.

Lemma keeps_trans w1 w2 w3 :
  keeps_subscribers w1 w2 → keeps_subscribers w2 w3 → keeps_subscribers w1 w3.
Proof. intros H1 H2 d k h Hk. by apply H2, H1. Qed.

Lemma same_wiring_log es w : same_wiring w (log es w).
Proof. done. Qed.

Lemma same_wiring_joins f w : same_wiring w (upd_joins f w).
Proof. done. Qed.

Lemma same_wiring_relevant f w : same_wiring w (upd_relevant f w).
Proof. done. Qed.

Lemma same_wiring_heap_alter g i w :
  (∀ x, wiring (g x) = wiring x) → same_wiring w (upd_heap (alter g i) w).
Proof. intros Hg. split_and!; [done..|]. simpl. by apply list_fmap_alter_same. Qed.

Lemma subscribers_of_alter g key w d :
  (∀ p, subscribers (g p) = subscribers p) →
  subscribers_of (upd_providers (alter g key) w) d = subscribers_of w d.
Proof.
  intros Hg. unfold subscribers_of. simpl.
  destruct (decide (key = d)) as [->|Hne].
  - rewrite lookup_alter_eq. destruct (providers w !! d); simpl; [by rewrite Hg|done].
  - by rewrite lookup_alter_ne.
Qed.

Lemma instances_of_alter g key w d :
  (∀ p, instances (g p) = instances p) →
  instances_of (upd_providers (alter g key) w) d = instances_of w d.
Proof.
  intros Hg. unfold instances_of. simpl.
  destruct (decide (key = d)) as [->|Hne].
  - rewrite lookup_alter_eq. destruct (providers w !! d); simpl; [by rewrite Hg|done].
  - by rewrite lookup_alter_ne.
Qed.

Lemma same_wiring_providers_alter g key w :
  (∀ p, subscribers (g p) = subscribers p) →
  (∀ p, instances (g p) = instances p) →
  same_wiring w (upd_providers (alter g key) w).
Proof.
  intros Hs Hi. split_and!; [| |done].
  - intros d. by apply subscribers_of_alter.
  - intros d. by apply instances_of_alter.
Qed.

Lemma same_wiring_join_clear j w : same_wiring w (join_clear j w).
Proof. unfold join_clear. destruct (joins w !! j); [|done]. by case_match. Qed.

Lemma same_wiring_run_ready_cb i c w : same_wiring w (run_ready_cb i c w).
Proof.
  destruct c as [|[f|j idx]]; simpl.
  - by apply same_wiring_heap_alter.
  - done.
  - eapply same_wiring_trans; [apply same_wiring_joins|apply same_wiring_join_clear].
Qed.

Lemma same_wiring_fold {A} (f : world → A → world) xs w :
  (∀ w x, same_wiring w (f w x)) → same_wiring w (fold_left f xs w).
Proof.
  intros Hf. revert w. induction xs as [|x xs IH]; intros w; simpl; [done|].
  eapply same_wiring_trans; [apply Hf|apply IH].
Qed.

Lemma same_wiring_done d i w w' : done d i w = Normal w' → same_wiring w w'.
Proof.
  unfold done. intros H.
  set (w1 := fold_left _ _ w) in H.
  destruct (forEach _) as [fs|e]; simpl in H; [|done].
  injection H as <-.
  eapply same_wiring_trans; [|apply same_wiring_log].
  apply (same_wiring_fold (λ w c, run_ready_cb i c w)). intros. apply same_wiring_run_ready_cb.
Qed.

Lemma same_wiring_finish d i p rc w w' : finish d i p rc w = Normal w' → same_wiring w w'.
Proof.
  unfold finish.
  set (w1 := log _ w). set (w2 := unshiftOnReady i FlipReady w1).
  set (w3 := match rc with Some c => _ | None => _ end). intros H.
  assert (same_wiring w w3) as Hc.
  { apply (same_wiring_trans _ w1); [apply same_wiring_log|].
    apply (same_wiring_trans _ w2); [by apply same_wiring_heap_alter|].
    subst w3. destruct rc; [by apply same_wiring_heap_alter|done]. }
  destruct (_ && _).
  - injection H as <-. eapply same_wiring_trans; [done|]. by apply same_wiring_heap_alter.
  - apply same_wiring_done in H. by eapply same_wiring_trans.
Qed.

Lemma same_wiring_install_thunk d w : same_wiring w (install_thunk d w).
Proof.
  unfold install_thunk. destruct (providers w !! d) as [p|] eqn:Hp; [|done].
  destruct (hasThunk p); [done|].
  eapply same_wiring_trans; [|apply same_wiring_log].
  split_and!; [| |done].
  - intros d'. unfold subscribers_of. simpl.
    destruct (decide (d = d')) as [->|Hne].
    + by rewrite lookup_insert_eq, Hp.
    + by rewrite lookup_insert_ne.
  - intros d'. unfold instances_of. simpl.
    destruct (decide (d = d')) as [->|Hne].
    + by rewrite lookup_insert_eq, Hp.
    + by rewrite lookup_insert_ne.
Qed.

(** *** Allocation and the two wiring loops *)

Lemma allocate_providers d k static p w :
  providers (allocate d k static p w)
  = alter (λ p, set_instances (Some (default [] (instances p) ++ [length (heap w)])) p) d
      (providers w).
Proof.
  unfold allocate, register. simpl.
  by destruct (match providers w !! d with Some _ => _ | None => _ end).
Qed.

Lemma allocate_subscribers d k static p w d' :
  subscribers_of (allocate d k static p w) d' = subscribers_of w d'.
Proof.
  unfold subscribers_of. rewrite allocate_providers.
  destruct (decide (d = d')) as [->|Hne].
  - rewrite lookup_alter_eq. by destruct (providers w !! d').
  - by rewrite lookup_alter_ne.
Qed.

Lemma allocate_instances d k static p w d' p0 :
  providers w !! d = Some p0 →
  instances_of (allocate d k static p w) d'
  = instances_of w d' ++ (if decide (d = d') then [length (heap w)] else []).
Proof.
  intros Hp. unfold instances_of. rewrite allocate_providers.
  destruct (decide (d = d')) as [<-|Hne].
  - rewrite lookup_alter_eq, Hp. simpl. done.
  - rewrite lookup_alter_ne by done. by rewrite app_nil_r.
Qed.

Lemma wire_subscriber_view d i key handler w w' :
  wire_subscriber d i (key, handler) w = Normal w' →
  (∀ d', subscribers_of w' d' = subscribers_of w d')
  ∧ (∀ d', instances_of w' d' = instances_of w d')
  ∧ heap w' = alter (λ x, set_listeners (listeners x ++ [(handler, key)]) x) i (heap w).
Proof.
  unfold wire_subscriber. destruct (providers w !! key) as [sub|]; [|done].
  intros [= <-]. split_and!; [| |done].
  - intros d'. simpl. by apply (subscribers_of_alter _ key w d').
  - intros d'. simpl. by apply (instances_of_alter _ key w d').
Qed.

Lemma wire_subscribers_view d i subs : ∀ w w',
  for_each (wire_subscriber d i) subs w = Normal w' →
  (∀ d', subscribers_of w' d' = subscribers_of w d')
  ∧ (∀ d', instances_of w' d' = instances_of w d')
  ∧ heap w'
    = alter (λ x, set_listeners (listeners x ++ ((λ kh, (kh.2, kh.1)) <$> subs)) x) i (heap w).
Proof.
  induction subs as [|[key handler] subs IH]; intros w w'; cbn [for_each].
  - intros [= <-]. split_and!; [done..|].
    apply list_eq. intros j. destruct (decide (i = j)) as [->|Hne].
    + rewrite list_lookup_alter_eq. destruct (heap w !! j) as [[]|]; simpl; [|done].
      unfold set_listeners. simpl. by rewrite app_nil_r.
    + by rewrite list_lookup_alter_ne.
  - destruct (wire_subscriber d i (key, handler) w) as [w1|] eqn:H1; cbn [bind]; [|done].
    intros H2. apply wire_subscriber_view in H1 as (Hs1 & Hi1 & Hh1).
    apply IH in H2 as (Hs2 & Hi2 & Hh2). split_and!.
    + intros d'. by rewrite Hs2.
    + intros d'. by rewrite Hi2.
    + rewrite Hh2, Hh1, list_alter_alter_eq. apply list_alter_ext; [|done].
      intros x _. unfold set_listeners. simpl. by rewrite <- app_assoc.
Qed.

(** Subscribing each of a duplicate-free list of instances. *)
Lemma fold_subscribe_heap l (ss : list nat) : ∀ w,
  NoDup ss →
  providers (fold_left (λ w s, subscribe s l w) ss w) = providers w
  ∧ ∀ j, heap (fold_left (λ w s, subscribe s l w) ss w) !! j
         = if bool_decide (j ∈ ss)
           then (λ x, set_listeners (listeners x ++ [l]) x) <$> heap w !! j
           else heap w !! j.
Proof.
  induction ss as [|s ss IH]; intros w Hnd; cbn [fold_left].
  - split; [done|]. intros j. rewrite bool_decide_eq_false_2; [done|]. by intros ?%elem_of_nil.
  - apply NoDup_cons in Hnd as [Hs Hnd].
    destruct (IH (subscribe s l w) Hnd) as [Hp Hh]. split; [by rewrite Hp|].
    intros j. rewrite Hh.
    replace (heap (subscribe s l w))
      with (alter (λ x, set_listeners (listeners x ++ [l]) x) s (heap w)) by done.
    destruct (decide (j = s)) as [->|Hne].
    + rewrite (bool_decide_eq_false_2 (s ∈ ss)) by done.
      rewrite bool_decide_eq_true_2 by apply list_elem_of_here.
      by rewrite list_lookup_alter_eq.
    + rewrite list_lookup_alter_ne by done.
      repeat case_bool_decide; try done; exfalso; set_solver.
Qed.

Lemma subscribers_of_set key subs w d' p :
  providers w !! key = Some p →
  subscribers_of (upd_providers (alter (set_subscribers (Some subs)) key) w) d'
  = if decide (key = d') then subs else subscribers_of w d'.
Proof.
  intros Hp. unfold subscribers_of. simpl. destruct (decide (key = d')) as [<-|Hne].
  - by rewrite lookup_alter_eq, Hp.
  - by rewrite lookup_alter_ne.
Qed.

(** The effect of one turn of the [subscribeTo] loop on the graph. *)
Lemma wire_subscribeTo_view d i key handler w w' :
  (∀ d', NoDup (instances_of w d')) →
  wire_subscribeTo d i (key, handler) w = Normal w' →
  match get_prop d (subscribers_of w key) with
  | Some _ => same_wiring w w'
  | None =>
      (∀ d', subscribers_of w' d'
             = if decide (key = d') then set_prop d handler (subscribers_of w key)
               else subscribers_of w d')
      ∧ (∀ d', instances_of w' d' = instances_of w d')
      ∧ ∀ j, heap w' !! j
             = if bool_decide (j ∈ instances_of w key)
               then (λ x, set_listeners (listeners x ++ [(handler, d)]) x) <$> heap w !! j
               else heap w !! j
  end.
Proof.
  intros W2. unfold wire_subscribeTo.
  destruct (providers w !! key) as [sup|] eqn:Hsup; [|done].
  assert (subscribers_of w key = default [] (subscribers sup)) as Hsubs
    by (unfold subscribers_of; by rewrite Hsup).
  rewrite Hsubs. destruct (get_prop d (default [] (subscribers sup))) eqn:Hget.
  - intros [= <-]. apply same_wiring_log.
  - set (w1 := upd_providers _ w).
    assert (instances_of w1 key = instances_of w key) as Hi1
      by by apply instances_of_alter.
    rewrite Hi1.
    destruct (fold_subscribe_heap (handler, d) (instances_of w key) w1 (W2 key)) as [Hp2 Hh2].
    set (w2 := fold_left _ _ w1) in *. intros [= <-]. split_and!.
    + intros d'. unfold subscribers_of at 1. cbn [providers log]. rewrite Hp2.
      change (subscribers_of w1 d' = if decide (key = d') then
        set_prop d handler (default [] (subscribers sup)) else subscribers_of w d').
      by apply (subscribers_of_set key _ w d' sup).
    + intros d'. unfold instances_of at 1. cbn [providers log]. rewrite Hp2.
      by apply (instances_of_alter _ key w d').
    + intros j. cbn [heap log]. by rewrite Hh2.
Qed.

Lemma keys_set_prop_fresh {A} k (v : A) ps :
  get_prop k ps = None → keys (set_prop k v ps) = keys ps ++ [k].
Proof.
  intros Hk%get_prop_None. rewrite set_prop_fresh by done.
  unfold keys. by rewrite map_app.
Qed.

Lemma wired_wire_subscribeTo d i kh w w' :
  wired w → wire_subscribeTo d i kh w = Normal w' →
  wired w' ∧ keeps_subscribers w w'.
Proof.
  destruct kh as [key handler]. intros Hw Hcall.
  pose proof Hw as (W1 & W2 & W3 & W4 & W5).
  apply wire_subscribeTo_view in Hcall; [|done].
  destruct (get_prop d (subscribers_of w key)) as [h0|] eqn:Hget.
  { split; [by eapply wired_same_wiring|by apply same_wiring_keeps]. }
  destruct Hcall as (Hs & Hi & Hh).
  pose proof (keys_set_prop_fresh d handler _ Hget) as Hkeys.
  assert (∀ j x', heap w' !! j = Some x' →
            ∃ x, heap w !! j = Some x ∧ proto x' = proto x
                 ∧ ((proto x = key ∧ listeners x' = listeners x ++ [(handler, d)])
                    ∨ (proto x ≠ key ∧ listeners x' = listeners x))) as Hcases.
  { intros j x'. rewrite Hh. case_bool_decide as Hj.
    - destruct (heap w !! j) as [x|] eqn:Hx; [|done]. intros [= <-].
      exists x. split_and!; [done..|]. left. split; [|done].
      apply W3 in Hj as (y & Hy & Hpy). congruence.
    - intros Hx. exists x'. split_and!; [done..|]. right. split; [|done].
      intros Hp. apply Hj, W3. by exists x'. }
  split.
  - split_and!.
    + intros d'. rewrite Hs. case_decide; [|done]. by apply set_prop_NoDup.
    + intros d'. by rewrite Hi.
    + intros d' j. rewrite Hi, W3. split.
      * intros (x & Hx & Hp). rewrite Hh, Hx. case_bool_decide; eexists; split; done.
      * intros (x' & Hx' & Hp).
        destruct (Hcases j x' Hx') as (x & Hx & Hpx & _). exists x. split; congruence.
    + intros j x' k Hx'.
      destruct (Hcases j x' Hx') as (x & Hx & -> & [[Hp ->]|[Hp ->]]).
      * rewrite listeners_for_app, listeners_for_one, (W4 j x k Hx), Hs, Hp.
        rewrite decide_True by done. rewrite Hkeys.
        destruct (decide (d = k)) as [->|Hne].
        -- rewrite (bool_decide_eq_false_2 (k ∈ keys _)) by by apply get_prop_None.
           rewrite bool_decide_eq_true_2 by done.
           rewrite bool_decide_eq_true_2; [done|]. apply elem_of_app. right. apply list_elem_of_here.
        -- rewrite (bool_decide_eq_false_2 (d = k)) by done. rewrite Nat.add_0_r.
           repeat case_bool_decide; try done; exfalso; set_solver.
      * rewrite (W4 j x k Hx), Hs. by rewrite decide_False.
    + intros j x' l Hx' Hl.
      destruct (Hcases j x' Hx') as (x & Hx & -> & [[Hp Hls]|[Hp Hls]]); rewrite Hls in Hl.
      * rewrite Hs, Hp, decide_True by done. rewrite get_set_prop.
        apply elem_of_app in Hl as [Hl|Hl%list_elem_of_singleton].
        -- pose proof (W5 j x l Hx Hl) as Hold. rewrite Hp in Hold.
           destruct (String.eqb_spec l.2 d) as [Heq|Hne]; [|done].
           rewrite Heq in Hold. congruence.
        -- subst l. simpl. by rewrite String.eqb_refl.
      * rewrite Hs, decide_False by done. by apply (W5 j x l Hx).
  - intros d' k h Hk. rewrite Hs. case_decide as Hd; [|done]. subst d'.
    rewrite get_set_prop. destruct (String.eqb_spec k d) as [->|Hne]; [congruence|done].
Qed.

Lemma wired_heap_bound w d i : wired w → i ∈ instances_of w d → i < length (heap w).
Proof.
  intros (_ & _ & W3 & _) Hi. apply W3 in Hi as (x & Hx & _). by eapply lookup_lt_Some.
Qed.

Lemma wired_allocate_wire d k static p p0 w w' :
  wired w → providers w !! d = Some p0 →
  for_each (wire_subscriber d (length (heap w)))
    (subscribers_of (allocate d k static p w) d) (allocate d k static p w) = Normal w' →
  wired w' ∧ ∀ d', subscribers_of w' d' = subscribers_of w d'.
Proof.
  intros Hw Hp Hloop. pose proof Hw as (W1 & W2 & W3 & W4 & W5).
  apply wire_subscribers_view in Hloop as (Hs & Hi & Hh).
  rewrite allocate_subscribers in Hh.
  assert (∀ d', subscribers_of w' d' = subscribers_of w d') as Hs'.
  { intros d'. by rewrite Hs, allocate_subscribers. }
  assert (∀ d', instances_of w' d'
                = instances_of w d' ++ (if decide (d = d') then [length (heap w)] else []))
    as Hi'.
  { intros d'. rewrite Hi. by eapply allocate_instances. }
  rewrite allocate_heap in Hh.
  set (i := length (heap w)) in *. set (subs := subscribers_of w d) in *.
  set (x0 := Instance d k static false _ [] false) in Hh.
  assert (∀ j x, heap w !! j = Some x → heap w' !! j = Some x) as Hold.
  { intros j x Hx. rewrite Hh. rewrite list_lookup_alter_ne.
    - by apply lookup_app_l_Some.
    - apply lookup_lt_Some in Hx. unfold i. lia. }
  assert (∃ xi, heap w' !! i = Some xi ∧ proto xi = d
                ∧ listeners xi = (λ kh : string * nat, (kh.2, kh.1)) <$> subs) as Hnew.
  { exists (set_listeners (listeners x0 ++ ((λ kh : string * nat, (kh.2, kh.1)) <$> subs)) x0).
    split; [|done]. rewrite Hh, list_lookup_alter_eq.
    rewrite lookup_app_r by done. by rewrite Nat.sub_diag. }
  assert (∀ j x', heap w' !! j = Some x' →
            heap w !! j = Some x'
            ∨ (j = i ∧ proto x' = d
               ∧ listeners x' = (λ kh : string * nat, (kh.2, kh.1)) <$> subs)) as Hcases.
  { intros j x' Hx'. destruct (decide (j < i)) as [Hlt|Hge].
    - left. destruct (lookup_lt_is_Some_2 (heap w) j Hlt) as [x Hx].
      rewrite (Hold _ _ Hx) in Hx'. congruence.
    - right. destruct Hnew as (xi & Hxi & Hpi & Hli).
      assert (j = i) as ->.
      { apply lookup_lt_Some in Hx'. rewrite Hh, length_alter, length_app in Hx'.
        simpl in Hx'. unfold i in *. lia. }
      split; [done|]. rewrite Hxi in Hx'. by injection Hx' as <-. }
  split; [|done]. split_and!.
  - intros d'. by rewrite Hs'.
  - intros d'. rewrite Hi'. case_decide as Hd; [|by rewrite app_nil_r].
    apply NoDup_app. split_and!; [done| |apply NoDup_singleton].
    intros j Hj Hj'%list_elem_of_singleton. subst j.
    pose proof (wired_heap_bound _ _ _ Hw Hj). unfold i in *. lia.
  - intros d' j. rewrite Hi'. split.
    + intros [Hj|Hj]%elem_of_app.
      * apply W3 in Hj as (x & Hx & Hpx). exists x. split; [by apply Hold|done].
      * case_decide as Hd; [|by apply elem_of_nil in Hj].
        apply list_elem_of_singleton in Hj. subst j d'.
        destruct Hnew as (xi & Hxi & Hpi & _). by exists xi.
    + intros (x' & Hx' & Hpx').
      destruct (Hcases j x' Hx') as [Hx|(-> & Hpi & _)].
      * apply elem_of_app. left. apply W3. by exists x'.
      * apply elem_of_app. right. rewrite decide_True by congruence.
        apply list_elem_of_here.
  - intros j x' k' Hx'. rewrite Hs'.
    destruct (Hcases j x' Hx') as [Hx|(-> & -> & ->)]; [by eapply W4|].
    by apply listeners_for_swap.
  - intros j x' l Hx' Hl. rewrite Hs'.
    destruct (Hcases j x' Hx') as [Hx|(-> & Hpi & Hli)]; [by eapply W5|].
    rewrite Hpi. rewrite Hli in Hl. apply list_elem_of_fmap in Hl as ([k' h'] & -> & Hin).
    simpl. by apply get_prop_elem.
Qed.

Lemma wired_for_each_subscribeTo d i tos : ∀ w w',
  wired w → for_each (wire_subscribeTo d i) tos w = Normal w' →
  wired w' ∧ keeps_subscribers w w'.
Proof.
  induction tos as [|kh tos IH]; intros w w' Hw; cbn [for_each].
  - intros [= <-]. split; [done|apply keeps_refl].
  - destruct (wire_subscribeTo d i kh w) as [w1|] eqn:H1; cbn [bind]; [|done].
    intros H2. apply wired_wire_subscribeTo in H1 as [Hw1 Hk1]; [|done].
    apply IH in H2 as [Hw2 Hk2]; [|done]. split; [done|by eapply keeps_trans].
Qed.

Lemma wired_create d k static rc w w' i :
  wired w → create d k static rc w = Normal (w', i) →
  wired w' ∧ keeps_subscribers w w'.
Proof.
  intros Hw. unfold create.
  pose proof (same_wiring_install_thunk d w) as Hsw0.
  set (w0 := install_thunk d w) in *.
  destruct (providers w0 !! d) as [p|] eqn:Hp; [|done].
  destruct (forEach (wait p)) as [fs|]; cbn [bind]; [|done].
  set (w1 := log _ w0).
  assert (same_wiring w w1) as Hsw1.
  { eapply same_wiring_trans; [exact Hsw0|apply same_wiring_log]. }
  assert (wired w1) as Hw1 by by eapply wired_same_wiring.
  change (length (heap w0)) with (length (heap w1)).
  destruct (for_each (wire_subscriber d _) _ _) as [w3|] eqn:H3; cbn [bind]; [|done].
  apply (wired_allocate_wire d k static p p w1) in H3 as [Hw3 Hs3]; [|done|done].
  destruct (for_each (wire_subscribeTo d _) _ w3) as [w4|] eqn:H4; cbn [bind]; [|done].
  apply wired_for_each_subscribeTo in H4 as [Hw4 Hk4]; [|done].
  destruct (finish d _ p rc w4) as [w5|] eqn:H5; cbn [bind]; [|done].
  intros [= <- <-]. apply same_wiring_finish in H5.
  split; [by eapply wired_same_wiring|].
  apply (keeps_trans _ w1); [by apply same_wiring_keeps|].
  apply (keeps_trans _ w3); [intros d' k' h; by rewrite Hs3|].
  apply (keeps_trans _ w4); [done|by apply same_wiring_keeps].
Qed.

Lemma wired_instantiate w fi d a w' i :
  wired w → instantiateProvider w fi d a = Normal (w', i) →
  wired w' ∧ keeps_subscribers w w'.
Proof.
  intros Hw. unfold instantiateProvider.
  destruct (providers w !! d) as [p|]; [|done].
  destruct (resolve d a) as [[k static] rc].
  set (w1 := match fi with Consumer => _ | Fresh => _ end).
  assert (same_wiring w w1) as Hsw1 by (subst w1; by destruct fi).
  assert (wired w1) as Hw1 by by eapply wired_same_wiring.
  destruct (lookup_instance w p k) as [j|].
  - assert (∀ w2, same_wiring w1 w2 → wired w2 ∧ keeps_subscribers w w2) as Hdone.
    { intros w2 Hsw. split; [by eapply wired_same_wiring|].
      apply same_wiring_keeps. by eapply same_wiring_trans. }
    destruct rc as [c|]; [|intros [= <- <-]; by apply Hdone].
    destruct (instance_ready w1 j); intros [= <- <-].
    + apply Hdone, (same_wiring_run_ready_cb j (Caller c) w1).
    + apply Hdone. by apply same_wiring_heap_alter.
  - intros Hc. apply wired_create in Hc as [Hw' Hk]; [|done].
    split; [done|]. eapply keeps_trans; [|exact Hk]. by apply same_wiring_keeps.
Qed.

Lemma wired_gather_loop j entries : ∀ index w w',
  wired w → gather_loop j index entries w = Normal w' →
  wired w' ∧ keeps_subscribers w w'.
Proof.
  induction entries as [|[|d] entries IH]; intros index w w' Hw; cbn [gather_loop]; [|done|].
  - intros [= <-]. split; [done|apply keeps_refl].
  - destruct (instantiateProvider _ Fresh d _) as [[w1 i]|] eqn:Hcall; cbn [bind]; [|done].
    apply wired_instantiate in Hcall as [Hw1 Hk1]; [|done].
    intros H2. apply IH in H2 as [Hw2 Hk2]; [|done]. split; [done|].
    eapply keeps_trans; [|exact Hk2]. exact Hk1.
Qed.

Lemma wired_perform o w w' :
  wired w → perform o w = Normal w' → wired w' ∧ keeps_subscribers w w'.
Proof.
  intros Hw. destruct o as [fi d a|result callback|i|i]; cbn [perform].
  - destruct (instantiateProvider w fi d a) as [[w1 i]|] eqn:Hcall; cbn [bind]; [|done].
    intros [= <-]. by eapply wired_instantiate.
  - gather_cases result Hns. case_bool_decide.
    + cbn [bind]. intros [= <-].
      assert (same_wiring w (join_clear (length (joins w))
        (upd_joins (alter (set_semaphore 1%Z) (length (joins w)))
           (upd_joins (λ js, js ++ [Join (Z.of_nat (length (entries_of result))) [] callback]) w))))
        as Hsw.
      { eapply same_wiring_trans; [|apply same_wiring_join_clear]. done. }
      split; [by eapply wired_same_wiring|by apply same_wiring_keeps].
    + destruct (gather_loop _ _ _ _) as [w1|] eqn:Hloop; cbn [bind]; [|done].
      intros [= <-]. apply wired_gather_loop in Hloop; [|done]. done.
  - unfold store_ready. destruct (heap w !! i) as [x|]; [|intros [= <-]; split; [done|apply keeps_refl]].
    destruct (awaiting x); [|intros [= <-]; split; [done|apply keeps_refl]].
    intros Hd. apply same_wiring_done in Hd.
    assert (same_wiring w w') as Hsw.
    { eapply same_wiring_trans; [|exact Hd]. by apply same_wiring_heap_alter. }
    split; [by eapply wired_same_wiring|by apply same_wiring_keeps].
  - intros [= <-].
    split; [by apply (wired_same_wiring w)|by apply same_wiring_keeps].
Qed.

Lemma initial_subscribers_of w d :
  initial w → NoDup (keys (subscribers_of w d)) ∧ instances_of w d = [].
Proof.
  intros (Hprov & _). unfold subscribers_of, instances_of.
  destruct (providers w !! d) as [p|] eqn:Hp; [|split; [apply NoDup_nil_2|done]].
  destruct (Hprov d p Hp) as (Hi & Hs & _). by rewrite Hi.
Qed.

Lemma wired_initial w : initial w → wired w.
Proof.
  intros Hinit. pose proof Hinit as (_ & _ & _ & Hh & _).
  split_and!.
  - intros d. by apply initial_subscribers_of.
  - intros d. destruct (initial_subscribers_of w d Hinit) as [_ ->]. apply NoDup_nil_2.
  - intros d i. destruct (initial_subscribers_of w d Hinit) as [_ ->]. rewrite Hh.
    split; [by intros ?%elem_of_nil|]. by intros (x & Hx & _).
  - intros i x k. by rewrite Hh.
  - intros i x l. by rewrite Hh.
Qed.

Lemma wired_reachable w0 w :
  initial w0 → reachable w0 w → wired w ∧ keeps_subscribers w0 w.
Proof.
  intros Hinit. induction 1 as [|w o w' _ [IHw IHk] _ Hstep].
  - split; [by apply wired_initial|apply keeps_refl].
  - apply wired_perform in Hstep as [Hw' Hk']; [|done].
    split; [done|by eapply keeps_trans].
Qed.

(** *** Calls made by a store change *)

Lemma count_nil f : count f [] = 0.
Proof. done. Qed.

Lemma count_pair_fmap s b h (l : list nat) :
  NoDup l →
  count (is_pair s b) (EHandler h s <$> l) = if bool_decide (b ∈ l) then 1 else 0.
Proof.
  induction l as [|c l IH]; intros Hnd.
  - rewrite bool_decide_eq_false_2; [done|]. by intros ?%elem_of_nil.
  - apply NoDup_cons in Hnd as [Hc Hnd]. rewrite fmap_cons, count_cons, (IH Hnd).
    cbn [is_pair]. rewrite Nat.eqb_refl. cbn [andb].
    destruct (Nat.eqb_spec b c) as [->|Hne].
    + rewrite (bool_decide_eq_false_2 (c ∈ l)) by done.
      rewrite bool_decide_eq_true_2; [done|]. apply list_elem_of_here.
    + cbn. repeat case_bool_decide; try done; exfalso; set_solver.
Qed.

Lemma count_call_fmap s b h h' (l : list nat) :
  count (is_call h s b) (EHandler h' s <$> l)
  = if bool_decide (h = h') then count (is_pair s b) (EHandler h' s <$> l) else 0.
Proof.
  induction l as [|c l IH].
  - by case_bool_decide.
  - rewrite fmap_cons, !count_cons, IH. cbn [is_call is_pair].
    destruct (Nat.eqb_spec h h') as [->|Hne].
    + by rewrite bool_decide_eq_true_2.
    + by rewrite bool_decide_eq_false_2.
Qed.

(** With the graph wired once, a store change of [s] calls a handler
    once for every listener registered for the definition of [b]. *)
Lemma count_listener_calls w s b xb (ls : list (nat * string)) :
  wired w → heap w !! b = Some xb →
  count (is_pair s b)
    (flat_map (λ l : nat * string, EHandler l.1 s <$> instances_of w l.2) ls)
  = listeners_for (proto xb) ls.
Proof.
  intros (_ & W2 & W3 & _) Hb. induction ls as [|[h k] ls IH]; [done|].
  cbn [flat_map fst snd]. rewrite count_app, IH, listeners_for_cons.
  rewrite count_pair_fmap by done. f_equal.
  repeat case_bool_decide; try done; exfalso.
  - match goal with H : b ∈ _ |- _ => apply W3 in H as (x & Hx & Hp) end. congruence.
  - match goal with H : ¬ b ∈ _ |- _ => apply H, W3 end. by exists xb.
Qed.

Lemma count_listener_calls_handler w s b h (ls : list (nat * string)) k :
  (∀ l, l ∈ ls → l.2 = k → l.1 = h) →
  (∀ k', k' ≠ k → b ∉ instances_of w k') →
  (∀ k', NoDup (instances_of w k')) →
  count (is_call h s b)
    (flat_map (λ l : nat * string, EHandler l.1 s <$> instances_of w l.2) ls)
  = count (is_pair s b)
      (flat_map (λ l : nat * string, EHandler l.1 s <$> instances_of w l.2) ls).
Proof.
  intros Hh Hk W2. induction ls as [|[h' k'] ls IH]; [done|].
  cbn [flat_map fst snd]. rewrite !count_app, IH.
  2:{ intros l Hl. apply Hh. by apply list_elem_of_further. }
  f_equal. rewrite count_call_fmap. case_bool_decide as Hhh; [done|].
  rewrite count_pair_fmap by done. rewrite bool_decide_eq_false_2; [done|].
  destruct (decide (k' = k)) as [->|Hne]; [|by apply Hk].
  exfalso. apply Hhh. symmetry. apply (Hh (h', k)); [apply list_elem_of_here|done].
Qed.

(** C8: when one definition declares [subscribers] for another and the
    other declares [subscribeTo] for the first, every instance of the
    supplier has exactly one store listener for the subscriber, and a
    change of its store calls the handler exactly once for each instance
    of the subscriber. *)
Theorem idempotent_wiring w0 w sup sub h h' s b xs xb :
  initial w0 → reachable w0 w →
  get_prop sub (subscribers_of w0 sup) = Some h →
  get_prop sup (subscribeTo_of w0 sub) = Some h' →
  heap w !! s = Some xs → proto xs = sup →
  heap w !! b = Some xb → proto xb = sub →
  listeners_for sub (listeners xs) = 1
  ∧ count (is_pair s b) (listener_calls w s) = 1
  ∧ count (is_call h s b) (listener_calls w s) = 1.
Proof.
  intros Hinit Hreach Hsup _ Hs Hps Hb Hpb.
  destruct (wired_reachable _ _ Hinit Hreach) as [Hw Hkeep].
  pose proof Hw as (W1 & W2 & W3 & W4 & W5).
  apply Hkeep in Hsup.
  assert (listeners_for sub (listeners xs) = 1) as Hone.
  { rewrite (W4 s xs sub Hs), Hps. rewrite bool_decide_eq_true_2; [done|].
    destruct (decide (sub ∈ keys (subscribers_of w sup))) as [|Hn]; [done|].
    apply get_prop_None in Hn. congruence. }
  assert (count (is_pair s b) (listener_calls w s) = 1) as Hpair.
  { unfold listener_calls. rewrite Hs.
    rewrite (count_listener_calls w s b xb) by done. by rewrite Hpb. }
  split_and!; [done..|].
  rewrite <- Hpair. unfold listener_calls. rewrite Hs.
  apply (count_listener_calls_handler w s b h _ sub); [| |done].
  - intros l Hl Hl2. pose proof (W5 s xs l Hs Hl) as Hget.
    rewrite Hps, Hl2, Hsup in Hget. by injection Hget.
  - intros k' Hne Hin. apply W3 in Hin as (x & Hx & Hp). congruence.
Qed.

(** *** Counting what joins wait for *)

Lemma gathered_in_app j l l' : gathered_in j (l ++ l') = gathered_in j l + gathered_in j l'.
Proof. unfold gathered_in. by rewrite filter_app, length_app. Qed.

Lemma gathered_in_cons j c l :
  gathered_in j (c :: l) = (if is_gathered_cb j c then 1 else 0) + gathered_in j l.
Proof. unfold gathered_in. rewrite filter_cons. by destruct (is_gathered_cb j c). Qed.

Lemma gathered_in_users j (fs : list nat) : gathered_in j (Caller ∘ User <$> fs) = 0.
Proof. induction fs as [|f fs IH]; [done|]. by rewrite fmap_cons, gathered_in_cons, IH. Qed.

Lemma waiting_readiness w w' j :
  readiness <$> heap w' = readiness <$> heap w → waiting j w' = waiting j w.
Proof.
  intros Hr. unfold waiting.
  assert (∀ h : list instance,
            waits_for j <$> h
            = (λ r : bool * list ready_cb * bool, if r.1.1 then 0 else gathered_in j r.1.2)
                <$> (readiness <$> h)) as Hview.
  { intros h. rewrite <- list_fmap_compose. done. }
  by rewrite !Hview, Hr.
Qed.

Lemma waiting_app j w x :
  waiting j (upd_heap (λ h, h ++ [x]) w) = waiting j w + waits_for j x.
Proof. unfold waiting. simpl. rewrite fmap_app, sum_list_with_app. simpl. lia. Qed.

Lemma sum_waits_alter j g i (h : list instance) x :
  h !! i = Some x →
  sum_list (waits_for j <$> alter g i h) + waits_for j x
  = sum_list (waits_for j <$> h) + waits_for j (g x).
Proof.
  revert i. induction h as [|y h IH]; intros [|i] Hx; simplify_eq/=; [lia|].
  specialize (IH i Hx). lia.
Qed.

Lemma waiting_alter j g i w x :
  heap w !! i = Some x →
  waiting j (upd_heap (alter g i) w) + waits_for j x = waiting j w + waits_for j (g x).
Proof. intros Hx. unfold waiting. simpl. by apply sum_waits_alter. Qed.

Lemma gathered_log j es w : gathered j (log es w) = gathered j w + count (is_gathered j) es.
Proof. unfold gathered. simpl. by rewrite count_app. Qed.

Lemma count_plain_gathered j es :
  Forall (λ e, plain e = true) es → count (is_gathered j) es = 0.
Proof.
  induction 1 as [|e es He _ IH]; [done|]. rewrite count_cons, IH.
  by destruct e.
Qed.

Lemma minus_one_same j extra : minus_one j extra j = extra j - 1.
Proof. unfold minus_one. by rewrite decide_True. Qed.

Lemma minus_one_other j j' extra : j' ≠ j → minus_one j extra j' = extra j'.
Proof. intros. unfold minus_one. by rewrite decide_False. Qed.

(** *** Changes the invariant does not see *)

Lemma joined_ext extra extra' w :
  (∀ j, extra j = extra' j) → joined_with extra w → joined_with extra' w.
Proof.
  intros Hext (J1 & J2 & J3 & J4). split_and!; try done.
  - intros j. rewrite <- Hext. apply J1.
  - intros j jn. rewrite <- Hext. apply J2.
Qed.

(** The invariant reads the joins, the readiness of instances and the
    completions of joins in the trace. *)
Lemma joined_same extra w w' :
  joins w' = joins w →
  readiness <$> heap w' = readiness <$> heap w →
  (∀ j, gathered j w' = gathered j w) →
  joined_with extra w → joined_with extra w'.
Proof.
  intros Hj Hr Hg (J1 & J2 & J3 & J4).
  assert (∀ j, waiting j w' = waiting j w) as Hw by (intros j; by apply waiting_readiness).
  split_and!.
  - intros j. rewrite Hw, Hj. apply J1.
  - intros j jn. rewrite Hw, Hj, Hg. apply J2.
  - intros j. rewrite Hj, Hg. apply J3.
  - intros i x' Hx'.
    destruct (view_lookup readiness (heap w) (heap w') i x' Hr Hx') as (x & Hx & Hv).
    injection Hv as Hv1 Hv2 Hv3. rewrite <- Hv1, <- Hv3. by apply (J4 i x).
Qed.

Lemma joined_tame extra w w' : tame w w' → joined_with extra w → joined_with extra w'.
Proof.
  intros (Hj & Hr & es & Ht & Hq). apply joined_same; [done..|].
  intros j. unfold gathered. rewrite Ht, count_app, (count_plain_gathered j es Hq). lia.
Qed.

Lemma joined_slots extra f j w :
  (∀ jn, semaphore (f jn) = semaphore jn) →
  joined_with extra w → joined_with extra (upd_joins (alter f j) w).
Proof.
  intros Hf (J1 & J2 & J3 & J4). split_and!; try done.
  - intros j' Hpos. cbn [joins upd_joins]. destruct (J1 j' Hpos) as [jn Hjn].
    destruct (decide (j = j')) as [->|Hne].
    + rewrite list_lookup_alter_eq, Hjn. by eexists.
    + rewrite list_lookup_alter_ne by done. by eexists.
  - intros j' jn'. cbn [joins upd_joins]. destruct (decide (j = j')) as [->|Hne].
    + rewrite list_lookup_alter_eq. destruct (joins w !! j') as [jn|] eqn:Hjn; [|done].
      intros [= <-]. rewrite Hf. by apply J2.
    + rewrite list_lookup_alter_ne by done. apply J2.
  - intros j'. cbn [joins upd_joins]. rewrite length_alter. apply J3.
Qed.

(** *** Completions *)

Lemma count_gathered_one j j' f got :
  count (is_gathered j') [EGathered f j got] = if decide (j' = j) then 1 else 0.
Proof.
  rewrite count_cons. cbn [is_gathered]. change (count (is_gathered j') []) with 0.
  destruct (Nat.eqb_spec j' j); case_decide; try done; lia.
Qed.

(** One completion of join [j]. *)
Lemma join_clear_joined extra j w :
  joined_with extra w → 0 < extra j → joined_with (minus_one j extra) (join_clear j w).
Proof.
  intros Hjoined Hextra. pose proof Hjoined as (J1 & J2 & J3 & J4).
  destruct (J1 j) as [jn Hjn]; [lia|].
  destruct (J2 j jn Hjn) as [Hsem Hfired].
  unfold join_clear. rewrite Hjn.
  set (s := (semaphore jn - 1)%Z).
  set (w1 := upd_joins (alter (set_semaphore s) j) w).
  assert (∀ es,
            (∀ j', count (is_gathered j') es
                   = if decide (j' = j) then (if (s =? 0)%Z then 1 else 0) else 0) →
            joined_with (minus_one j extra) (log es w1)) as Hshape.
  { intros es Hes. split_and!.
    - intros j' Hpos. cbn [joins log w1 upd_joins]. destruct (decide (j' = j)) as [->|Hne].
      + rewrite list_lookup_alter_eq, Hjn. by eexists.
      + rewrite list_lookup_alter_ne by done. apply J1.
        by rewrite minus_one_other in Hpos.
    - intros j' jn'. cbn [joins log w1 upd_joins]. rewrite gathered_log, Hes.
      change (waiting j' (log es w1)) with (waiting j' w).
      change (gathered j' w1) with (gathered j' w).
      destruct (decide (j' = j)) as [->|Hne].
      + rewrite list_lookup_alter_eq, Hjn. intros [= <-]. cbn [semaphore set_semaphore].
        rewrite minus_one_same. split; [unfold s; lia|].
        rewrite Hfired. destruct (semaphore jn =? 0)%Z eqn:Hz; [lia|]. by destruct (s =? 0)%Z.
      + rewrite list_lookup_alter_ne by done. rewrite minus_one_other by done.
        rewrite Nat.add_0_r. apply J2.
    - intros j'. cbn [joins log w1 upd_joins]. rewrite length_alter, gathered_log, Hes.
      intros Hlen. assert (j < length (joins w)) by by eapply lookup_lt_Some.
      rewrite decide_False by lia. rewrite Nat.add_0_r. by apply J3.
    - done. }
  destruct (s =? 0)%Z eqn:Hz.
  - apply Hshape. intros j'. apply count_gathered_one.
  - assert (log [] w1 = w1) as <-.
    { destruct w. unfold w1, log, upd_joins. simpl. by rewrite app_nil_r. }
    apply Hshape. intros j'. by case_decide.
Qed.

Lemma instance_ready_joins f w i : instance_ready (upd_joins f w) i = instance_ready w i.
Proof. done. Qed.

Lemma instance_ready_join_clear j w i : instance_ready (join_clear j w) i = instance_ready w i.
Proof. unfold instance_ready. by rewrite queues_join_clear. Qed.

(** Calling an entry of the queue of an instance that is ready. *)
Lemma run_ready_cb_joined extra i c w :
  instance_ready w i = true →
  joined_with (λ j, extra j + if is_gathered_cb j c then 1 else 0) w →
  joined_with extra (run_ready_cb i c w)
  ∧ instance_ready (run_ready_cb i c w) i = true.
Proof.
  intros Hready Hjoined. destruct c as [|[f|j idx]]; cbn [run_ready_cb].
  - destruct (instance_ready_lookup w i Hready) as (x & Hx & Hrx).
    split; [|by apply instance_ready_alter_ready; eapply lookup_lt_Some].
    eapply joined_ext; [|eapply joined_same; [| | |exact Hjoined]].
    + intros j. cbn [is_gathered_cb]. lia.
    + done.
    + cbn [heap upd_heap]. apply list_eq. intros k. rewrite !list_lookup_fmap.
      destruct (decide (i = k)) as [->|Hne].
      * rewrite list_lookup_alter_eq, Hx. simpl. unfold readiness. simpl. by rewrite Hrx.
      * by rewrite list_lookup_alter_ne.
    + done.
  - split; [|done]. eapply joined_ext; [|eapply joined_tame; [|exact Hjoined]].
    + intros j. cbn [is_gathered_cb]. lia.
    + apply tame_log. rewrite Hready. by repeat constructor.
  - split; [|by rewrite instance_ready_join_clear, instance_ready_joins].
    eapply joined_ext; [|apply join_clear_joined; [apply joined_slots; [|exact Hjoined]|]].
    + intros j'. unfold minus_one. cbn [is_gathered_cb].
      destruct (Nat.eqb_spec j' j); case_decide; try done; lia.
    + done.
    + cbn [is_gathered_cb]. rewrite Nat.eqb_refl. lia.
Qed.

Lemma fold_run_ready_cb_joined i cbs : ∀ extra w,
  instance_ready w i = true →
  joined_with (λ j, extra j + gathered_in j cbs) w →
  joined_with extra (fold_left (λ w c, run_ready_cb i c w) cbs w).
Proof.
  induction cbs as [|c cbs IH]; intros extra w Hready Hjoined; cbn [fold_left].
  - eapply joined_ext; [|exact Hjoined]. intros j. unfold gathered_in. simpl. lia.
  - destruct (run_ready_cb_joined (λ j, extra j + gathered_in j cbs) i c w Hready)
      as [Hj1 Hr1].
    { eapply joined_ext; [|exact Hjoined]. intros j. cbn beta. rewrite gathered_in_cons. lia. }
    by apply IH.
Qed.

(** [done] for an instance that is not ready yet and whose queue starts
    with the flag setter. *)
Lemma done_joined extra d i w w' x l :
  joined_with extra w →
  heap w !! i = Some x → ready x = false → awaiting x = false →
  i_onReady x = FlipReady :: l →
  done d i w = Normal w' → joined_with extra w'.
Proof.
  intros Hjoined Hx Hrx Hax Hlist. unfold done. rewrite Hx, Hlist. cbn [fold_left run_ready_cb].
  set (w1 := upd_heap (alter (set_ready true) i) w).
  assert (instance_ready w1 i = true) as Hready1.
  { apply instance_ready_alter_ready. by eapply lookup_lt_Some. }
  assert (joined_with (λ j, extra j + gathered_in j l) w1) as Hjoined1.
  { pose proof Hjoined as (J1 & J2 & J3 & J4).
    assert (∀ j, waiting j w1 + gathered_in j l = waiting j w) as Hw.
    { intros j. pose proof (waiting_alter j (set_ready true) i w x Hx) as H.
      unfold waits_for in H. cbn [ready set_ready] in H. rewrite Hrx, Hlist in H.
      rewrite gathered_in_cons in H. cbn [is_gathered_cb] in H. fold w1 in H. lia. }
    split_and!.
    - intros j Hpos. apply J1. specialize (Hw j). lia.
    - intros j jn Hjn. change (gathered j w1) with (gathered j w).
      replace (waiting j w1 + (extra j + gathered_in j l)) with (waiting j w + extra j)
        by (specialize (Hw j); lia).
      by apply J2.
    - done.
    - intros k y. unfold w1. cbn [heap upd_heap]. destruct (decide (i = k)) as [->|Hne].
      + rewrite list_lookup_alter_eq, Hx. intros [= <-]. cbn [awaiting set_ready]. congruence.
      + rewrite list_lookup_alter_ne by done. apply J4. }
  pose proof (fold_run_ready_cb_joined i l extra w1 Hready1 Hjoined1) as Hjoined2.
  set (w2 := fold_left _ l w1) in *.
  destruct (forEach _) as [fs|]; cbn [bind]; [|done]. intros [= <-].
  eapply joined_tame; [|exact Hjoined2]. apply tame_log. by apply Forall_plain_fmap.
Qed.

(** Changing one instance without changing what joins wait for. *)
Lemma joined_heap_alter extra g i w :
  (∀ x j, waits_for j (g x) = waits_for j x) →
  (∀ x, heap w !! i = Some x → awaiting (g x) = true → ready (g x) = false) →
  joined_with extra w → joined_with extra (upd_heap (alter g i) w).
Proof.
  intros Hwaits Haw (J1 & J2 & J3 & J4).
  assert (∀ j, waiting j (upd_heap (alter g i) w) = waiting j w) as Hw.
  { intros j. unfold waiting. cbn [heap upd_heap]. f_equal.
    apply list_fmap_alter_same. intros x. apply Hwaits. }
  split_and!.
  - intros j. rewrite Hw. apply J1.
  - intros j jn. rewrite Hw. apply J2.
  - done.
  - intros k y. cbn [heap upd_heap]. destruct (decide (i = k)) as [->|Hne].
    + rewrite list_lookup_alter_eq. destruct (heap w !! k) as [x|] eqn:Hx; [|done].
      intros [= <-] Hay. by apply Haw.
    + rewrite list_lookup_alter_ne by done. apply J4.
Qed.

Lemma joined_awaiting w i x extra :
  joined_with extra w → heap w !! i = Some x → awaiting x = true → ready x = false.
Proof. intros (_ & _ & _ & J4). apply J4. Qed.

(** Queueing a callback on an instance that is not ready. *)
Lemma push_joined extra i c w x :
  joined_with extra w → heap w !! i = Some x → ready x = false →
  (∀ j, is_gathered_cb j c = true → 0 < extra j) →
  joined_with (λ j, extra j - if is_gathered_cb j c then 1 else 0) (pushOnReady i c w).
Proof.
  intros (J1 & J2 & J3 & J4) Hx Hrx Hextra.
  assert (∀ j, waiting j (pushOnReady i c w)
               = waiting j w + if is_gathered_cb j c then 1 else 0) as Hw.
  { intros j.
    pose proof (waiting_alter j (λ x, set_onReady (i_onReady x ++ [c]) x) i w x Hx) as H.
    unfold waits_for in H. cbn [ready i_onReady set_onReady] in H. rewrite Hrx in H.
    rewrite gathered_in_app, gathered_in_cons in H.
    unfold gathered_in at 3 in H. simpl in H. unfold pushOnReady. lia. }
  assert (∀ j, waiting j (pushOnReady i c w)
               + (extra j - if is_gathered_cb j c then 1 else 0)
               = waiting j w + extra j) as Hsum.
  { intros j. rewrite Hw. specialize (Hextra j). destruct (is_gathered_cb j c); [|lia].
    specialize (Hextra eq_refl). lia. }
  split_and!.
  - intros j. rewrite Hsum. apply J1.
  - intros j jn. rewrite Hsum. apply J2.
  - done.
  - intros k y. unfold pushOnReady. cbn [heap upd_heap]. destruct (decide (i = k)) as [->|Hne].
    + rewrite list_lookup_alter_eq, Hx. intros [= <-]. apply (J4 k x Hx).
    + rewrite list_lookup_alter_ne by done. apply J4.
Qed.

Lemma consumed_spec rc extra j :
  consumed rc extra j
  = extra j - match rc with
              | Some c => if is_gathered_cb j (Caller c) then 1 else 0
              | None => 0
              end.
Proof.
  destruct rc as [[f|j0 idx]|]; cbn [consumed is_gathered_cb]; try lia.
  unfold minus_one. destruct (Nat.eqb_spec j j0); case_decide; try done; lia.
Qed.

Lemma finish_joined extra d i p rc w w' x :
  joined_with extra w →
  heap w !! i = Some x → ready x = false → awaiting x = false →
  (∀ j, gathered_in j (i_onReady x) = 0) →
  (∀ j idx, rc = Some (Gathered j idx) → 0 < extra j) →
  finish d i p rc w = Normal w' → joined_with (consumed rc extra) w'.
Proof.
  intros Hjoined Hx Hrx Hax Hnone Hextra. unfold finish.
  set (w1 := log _ w). set (w2 := unshiftOnReady i FlipReady w1).
  assert (joined_with extra w1) as Hj1.
  { eapply joined_tame; [|exact Hjoined]. apply tame_log. by apply Forall_plain_fmap. }
  assert (joined_with extra w2) as Hj2.
  { unfold w2, unshiftOnReady. apply joined_heap_alter; [| |done].
    - intros y j. unfold waits_for. cbn [ready i_onReady set_onReady].
      by rewrite gathered_in_cons.
    - intros y Hy Hay. by apply (joined_awaiting w1 i y extra). }
  set (x2 := set_onReady (FlipReady :: i_onReady x) x).
  assert (heap w2 !! i = Some x2) as Hx2.
  { unfold w2, unshiftOnReady, w1. cbn [heap upd_heap log].
    by rewrite list_lookup_alter_eq, Hx. }
  set (w3 := match rc with Some c => pushOnReady i (Caller c) w2 | None => w2 end).
  set (x3 := match rc with
             | Some c => set_onReady (i_onReady x2 ++ [Caller c]) x2
             | None => x2
             end).
  assert (heap w3 !! i = Some x3) as Hx3.
  { unfold w3, x3. destruct rc; [|done]. unfold pushOnReady. cbn [heap upd_heap].
    by rewrite list_lookup_alter_eq, Hx2. }
  assert (joined_with (consumed rc extra) w3) as Hj3.
  { eapply joined_ext; [intros j; symmetry; apply consumed_spec|].
    unfold w3. destruct rc as [c|].
    - apply (push_joined extra i (Caller c) w2 x2); [done|done|done|].
      intros j Hj. destruct c as [f|j0 idx]; [done|]. cbn [is_gathered_cb] in Hj.
      apply Nat.eqb_eq in Hj. subst. by eapply Hextra.
    - eapply joined_ext; [|exact Hj2]. intros j. lia. }
  assert (ready x3 = false ∧ awaiting x3 = false ∧ ∃ l, i_onReady x3 = FlipReady :: l)
    as (Hr3 & Ha3 & l & Hl3).
  { unfold x3. destruct rc; cbn; (split_and!; [done|done|by eexists]). }
  destruct (_ && _).
  - intros [= <-]. apply joined_heap_alter; [done| |done].
    intros y Hy _. rewrite Hx3 in Hy. injection Hy as <-. done.
  - by eapply done_joined.
Qed.

(** *** The tables name instances that exist *)

Lemma valid_tables_registry w w' :
  registry w' = registry w → valid_tables w → valid_tables w'.
Proof.
  intros Hr [Hg Ht]. split.
  - intros k i. rewrite (registry_global _ _ Hr), (registry_length _ _ Hr). apply Hg.
  - intros t k i. rewrite (registry_table _ _ Hr), (registry_length _ _ Hr). apply Ht.
Qed.

Lemma valid_tables_calm w w' : calm w w' → valid_tables w → valid_tables w'.
Proof. intros [Hr _]. by apply valid_tables_registry. Qed.

Lemma valid_tables_allocate d k static p w :
  valid_tables w → valid_tables (allocate d k static p w).
Proof.
  intros [Hg Ht]. unfold allocate, register. cbn [providers log upd_heap].
  set (g := match providers w !! d with Some p0 => isGlobal p0 | None => false end).
  split.
  - intros k' i. destruct g; cbn; rewrite length_app; cbn [length].
    + destruct (decide (k = k')) as [->|Hne].
      * rewrite lookup_insert_eq. intros [= <-]. lia.
      * rewrite lookup_insert_ne by done. intros H%Hg. lia.
    + intros H%Hg. lia.
  - intros t k' i. destruct g; cbn; rewrite length_app; cbn [length];
      (destruct (providerInstances w) as [t0|] eqn:Ht0; [|done]); cbn; intros [= <-];
      (destruct (decide (k = k')) as [->|Hne];
        [rewrite lookup_insert_eq; intros [= <-]; lia
        |rewrite lookup_insert_ne by done; intros H; pose proof (Ht t0 k' i eq_refl H); lia]).
Qed.

Lemma valid_tables_create d k static rc w w' i :
  valid_tables w → create d k static rc w = Normal (w', i) → valid_tables w'.
Proof.
  intros Hv. unfold create.
  pose proof (calm_install_thunk d w) as Hc0.
  set (w0 := install_thunk d w) in *.
  destruct (providers w0 !! d) as [p|]; [|done].
  destruct (forEach (wait p)) as [fs|]; cbn [bind]; [|done].
  set (w1 := log _ w0). set (w2 := allocate d k static p w1).
  destruct (for_each (wire_subscriber d _) _ w2) as [w3|] eqn:H3; cbn [bind]; [|done].
  destruct (for_each (wire_subscribeTo d _) _ w3) as [w4|] eqn:H4; cbn [bind]; [|done].
  destruct (finish d _ p rc w4) as [w5|] eqn:H5; cbn [bind]; [|done].
  intros [= <- <-].
  assert (calm w2 w5) as Hc.
  { apply (calm_trans _ w3); [eapply calm_for_each, H3; apply calm_wire_subscriber|].
    apply (calm_trans _ w4); [eapply calm_for_each, H4; apply calm_wire_subscribeTo|].
    by eapply calm_finish. }
  eapply valid_tables_calm; [exact Hc|]. apply valid_tables_allocate.
  apply (valid_tables_registry w0); [done|]. by eapply valid_tables_calm.
Qed.

Lemma valid_tables_instantiate w fi d a w' i :
  valid_tables w → instantiateProvider w fi d a = Normal (w', i) → valid_tables w'.
Proof.
  intros Hv. unfold instantiateProvider.
  destruct (providers w !! d) as [p|] eqn:Hp; [|done].
  destruct (resolve d a) as [[k static] rc] eqn:Hres.
  set (w1 := match fi with Consumer => _ | Fresh => _ end).
  assert (valid_tables w1) as Hv1 by (subst w1; by destruct fi).
  destruct (lookup_instance w p k) as [j|].
  - destruct rc as [c|]; [|by intros [= <- <-]].
    destruct (instance_ready w1 j); intros [= <- <-].
    + eapply valid_tables_calm; [apply (calm_run_ready_cb j (Caller c) w1)|done].
    + eapply valid_tables_calm; [|exact Hv1]. by apply calm_heap_alter.
  - by apply valid_tables_create.
Qed.

Lemma lookup_instance_valid w p k i :
  valid_tables w → lookup_instance w p k = Some i → i < length (heap w).
Proof.
  intros [Hg Ht]. unfold lookup_instance. destruct (isGlobal p); [apply Hg|].
  destruct (providerInstances w) as [t|] eqn:Heq; [|done]. by apply Ht.
Qed.

(** *** Joins across an instantiation *)

Lemma create_joined extra d k static rc w w' i :
  joined_with extra w →
  (∀ j idx, rc = Some (Gathered j idx) → 0 < extra j) →
  create d k static rc w = Normal (w', i) → joined_with (consumed rc extra) w'.
Proof.
  intros Hjoined Hextra. unfold create.
  set (w0 := install_thunk d w).
  destruct (providers w0 !! d) as [p|]; [|done].
  destruct (forEach (wait p)) as [fs|]; cbn [bind]; [|done].
  set (w1 := log _ w0). set (w2 := allocate d k static p w1).
  destruct (for_each (wire_subscriber d _) _ w2) as [w3|] eqn:H3; cbn [bind]; [|done].
  destruct (for_each (wire_subscribeTo d _) _ w3) as [w4|] eqn:H4; cbn [bind]; [|done].
  destruct (finish d _ p rc w4) as [w5|] eqn:H5; cbn [bind]; [|done].
  intros [= <- <-].
  assert (joined_with extra w1) as Hj1.
  { eapply joined_tame; [|exact Hjoined].
    eapply tame_trans; [apply tame_install_thunk|].
    apply tame_log. by apply Forall_plain_fmap. }
  set (x0 := Instance d k static false (Caller ∘ User <$> callback_list (onReady p)) [] false).
  assert (heap w2 = heap w1 ++ [x0]) as Hh2 by apply allocate_heap.
  assert (joins w2 = joins w1) as Hjs2.
  { unfold w2, allocate, register. cbn.
    by destruct (match providers w1 !! d with Some _ => _ | None => _ end). }
  assert (joined_with extra w2) as Hj2.
  { pose proof Hj1 as (J1 & J2 & J3 & J4).
    assert (∀ j, waiting j w2 = waiting j w1) as Hw.
    { intros j. unfold waiting. rewrite Hh2, fmap_app, sum_list_with_app.
      assert (waits_for j x0 = 0) as H0 by apply gathered_in_users.
      change (waits_for j <$> [x0]) with [waits_for j x0]. rewrite H0. cbn. lia. }
    assert (∀ j, gathered j w2 = gathered j w1) as Hg.
    { intros j. unfold gathered, w2. rewrite allocate_trace, count_app.
      rewrite count_cons. cbn. unfold count. simpl. lia. }
    split_and!.
    - intros j. rewrite Hw, Hjs2. apply J1.
    - intros j jn. rewrite Hw, Hjs2, Hg. apply J2.
    - intros j. rewrite Hjs2, Hg. apply J3.
    - intros i y. rewrite Hh2. intros Hy. apply lookup_app_Some in Hy as [Hy|[_ Hy]].
      + by apply (J4 i y).
      + apply list_lookup_singleton_Some in Hy as [_ <-]. done. }
  assert (tame w2 w4) as Htame.
  { apply (tame_trans _ w3); [eapply tame_for_each, H3; apply tame_wire_subscriber|].
    eapply tame_for_each, H4; apply tame_wire_subscribeTo. }
  assert (∃ x4, heap w4 !! length (heap w1) = Some x4 ∧ readiness x4 = readiness x0)
    as (x4 & Hx4 & Hr4).
  { destruct Htame as (_ & Hr & _).
    assert ((readiness <$> heap w4) !! length (heap w1) = Some (readiness x0)) as H.
    { rewrite Hr, Hh2, list_lookup_fmap, lookup_app_r by done. by rewrite Nat.sub_diag. }
    rewrite list_lookup_fmap in H. destruct (heap w4 !! length (heap w1)) as [x4|]; [|done].
    exists x4. split; [done|]. simpl in H. congruence. }
  injection Hr4 as Hr4 Hl4 Ha4.
  eapply (finish_joined extra d _ p rc w4 w5 x4); [|exact Hx4|done|done| |done|exact H5].
  - by eapply joined_tame.
  - intros j. rewrite Hl4. apply gathered_in_users.
Qed.

Lemma instantiate_joined extra w fi d a w' i :
  joined_with extra w → valid_tables w →
  (∀ j idx, (resolve d a).2 = Some (Gathered j idx) → 0 < extra j) →
  instantiateProvider w fi d a = Normal (w', i) →
  joined_with (consumed (resolve d a).2 extra) w'.
Proof.
  intros Hjoined Hvalid Hextra. unfold instantiateProvider.
  destruct (providers w !! d) as [p|] eqn:Hp; [|done].
  destruct (resolve d a) as [[k static] rc] eqn:Hres. cbn [snd] in *.
  set (w1 := match fi with Consumer => _ | Fresh => _ end).
  assert (joined_with extra w1) as Hj1 by (subst w1; by destruct fi).
  assert (heap w1 = heap w) as Hh1 by (subst w1; by destruct fi).
  destruct (lookup_instance w p k) as [i0|] eqn:Hlook.
  - apply lookup_instance_valid in Hlook; [|done].
    destruct (lookup_lt_is_Some_2 (heap w) i0 Hlook) as [x Hx].
    destruct rc as [c|]; [|by intros [= <- <-]].
    destruct (instance_ready w1 i0) eqn:Hready; intros [= <- <-].
    + apply (run_ready_cb_joined _ i0 (Caller c) w1); [done|]. eapply joined_ext; [|exact Hj1].
      intros j. cbn beta. rewrite consumed_spec. destruct c as [f|j0 idx]; [cbn; lia|].
      cbn [is_gathered_cb]. destruct (Nat.eqb_spec j j0) as [->|]; [|lia].
      specialize (Hextra j0 idx eq_refl). lia.
    + eapply joined_ext; [intros j; symmetry; apply consumed_spec|].
      apply (push_joined extra i0 (Caller c) w1 x); [done|by rewrite Hh1| |].
      * unfold instance_ready in Hready. by rewrite Hh1, Hx in Hready.
      * intros j Hj. destruct c as [f|j0 idx]; [done|]. cbn [is_gathered_cb] in Hj.
        apply Nat.eqb_eq in Hj. subst. by eapply Hextra.
  - by apply create_joined.
Qed.

(** *** Joins across [getResultInstances] *)

Lemma valid_tables_joins f w : valid_tables w → valid_tables (upd_joins f w).
Proof. done. Qed.

Lemma valid_tables_join_clear j w : valid_tables w → valid_tables (join_clear j w).
Proof. apply valid_tables_calm, calm_join_clear. Qed.

Lemma gather_loop_joined j entries : ∀ base idx w w',
  joined_with (λ j', base j' + if decide (j' = j) then length entries else 0) w →
  valid_tables w →
  gather_loop j idx entries w = Normal w' →
  joined_with base w' ∧ valid_tables w'.
Proof.
  induction entries as [|[|d] rest IH]; intros base idx w w' Hjoined Hvalid; cbn [gather_loop]; [|done|].
  - intros [= <-]. split; [|done]. eapply joined_ext; [|exact Hjoined].
    intros j'. cbn. destruct (decide (j' = j)); lia.
  - set (w0 := upd_joins _ w).
    destruct (instantiateProvider w0 Fresh d (Short (Some (Gathered j idx))))
      as [[w1 i]|] eqn:Hcall; cbn [bind]; [|done].
    cbn [fst]. intros Hloop.
    assert (joined_with (λ j', base j' + if decide (j' = j) then length (Props d :: rest) else 0) w0)
      as Hj0 by (by apply joined_slots).
    pose proof (valid_tables_instantiate _ _ _ _ _ _ (valid_tables_joins _ _ Hvalid) Hcall) as Hv1.
    eapply (instantiate_joined _ w0) in Hcall; [|exact Hj0|done|].
    + eapply IH; [|exact Hv1|exact Hloop]. eapply joined_ext; [|exact Hcall].
      intros j'. cbn [resolve snd consumed]. unfold minus_one. cbn [length].
      destruct (decide (j' = j)); lia.
    + cbn [resolve snd]. intros j0 idx0 [= <- <-]. rewrite decide_True by done. cbn. lia.
Qed.

Lemma joined_append n jn w w1 :
  joined w → joins w1 = joins w ++ [jn] → semaphore jn = Z.of_nat n → 0 < n →
  heap w1 = heap w → trace w1 = trace w →
  joined_with (λ j', 0 + if decide (j' = length (joins w)) then n else 0) w1.
Proof.
  intros (J1 & J2 & J3 & J4) Hjs Hsem Hn Hh Ht.
  assert (∀ j, waiting j w1 = waiting j w) as Hw by (intros j; unfold waiting; by rewrite Hh).
  assert (∀ j, gathered j w1 = gathered j w) as Hg by (intros j; unfold gathered; by rewrite Ht).
  assert (∀ j, length (joins w) ≤ j → waiting j w = 0) as Hw0.
  { intros j Hle. destruct (waiting j w) as [|m] eqn:Hm; [done|].
    destruct (J1 j) as [y Hy]; [lia|]. apply lookup_lt_Some in Hy. lia. }
  split_and!.
  - intros j. rewrite Hw, Hjs. destruct (decide (j = length (joins w))) as [->|Hne].
    + intros _. rewrite lookup_app_r, Nat.sub_diag by done. by eexists.
    + intros Hpos. destruct (J1 j) as [y Hy]; [lia|]. exists y. by apply lookup_app_l_Some.
  - intros j y. rewrite Hw, Hg, Hjs. intros Hy. apply lookup_app_Some in Hy as [Hy|[Hle Hy]].
    + rewrite decide_False by (apply lookup_lt_Some in Hy; lia).
      destruct (J2 j y Hy) as [H1 H2]. split; [lia|done].
    + apply list_lookup_singleton_Some in Hy as [Hj <-].
      assert (j = length (joins w)) as -> by lia. rewrite decide_True by done.
      rewrite Hw0, (J3 (length (joins w))) by done. rewrite Hsem. split; [lia|].
      destruct (Z.eqb_spec (Z.of_nat n) 0); [lia|done].
  - intros j. rewrite Hjs, Hg, length_app. cbn [length]. intros Hle. apply J3. lia.
  - intros i x. rewrite Hh. apply J4.
Qed.

Lemma getResultInstances_joined result callback w w' j :
  joined w → valid_tables w →
  getResultInstances result callback w = Normal (w', j) →
  joined w' ∧ valid_tables w'.
Proof.
  intros Hjoined Hvalid. gather_cases result Hns.
  set (entries := entries_of result). case_bool_decide as Hn.
  - intros [= <- <-]. split; [|by apply valid_tables_join_clear].
    set (w1 := upd_joins (alter _ _) _).
    assert (joined_with (λ j', 0 + if decide (j' = length (joins w)) then 1 else 0) w1) as Hj1.
    { apply (joined_append 1 (Join 1 [] callback) w w1); try done; [|lia].
      unfold w1. cbn [joins upd_joins]. rewrite Hn.
      by rewrite alter_app_r_alt, Nat.sub_diag by done. }
    apply (join_clear_joined _ (length (joins w))) in Hj1;
      [|cbn beta; rewrite decide_True by done; lia].
    eapply joined_ext; [|exact Hj1]. intros j'. unfold minus_one. cbn beta.
    destruct (decide (j' = length (joins w))); lia.
  - set (w1 := upd_joins _ w).
    destruct (gather_loop _ 0 entries w1) as [w2|] eqn:Hloop; cbn [bind]; [|done].
    intros [= <- <-].
    eapply (gather_loop_joined _ _ (λ _, 0) _ w1); [|exact Hvalid|exact Hloop].
    apply (joined_append _ (Join (Z.of_nat (length entries)) [] callback) w w1); try done. lia.
Qed.

(** *** Joins in reachable worlds *)

Lemma store_ready_joined i w w' :
  joined w → ready_ok w → store_ready i w = Normal w' → joined w'.
Proof.
  intros Hjoined [Hflip _]. unfold store_ready.
  destruct (heap w !! i) as [x|] eqn:Hx; [|by intros [= <-]].
  destruct (awaiting x) eqn:Hax; [|by intros [= <-]].
  pose proof (joined_awaiting _ _ _ _ Hjoined Hx Hax) as Hrx.
  pose proof (flip_first_lookup _ _ _ Hflip Hx) as Hstart.
  destruct Hstart as [l Hq].
  set (w1 := upd_heap (alter (set_awaiting false) i) w).
  apply (done_joined _ (proto x) i w1 w' (set_awaiting false x) l).
  - apply joined_heap_alter; [by intros [] j|by intros y _|done].
  - unfold w1. cbn [heap upd_heap]. by rewrite list_lookup_alter_eq, Hx.
  - done.
  - done.
  - done.
Qed.

Lemma plain_handler h s b : plain (EHandler h s b) = true.
Proof. done. Qed.

Lemma store_change_tame i w : tame w (store_change i w).
Proof.
  apply tame_log. unfold listener_calls. destruct (heap w !! i) as [x|]; [|constructor].
  induction (listeners x) as [|l ls IH]; [constructor|]. cbn [flat_map].
  apply Forall_app. split; [|done]. by apply Forall_plain_fmap.
Qed.


Lemma healthy_perform o w w' :
  external o = true → healthy w → perform o w = Normal w' → healthy w'.
Proof.
  intros Hext (Hjoined & Hvalid & Hok) Hstep.
  split; [|split; [|by eapply ready_ok_perform]].
  - destruct o as [fi d a|result callback|i|i]; cbn [perform] in Hstep.
    + destruct (instantiateProvider w fi d a) as [[w1 i]|] eqn:Hcall; cbn [bind] in Hstep; [|done].
      injection Hstep as <-. cbn [fst].
      eapply (instantiate_joined _ w) in Hcall; [|exact Hjoined|done|].
      * eapply joined_ext; [|exact Hcall]. intros j.
        destruct (resolve d a).2 as [[f|j0 idx]|]; cbn [consumed]; try done.
        unfold minus_one. by destruct (decide (j = j0)).
      * intros j idx Hrc. destruct a as [[[f|j0 idx0]|]|[k|k] [[f|j0 idx0]|]]; done.
    + destruct (getResultInstances result callback w) as [[w1 j]|] eqn:Hcall;
        cbn [bind] in Hstep; [|done].
      injection Hstep as <-. by eapply getResultInstances_joined.
    + by eapply store_ready_joined.
    + injection Hstep as <-. eapply joined_tame; [apply store_change_tame|done].
  - destruct o as [fi d a|result callback|i|i]; cbn [perform] in Hstep.
    + destruct (instantiateProvider w fi d a) as [[w1 i]|] eqn:Hcall; cbn [bind] in Hstep; [|done].
      injection Hstep as <-. by eapply valid_tables_instantiate.
    + destruct (getResultInstances result callback w) as [[w1 j]|] eqn:Hcall;
        cbn [bind] in Hstep; [|done].
      injection Hstep as <-. by eapply getResultInstances_joined.
    + unfold store_ready in Hstep. destruct (heap w !! i) as [x|] eqn:Hx; [|by injection Hstep as <-].
      destruct (awaiting x); [|by injection Hstep as <-].
      eapply valid_tables_calm; [eapply calm_done, Hstep|].
      eapply valid_tables_calm; [|exact Hvalid]. by apply calm_heap_alter.
    + injection Hstep as <-. done.
Qed.

Lemma healthy_initial w : initial w → healthy w.
Proof.
  intros Hi. pose proof (ready_ok_initial _ Hi) as Hok.
  destruct Hi as (_ & Hg & Ht & Hh & Hj & Htr). split; [|split; [|done]].
  - unfold joined, joined_with, waiting, gathered. rewrite Hh, Hj, Htr. cbn. split_and!.
    + intros j. lia.
    + intros j jn. by rewrite lookup_nil.
    + done.
    + intros i x. by rewrite lookup_nil.
  - split.
    + intros k i. by rewrite Hg, lookup_empty.
    + intros t k i Heq. rewrite (Ht t Heq), lookup_empty. done.
Qed.

Lemma healthy_reachable w0 w : initial w0 → reachable w0 w → healthy w.
Proof.
  intros Hi. induction 1 as [|w o w' _ IH Hext Hstep]; [by apply healthy_initial|].
  by eapply healthy_perform.
Qed.

(** *** The counter of a join *)

Lemma gather_loop_app j pre post : ∀ idx w,
  gather_loop j idx (pre ++ post) w
  = (w1 ←! gather_loop j idx pre w; gather_loop j (idx + length pre) post w1).
Proof.
  induction pre as [|[|d] pre IH]; intros idx w; cbn [gather_loop app length]; [|done|].
  - cbn [bind]. by rewrite Nat.add_0_r.
  - destruct (instantiateProvider _ Fresh d _) as [[w1 i]|]; cbn [bind]; [|done].
    rewrite IH. by replace (S idx + length pre) with (idx + S (length pre)) by lia.
Qed.

Lemma getResultInstances_loop result callback w :
  entries_of result ≠ [] →
  getResultInstances result callback w
  = (w1 ←! gather_loop (length (joins w)) 0 (entries_of result) (join_start result callback w);
     Normal (w1, length (joins w))).
Proof.
  intros Hne. destruct result as [|es|]; [done| |done]. cbn [entries_of] in *.
  unfold getResultInstances. cbn [entries_of]. rewrite bool_decide_eq_false_2; [done|].
  by destruct es.
Qed.



(** *** The small application *)
Lemma fresh_world_initial : initial fresh_world.
Proof.
  split_and!; try done.
  - unfold fresh_world, definitions. cbn [providers].
    repeat apply map_Forall_insert_2; [..|apply map_Forall_empty];
      (split_and!; [done|cbn; repeat constructor; set_solver..]).
  - by intros t [= <-].
Defined.

Lemma reachable_run os : ∀ w0 w,
  forallb external os = true → run os w0 = Normal w → reachable w0 w.
Proof.
  induction os as [|o os IH] using rev_ind; intros w0 w Hext.
  - intros [= <-]. constructor.
  - rewrite forallb_app in Hext. apply andb_true_iff in Hext as [Hos Ho].
    cbn in Ho. rewrite andb_true_r in Ho.
    assert (∀ l w1, run (l ++ [o]) w1 = (w2 ←! run l w1; perform o w2)) as Happ.
    { induction l as [|o' l IHl]; intros w1; cbn [run app].
      - cbn [bind]. by destruct (perform o w1).
      - destruct (perform o' w1); cbn [bind]; [apply IHl|done]. }
    rewrite Happ. destruct (run os w0) as [w1|] eqn:Hrun; cbn [bind]; [|done].
    intros Hstep. eapply reachable_step; [by apply IH|done|done].
Qed.


(** The hypotheses of [isStatic_of_created] for a key function that
    returns the definition's key. *)
Lemma isStatic_of_created_witness :
  ∃ x, heap (world_after [Instantiate Consumer "list" (Full (Computed "list") None)] fresh_world)
         !! 0 = Some x
       ∧ proto x = "list"
       ∧ providerKey x = "list"
       ∧ (isStatic x = true ↔ true = false ∨ "list" = "list").
Proof.
  apply (isStatic_of_created fresh_world Consumer "list" (Full (Computed "list") None)).
  - vm_compute. reflexivity.
  - vm_compute. reflexivity.
Defined.


(** C5 as stated fails: a key given as a literal string other than the
    definition's key makes a static instance. *)
Lemma literal_key_is_static :
  resolved_key "list" (Full (Literal "other") None) ≠ "list"
  ∧ (isStatic <$> heap (world_after [Instantiate Consumer "list" (Full (Literal "other") None)]
                          fresh_world) !! 0) = Some true
  ∧ (providerKey <$> heap (world_after [Instantiate Consumer "list" (Full (Literal "other") None)]
                             fresh_world) !! 0) = Some "other".
Proof. split; [done|]. split; vm_compute; reflexivity. Qed.


(** The hypotheses of [idempotent_wiring] in the small application: one
    instance of each side of the edge. *)
Lemma idempotent_wiring_witness :
  count (is_pair 0 1)
    (listener_calls (world_after [Instantiate Consumer "list" (Short None);
                                  Instantiate Consumer "user" (Short None)] fresh_world) 0) = 1
  ∧ count (is_call 7 0 1)
      (listener_calls (world_after [Instantiate Consumer "list" (Short None);
                                    Instantiate Consumer "user" (Short None)] fresh_world) 0) = 1.
Proof.
  refine (proj2 (idempotent_wiring fresh_world _ "list" "user" 7 8 0 1 _ _
                   fresh_world_initial _ _ _ _ _ _ _)).
  - apply (reachable_run [Instantiate Consumer "list" (Short None);
                          Instantiate Consumer "user" (Short None)]); vm_compute; reflexivity.
  - vm_compute. reflexivity.
  - vm_compute. reflexivity.
  - vm_compute. reflexivity.
  - vm_compute. reflexivity.
  - vm_compute. reflexivity.
  - vm_compute. reflexivity.
Defined.

End ProviderFacts.

(* ===================================================================== *)
(** ** Facts about handleQueries                                         *)
(* ===================================================================== *)

Module QueryFacts.
Import Js Provider Query QuerySpec Examples.
Import ProviderFacts.
Local Open Scope nat_scope.

Section Invariant.
Context (stringify : val → string) (shallowEqual : val → val → bool).

Local Abbreviation clear_call := Query.clear_call.
Local Abbreviation result_handler := (Query.result_handler shallowEqual).
Local Abbreviation drain := (Query.drain shallowEqual).
Local Abbreviation on_result := (Query.on_result shallowEqual).
Local Abbreviation process_entry := (Query.process_entry stringify shallowEqual).
Local Abbreviation process_entries := (Query.process_entries stringify shallowEqual).
Local Abbreviation handleQueries := (Query.handleQueries stringify shallowEqual).
Local Abbreviation qperform := (Query.qperform stringify shallowEqual).
Local Abbreviation qreachable := (Query.qreachable stringify shallowEqual).

(** *** Counting handlers *)







(** *** Changes that the invariant does not see *)

Lemma qsame_refl w : qsame w w.
Proof. done. Qed.































Lemma pending_of_calls c f w : pending_of c (upd_calls f w) = pending_of c w.
Proof. done. Qed.






End Invariant.

Section Traces.
Context (stringify : val → string) (shallowEqual : val → val → bool).

Local Abbreviation clear_call := Query.clear_call.
Local Abbreviation result_handler := (Query.result_handler shallowEqual).
Local Abbreviation drain := (Query.drain shallowEqual).
Local Abbreviation on_result := (Query.on_result shallowEqual).
Local Abbreviation process_entry := (Query.process_entry stringify shallowEqual).
Local Abbreviation process_entries := (Query.process_entries stringify shallowEqual).
Local Abbreviation handleQueries := (Query.handleQueries stringify shallowEqual).
Local Abbreviation qreachable := (Query.qreachable stringify shallowEqual).
Local Abbreviation resultKey_of := (Query.resultKey_of stringify).

(** *** Traces of result handlers *)





(** *** The missing handler *)

Lemma first_handler_None rs :
  Query.first_handler rs = None ↔ ∀ r, r ∈ rs → handleQuery r = None.
Proof.
  unfold Query.first_handler. split.
  - intros H r Hr. destruct (handleQuery r) as [h|] eqn:Hh; [|done]. exfalso.
    destruct (list_find (λ r, is_Some (handleQuery r)) rs) as [[i r']|] eqn:Hfind.
    + apply list_find_Some in Hfind as (_ & [h' Hh'] & _). simpl in H. congruence.
    + apply list_find_None in Hfind. rewrite Forall_forall in Hfind.
      apply (Hfind r Hr). by rewrite Hh.
  - intros H. destruct (list_find _ rs) as [[i r']|] eqn:Hfind; [|done].
    apply list_find_Some in Hfind as (Hi & _ & _). simpl. apply H.
    by eapply list_elem_of_lookup_2.
Qed.

Lemma find_handler_None reducers entries :
  Query.find_handler reducers entries = None ↔
  ∀ entry rs r, entry ∈ entries → replicator entry = Some rs → r ∈ to_array rs →
                handleQuery r = None.
Proof.
  induction entries as [|entry entries IH]; cbn [Query.find_handler].
  - split; [|done]. by intros _ entry rs r ?%elem_of_nil.
  - destruct (replicator entry) as [rs|] eqn:Hrs; cbn [mbind option_bind].
    + destruct (Query.first_handler (to_array rs)) as [h|] eqn:Hfirst.
      * split; [done|]. intros H. exfalso.
        assert (Query.first_handler (to_array rs) = None) as Hnone.
        { apply first_handler_None. intros r Hr.
          eapply H; [apply list_elem_of_here|done|done]. }
        congruence.
      * rewrite IH. split.
        -- intros H entry' rs' r [->|Hin]%elem_of_cons Hrs' Hr.
           ++ rewrite Hrs in Hrs'. injection Hrs' as <-.
              by eapply first_handler_None.
           ++ by eapply H.
        -- intros H entry' rs' r Hin. apply H. by apply list_elem_of_further.
    + rewrite IH. split.
      * intros H entry' rs' r [->|Hin]%elem_of_cons Hrs' Hr; [congruence|by eapply H].
      * intros H entry' rs' r Hin. apply H. by apply list_elem_of_further.
Qed.

Lemma getQueryHandler_None p : Query.getQueryHandler p = None ↔ no_handler p.
Proof.
  unfold Query.getQueryHandler, no_handler.
  destruct (replication p) as [entries|].
  - rewrite find_handler_None. split.
    + intros H entries' entry rs r [= <-]. apply H.
    + intros H entry rs r. by apply H.
  - split; [|done]. by intros _ entries entry rs r.
Qed.

Lemma process_entries_app c pre post st :
  process_entries c (pre ++ post) st
  = (st1 ←! process_entries c pre st; process_entries c post st1).
Proof.
  revert st. induction pre as [|q pre IH]; intros st; cbn [Query.process_entries app].
  - done.
  - destruct (process_entry c q st) as [st1|]; cbn [bind]; [apply IH|done].
Qed.

End Traces.

Section Handling.
Context (stringify : val → string) (shallowEqual : val → val → bool).

Local Abbreviation on_result := (Query.on_result shallowEqual).
Local Abbreviation process_entry := (Query.process_entry stringify shallowEqual).
Local Abbreviation process_entries := (Query.process_entries stringify shallowEqual).
Local Abbreviation handleQueries := (Query.handleQueries stringify shallowEqual).
Local Abbreviation qreachable := (Query.qreachable stringify shallowEqual).
Local Abbreviation resultKey_of := (Query.resultKey_of stringify).

(** *** Turns of the loop *)



(** The cold path for a provider without a handler. *)
Lemma process_entry_no_handler c key query st p :
  cached (l_world st) (resultKey_of query (options_for key st)) = None →
  q_providers (l_world st) !! key = Some p →
  activeQueries (l_world st) !! resultKey_of query (options_for key st) = None →
  no_handler p →
  process_entry c (key, query) st = Throw TypeError.
Proof.
  intros Hcached Hp Hactive Hnone%getQueryHandler_None. unfold Query.process_entry.
  change (match l_queryOptions st with
          | Some o => o
          | None => default [] (get_prop key (l_queriesOptions st))
          end) with (options_for key st).
  rewrite Hcached, Hp. cbn [activeQueries qlog]. by rewrite Hactive, Hnone.
Qed.

Lemma handleQueries_loop r qs w :
  r_queries r = Some qs →
  handleQueries r w
  = (st' ←! process_entries (length (calls w)) qs (loop_start r qs w); Normal (l_world st', true)).
Proof. intros Hqs. unfold Query.handleQueries. by rewrite Hqs. Qed.

(** *** What a call keeps *)














(** C9: when the loop of [handleQueries] comes to a provider that has no
    cached result and no pending array for its query and whose
    replication tree holds no [handleQuery], the call ends in a
    [TypeError]; it does not go on. *)
Theorem missing_handler_raises r w pre key query post st p :
  r_queries r = Some (pre ++ (key, query) :: post) →
  process_entries (length (calls w)) pre (loop_start r (pre ++ (key, query) :: post) w)
  = Normal st →
  q_providers (l_world st) !! key = Some p →
  cached (l_world st) (resultKey_of query (options_for key st)) = None →
  activeQueries (l_world st) !! resultKey_of query (options_for key st) = None →
  no_handler p →
  Query.getQueryHandler p = None
  ∧ process_entry (length (calls w)) (key, query) st = Throw TypeError
  ∧ handleQueries r w = Throw TypeError.
Proof.
  intros Hqs Hpre Hp Hcached Hactive Hnone.
  pose proof (process_entry_no_handler (length (calls w)) _ _ _ _ Hcached Hp Hactive Hnone)
    as Hthrow.
  split_and!; [by apply getQueryHandler_None|done|].
  rewrite (handleQueries_loop _ _ _ Hqs), (process_entries_app stringify shallowEqual).
  unfold loop_start in Hpre |- *. rewrite Hpre. cbn [bind Query.process_entries].
  by rewrite Hthrow.
Qed.

End Handling.

(** *** The small application *)
Lemma fresh_context_initial : qinitial fresh_context.
Proof. done. Qed.



(** The hypotheses of [missing_handler_raises] in the small application:
    a query for [bare], whose replication holds no [handleQuery]. *)
Lemma missing_handler_raises_witness :
  getQueryHandler bare_provider = None
  ∧ process_entry json same 0 ("bare", VObj [("z", VNum 1)])
      (loop_start (request_for (Some [("bare", VObj [("z", VNum 1)])]))
         [("bare", VObj [("z", VNum 1)])] fresh_context)
    = Throw TypeError
  ∧ handleQueries json same (request_for (Some [("bare", VObj [("z", VNum 1)])])) fresh_context
    = Throw TypeError.
Proof.
  apply (missing_handler_raises json same
           (request_for (Some [("bare", VObj [("z", VNum 1)])])) fresh_context
           [] "bare" (VObj [("z", VNum 1)]) [] _ bare_provider).
  - reflexivity.
  - reflexivity.
  - vm_compute. reflexivity.
  - vm_compute. reflexivity.
  - vm_compute. reflexivity.
  - apply (proj1 (getQueryHandler_None bare_provider)). vm_compute. reflexivity.
Defined.

End QueryFacts.

(* ===================================================================== *)
(** ** The join counters                                                 *)
(* ===================================================================== *)

Module JoinFacts.
Import Js Provider ProviderSpec Query QuerySpec Examples.
Import ProviderFacts QueryFacts.
Local Open Scope nat_scope.




End JoinFacts.

(* ===================================================================== *)
(** ** What every step of instantiation respects                         *)
(* ===================================================================== *)

Module FrameFacts.
Import Js Provider ProviderSpec Lifecycle ProviderFacts.
Local Open Scope nat_scope.

Lemma install_thunk_hasThunk d w p :
  providers (install_thunk d w) !! d = Some p → hasThunk p = true.
Proof.
  unfold install_thunk. destruct (providers w !! d) as [p0|] eqn:Hp0; [|congruence].
  destruct (hasThunk p0) eqn:Hth; [congruence|].
  cbn [providers log upd_providers]. rewrite lookup_insert_eq. by intros [= <-].
Qed.

Section Frame.

(** A relation between worlds that the primitive changes respect. *)
Variable R : world → world → Prop.
Hypothesis R_refl : ∀ w, R w w.
Hypothesis R_trans : ∀ w1 w2 w3, R w1 w2 → R w2 w3 → R w1 w3.
Hypothesis R_log : ∀ es w, Forall (λ e, ordinary e = true) es → R w (log es w).
Hypothesis R_heap : ∀ g i w,
  (∀ x, identity (g x) = identity x) → (∀ x, ready x = true → ready (g x) = true) →
  R w (upd_heap (alter g i) w).
Hypothesis R_joins : ∀ f w, R w (upd_joins f w).
Hypothesis R_providers : ∀ g k w,
  (∀ p, conduct (g p) = conduct p) → (∀ p, instances (g p) = instances p) →
  R w (upd_providers (alter g k) w).
Hypothesis R_thunk : ∀ d w, R w (install_thunk d w).
Hypothesis R_allocate : ∀ d k static p w,
  providers w !! d = Some p → hasThunk p = true → R w (allocate d k static p w).

Lemma frame_log_fmap {A} (f : A → event) (xs : list A) w :
  (∀ x, ordinary (f x) = true) → R w (log (f <$> xs) w).
Proof. intros Hf. apply R_log, Forall_fmap, Forall_forall. intros x _. apply Hf. Qed.

Lemma frame_join_clear j w : R w (join_clear j w).
Proof.
  unfold join_clear. destruct (joins w !! j) as [jn|]; [|done].
  case_match; [|apply R_joins].
  eapply R_trans; [apply R_joins|]. apply R_log. by repeat constructor.
Qed.

Lemma frame_run_ready_cb i c w : R w (run_ready_cb i c w).
Proof.
  destruct c as [|[f|j idx]]; cbn [run_ready_cb].
  - by apply R_heap.
  - apply R_log. by repeat constructor.
  - eapply R_trans; [apply R_joins|apply frame_join_clear].
Qed.

Lemma frame_fold_run_ready_cb i cbs : ∀ w,
  R w (fold_left (λ w c, run_ready_cb i c w) cbs w).
Proof.
  induction cbs as [|c cbs IH]; intros w; cbn [fold_left]; [done|].
  eapply R_trans; [apply frame_run_ready_cb|apply IH].
Qed.

Lemma frame_done d i w w' : done d i w = Normal w' → R w w'.
Proof.
  unfold done. set (w1 := fold_left _ _ w).
  destruct (forEach _) as [fs|]; cbn [bind]; [|done]. intros [= <-].
  apply (R_trans _ w1); [apply frame_fold_run_ready_cb|]. by apply frame_log_fmap.
Qed.

Lemma frame_pushOnReady i c w : R w (pushOnReady i c w).
Proof. by apply R_heap. Qed.

Lemma frame_unshiftOnReady i c w : R w (unshiftOnReady i c w).
Proof. by apply R_heap. Qed.

Lemma frame_subscribe i l w : R w (subscribe i l w).
Proof. by apply R_heap. Qed.

Lemma frame_fold_subscribe l is_ : ∀ w, R w (fold_left (λ w s, subscribe s l w) is_ w).
Proof.
  induction is_ as [|s is_ IH]; intros w; cbn [fold_left]; [done|].
  eapply R_trans; [apply frame_subscribe|apply IH].
Qed.

Lemma frame_wire_subscriber d i kh w w' : wire_subscriber d i kh w = Normal w' → R w w'.
Proof.
  destruct kh as [key handler]. unfold wire_subscriber.
  destruct (providers w !! key) as [sub|]; [|done].
  set (w1 := upd_providers _ w). set (w2 := subscribe _ _ w1). intros [= <-].
  apply (R_trans _ w1); [by apply R_providers|].
  apply (R_trans _ w2); [apply frame_subscribe|]. by apply frame_log_fmap.
Qed.

Lemma frame_wire_subscribeTo d i kh w w' : wire_subscribeTo d i kh w = Normal w' → R w w'.
Proof.
  destruct kh as [key handler]. unfold wire_subscribeTo.
  destruct (providers w !! key) as [sup|]; [|done].
  set (w1 := match get_prop d _ with Some _ => w | None => _ end). intros [= <-].
  apply (R_trans _ w1); [|by apply frame_log_fmap].
  unfold w1. destruct (get_prop d _); [done|].
  eapply R_trans; [|apply frame_fold_subscribe]. by apply R_providers.
Qed.

Lemma frame_for_each {A} (f : A → world → completion world) xs :
  (∀ x w w', f x w = Normal w' → R w w') →
  ∀ w w', for_each f xs w = Normal w' → R w w'.
Proof.
  intros Hf. induction xs as [|x xs IH]; intros w w'; cbn [for_each].
  - by intros [= <-].
  - destruct (f x w) as [w1|] eqn:H1; cbn [bind]; [|done].
    intros H2. eapply R_trans; [by eapply Hf|by apply IH].
Qed.

Lemma frame_finish d i p rc w w' : finish d i p rc w = Normal w' → R w w'.
Proof.
  unfold finish. set (w1 := log _ w). set (w2 := unshiftOnReady i FlipReady w1).
  set (w3 := match rc with Some c => _ | None => w2 end).
  assert (R w w3) as H3.
  { apply (R_trans _ w1); [by apply frame_log_fmap|].
    apply (R_trans _ w2); [apply frame_unshiftOnReady|].
    unfold w3. destruct rc; [apply frame_pushOnReady|done]. }
  destruct (_ && _).
  - intros [= <-]. eapply R_trans; [done|]. by apply R_heap.
  - intros Hdone. eapply R_trans; [done|by eapply frame_done].
Qed.

Lemma frame_create d k static rc w w' i : create d k static rc w = Normal (w', i) → R w w'.
Proof.
  unfold create. set (w0 := install_thunk d w).
  destruct (providers w0 !! d) as [p|] eqn:Hp; [|done].
  destruct (forEach (wait p)) as [fs|]; cbn [bind]; [|done].
  set (w1 := log _ w0). set (w2 := allocate d k static p w1).
  destruct (for_each (wire_subscriber d _) _ w2) as [w3|] eqn:H3; cbn [bind]; [|done].
  destruct (for_each (wire_subscribeTo d _) _ w3) as [w4|] eqn:H4; cbn [bind]; [|done].
  destruct (finish d _ p rc w4) as [w5|] eqn:H5; cbn [bind]; [|done].
  intros [= <- <-].
  apply (R_trans _ w0); [apply R_thunk|].
  apply (R_trans _ w1); [by apply frame_log_fmap|].
  apply (R_trans _ w2); [apply R_allocate; [done|by eapply install_thunk_hasThunk]|].
  apply (R_trans _ w3); [eapply frame_for_each, H3; apply frame_wire_subscriber|].
  apply (R_trans _ w4); [eapply frame_for_each, H4; apply frame_wire_subscribeTo|].
  by eapply frame_finish.
Qed.

(** An instantiation, once the consumer's [relevantProviders] is marked. *)
Lemma frame_instantiate_after_mark w d a p w' i :
  providers w !! d = Some p →
  match lookup_instance w p (resolved_key d a) with
  | Some i0 =>
      match (resolve d a).2 with
      | Some c =>
          if instance_ready w i0 then Normal (run_ready_cb i0 (Caller c) w, i0)
          else Normal (pushOnReady i0 (Caller c) w, i0)
      | None => Normal (w, i0)
      end
  | None => create d (resolved_key d a) (resolve d a).1.2 (resolve d a).2 w
  end = Normal (w', i) →
  R w w'.
Proof.
  intros Hp. destruct (lookup_instance w p _) as [i0|].
  - destruct (resolve d a).2 as [c|]; [|by intros [= <- <-]].
    destruct (instance_ready w i0); intros [= <- <-].
    + apply (frame_run_ready_cb i0 (Caller c) w).
    + apply frame_pushOnReady.
  - apply frame_create.
Qed.

Lemma frame_instantiate_fresh w d a w' i :
  instantiateProvider w Fresh d a = Normal (w', i) → R w w'.
Proof.
  unfold instantiateProvider. destruct (providers w !! d) as [p|] eqn:Hp; [|done].
  destruct (resolve d a) as [[k static] rc] eqn:Hres.
  intros H. apply (frame_instantiate_after_mark w d a p w' i Hp).
  unfold resolved_key. by rewrite Hres.
Qed.

Lemma frame_gather_loop j entries : ∀ idx w w',
  gather_loop j idx entries w = Normal w' → R w w'.
Proof.
  induction entries as [|[|d] rest IH]; intros idx w w'; cbn [gather_loop]; [|done|].
  - by intros [= <-].
  - set (w0 := upd_joins _ w).
    destruct (instantiateProvider w0 Fresh d _) as [[w1 i]|] eqn:Hcall; cbn [bind]; [|done].
    intros Hloop. eapply R_trans; [apply R_joins|]. fold w0.
    eapply R_trans; [by eapply frame_instantiate_fresh|by eapply IH].
Qed.

Lemma frame_getResultInstances result callback w w' j :
  getResultInstances result callback w = Normal (w', j) → R w w'.
Proof.
  gather_cases result Hns. case_bool_decide.
  - intros [= <- <-]. eapply R_trans; [apply R_joins|].
    eapply R_trans; [apply R_joins|apply frame_join_clear].
  - destruct (gather_loop _ 0 _ _) as [w2|] eqn:Hloop; cbn [bind]; [|done].
    intros [= <- <-]. eapply R_trans; [apply R_joins|by eapply frame_gather_loop].
Qed.

Lemma frame_store_ready i w w' : store_ready i w = Normal w' → R w w'.
Proof.
  unfold store_ready. destruct (heap w !! i) as [x|]; [|by intros [= <-]].
  destruct (awaiting x); [|by intros [= <-]].
  intros Hdone. apply (R_trans _ (upd_heap (alter (set_awaiting false) i) w));
    [by apply R_heap|by eapply frame_done].
Qed.

Lemma frame_store_change i w : R w (store_change i w).
Proof.
  apply R_log. unfold listener_calls. destruct (heap w !! i) as [x|]; [|constructor].
  induction (listeners x) as [|l ls IH]; [constructor|]. cbn [flat_map].
  apply Forall_app. split; [|done]. apply Forall_fmap, Forall_forall. by intros.
Qed.

(** The consumer's mark included. *)
Hypothesis R_relevant : ∀ f w, R w (upd_relevant f w).

Lemma frame_instantiate w fi d a w' i :
  instantiateProvider w fi d a = Normal (w', i) → R w w'.
Proof.
  destruct fi; [|apply frame_instantiate_fresh].
  unfold instantiateProvider. destruct (providers w !! d) as [p|] eqn:Hp; [|done].
  destruct (resolve d a) as [[k static] rc] eqn:Hres.
  set (w1 := upd_relevant _ w). intros H.
  eapply R_trans; [apply R_relevant|]. fold w1.
  apply (frame_instantiate_after_mark w1 d a p w' i Hp).
  unfold resolved_key. rewrite Hres. exact H.
Qed.

Lemma frame_perform o w w' : perform o w = Normal w' → R w w'.
Proof.
  destruct o as [fi d a|result callback|i|i]; cbn [perform].
  - destruct (instantiateProvider w fi d a) as [[w1 i]|] eqn:Hcall; cbn [bind]; [|done].
    intros [= <-]. by eapply frame_instantiate.
  - destruct (getResultInstances result callback w) as [[w1 j]|] eqn:Hcall; cbn [bind]; [|done].
    intros [= <-]. by eapply frame_getResultInstances.
  - apply frame_store_ready.
  - intros [= <-]. apply frame_store_change.
Qed.

Lemma frame_reachable w0 w : reachable w0 w → R w0 w.
Proof.
  induction 1 as [|w o w' _ IH _ Hstep]; [done|].
  eapply R_trans; [done|by eapply frame_perform].
Qed.

End Frame.

End FrameFacts.

(* ===================================================================== *)
(** ** Stores, thunks and instances over a run                           *)
(* ===================================================================== *)

Module LifecycleFacts.
Import Js Provider ProviderSpec Lifecycle ProviderFacts FrameFacts.
Local Open Scope nat_scope.

Lemma count_ordinary_store es :
  Forall (λ e, ordinary e = true) es → count is_store es = 0.
Proof.
  induction 1 as [|e es He _ IH]; [done|]. rewrite count_cons, IH.
  unfold ordinary in He. by destruct (is_store e).
Qed.

Lemma count_ordinary_middleware d es :
  Forall (λ e, ordinary e = true) es → count (is_middleware d) es = 0.
Proof.
  induction 1 as [|e es He _ IH]; [done|]. rewrite count_cons, IH.
  unfold ordinary in He. by destruct e; simpl in *; rewrite ?andb_false_r in He.
Qed.

(** *** One store for each instance *)

Lemma store_each_reachable w0 w : reachable w0 w → store_each w0 w.
Proof.
  apply (frame_reachable store_each); unfold store_each.
  - done.
  - intros w1 w2 w3. lia.
  - intros es w1 Hes. cbn [heap trace log]. rewrite count_app, (count_ordinary_store es Hes). lia.
  - intros g i w1 _ _. cbn [heap trace upd_heap]. by rewrite length_alter.
  - done.
  - done.
  - intros d w1. unfold install_thunk. destruct (providers w1 !! d) as [p|]; [|done].
    destruct (hasThunk p); [done|]. cbn [heap trace log upd_providers].
    rewrite count_app, count_cons, count_nil. cbn [is_store]. lia.
  - intros d k static p w1 _ _. rewrite allocate_heap, allocate_trace, length_app, count_app.
    rewrite count_cons, count_nil. cbn [is_store length]. lia.
  - done.
Qed.

(** *** Instances stay what they are *)

Lemma persists_reachable w0 w : reachable w0 w → persists w0 w.
Proof.
  apply (frame_reachable persists); unfold persists.
  - intros w1 i x Hx. by exists x.
  - intros w1 w2 w3 H12 H23 i x Hx.
    destruct (H12 i x Hx) as (x2 & Hx2 & Hid2 & Hr2).
    destruct (H23 i x2 Hx2) as (x3 & Hx3 & Hid3 & Hr3).
    exists x3. split_and!; [done|congruence|auto].
  - intros es w1 _ i x Hx. by exists x.
  - intros g i w1 Hid Hr j x Hx. cbn [heap upd_heap].
    destruct (decide (i = j)) as [->|Hne].
    + exists (g x). rewrite list_lookup_alter_eq, Hx. split_and!; [done|apply Hid|apply Hr].
    + exists x. by rewrite list_lookup_alter_ne.
  - intros f w1 i x Hx. by exists x.
  - intros g k w1 _ _ i x Hx. by exists x.
  - intros d w1 i x Hx. exists x. split_and!; [|done..].
    unfold install_thunk. destruct (providers w1 !! d) as [p|]; [|done].
    by destruct (hasThunk p).
  - intros d k static p w1 _ _ i x Hx. exists x. split_and!; [|done..].
    rewrite allocate_heap. by apply lookup_app_l_Some.
  - intros f w1 i x Hx. by exists x.
Qed.

(** *** The middleware is installed once *)

Lemma hasThunk_of_alter g k w d :
  (∀ p, conduct (g p) = conduct p) →
  hasThunk_of (upd_providers (alter g k) w) d = hasThunk_of w d.
Proof.
  intros Hg. unfold hasThunk_of. cbn [providers upd_providers].
  destruct (decide (k = d)) as [->|Hne].
  - rewrite lookup_alter_eq. destruct (providers w !! d) as [p|]; [|done]. cbn.
    specialize (Hg p). unfold conduct in Hg. congruence.
  - by rewrite lookup_alter_ne.
Qed.

Lemma hooked_same w w' :
  providers w' = providers w → heap w' = heap w → hooked w → hooked w'.
Proof. unfold hooked, hasThunk_of. intros -> ->. done. Qed.

Lemma hooked_heap g i w :
  (∀ x, identity (g x) = identity x) → hooked w → hooked (upd_heap (alter g i) w).
Proof.
  intros Hid [I2 I3]. split; [|done].
  intros j x. cbn [heap upd_heap]. destruct (decide (i = j)) as [->|Hne].
  - rewrite list_lookup_alter_eq. destruct (heap w !! j) as [y|] eqn:Hy; [|done].
    intros [= <-]. specialize (Hid y). unfold identity in Hid.
    replace (proto (g y)) with (proto y) by congruence. by apply (I2 j).
  - rewrite list_lookup_alter_ne by done. apply I2.
Qed.

Lemma hooked_providers g k w :
  (∀ p, conduct (g p) = conduct p) → hooked w → hooked (upd_providers (alter g k) w).
Proof.
  intros Hg [I2 I3]. split.
  - intros i x Hx. rewrite hasThunk_of_alter by done. by apply (I2 i).
  - intros d p. cbn [providers upd_providers]. destruct (decide (k = d)) as [->|Hne].
    + rewrite lookup_alter_eq. destruct (providers w !! d) as [p0|] eqn:Hp0; [|done].
      intros [= <-]. specialize (Hg p0). unfold conduct in Hg.
      injection Hg as _ Hth Hw Hc. rewrite Hth, Hw, Hc. by apply (I3 d).
    + rewrite lookup_alter_ne by done. apply I3.
Qed.

Lemma hasThunk_of_install d w d' :
  hasThunk_of (install_thunk d w) d'
  = if decide (d' = d) then bool_decide (defined w d) else hasThunk_of w d'.
Proof.
  unfold install_thunk, hasThunk_of, defined.
  destruct (providers w !! d) as [p|] eqn:Hp.
  - destruct (hasThunk p) eqn:Hth.
    + case_decide as Hd; [subst d'; by rewrite Hp, Hth|done].
    + cbn [providers log upd_providers].
      case_decide as Hd; [subst d'; by rewrite lookup_insert_eq|by rewrite lookup_insert_ne].
  - case_decide as Hd; [subst d'; by rewrite Hp|done].
Qed.

Lemma hooked_thunk d w : hooked w → hooked (install_thunk d w).
Proof.
  intros [I2 I3]. split.
  - intros i x Hx. rewrite hasThunk_of_install.
    assert (heap (install_thunk d w) = heap w) as Hh.
    { unfold install_thunk. destruct (providers w !! d) as [p|]; [|done].
      by destruct (hasThunk p). }
    rewrite Hh in Hx. specialize (I2 i x Hx). case_decide as Hd; [|done].
    subst d. unfold hasThunk_of, defined in *.
    destruct (providers w !! proto x); [by rewrite bool_decide_eq_true_2|done].
  - intros d' p'. unfold install_thunk.
    destruct (providers w !! d) as [p|] eqn:Hp; [|apply I3].
    destruct (hasThunk p) eqn:Hth; [apply I3|]. cbn [providers log upd_providers].
    destruct (decide (d = d')) as [->|Hne].
    + rewrite lookup_insert_eq. intros [= <-] _. cbn [wait clear set_thunk].
      split; intros f; by destruct (wait p), (clear p).
    + rewrite lookup_insert_ne by done. apply I3.
Qed.

Lemma hasThunk_of_allocate d k static p w d' :
  hasThunk_of (allocate d k static p w) d' = hasThunk_of w d'.
Proof.
  unfold hasThunk_of. rewrite allocate_providers.
  destruct (decide (d = d')) as [->|Hne].
  - rewrite lookup_alter_eq. by destruct (providers w !! d').
  - by rewrite lookup_alter_ne.
Qed.

Lemma hooked_allocate d k static p w :
  providers w !! d = Some p → hasThunk p = true →
  hooked w → hooked (allocate d k static p w).
Proof.
  intros Hp Hth [I2 I3]. split.
  - intros i x. rewrite hasThunk_of_allocate, allocate_heap. intros Hx.
    apply lookup_app_Some in Hx as [Hx|[_ Hx]]; [by apply (I2 i)|].
    apply list_lookup_singleton_Some in Hx as [_ <-]. cbn [proto].
    unfold hasThunk_of. by rewrite Hp.
  - intros d' p'. rewrite allocate_providers.
    destruct (decide (d = d')) as [->|Hne].
    + rewrite lookup_alter_eq, Hp. intros [= <-]. cbn. by apply (I3 d').
    + rewrite lookup_alter_ne by done. apply I3.
Qed.

(** The hypotheses of the frame for [hooked]. *)
Ltac hooked_frame :=
  first [ done
        | by auto
        | by (intros; apply hooked_heap)
        | by (intros; apply hooked_providers)
        | by (intros; apply hooked_thunk)
        | by (intros; eapply hooked_allocate) ].

Lemma hooked_create d k static rc w w' i :
  create d k static rc w = Normal (w', i) → hooked w → hooked w'.
Proof. apply (frame_create (λ w w', hooked w → hooked w')); hooked_frame. Qed.

Lemma hooked_perform o w w' : perform o w = Normal w' → hooked w → hooked w'.
Proof. apply (frame_perform (λ w w', hooked w → hooked w')); hooked_frame. Qed.

Lemma installed_frame w0 w : reachable w0 w → installed w0 → installed w.
Proof.
  apply (frame_reachable (λ w w', installed w → installed w')).
  - done.
  - auto.
  - intros es w1 Hes [I1 Hh]. split; [|done].
    intros d. cbn [trace log]. rewrite count_app, (count_ordinary_middleware d es Hes), Nat.add_0_r.
    apply I1.
  - intros g i w1 Hid _ [I1 Hh]. split; [done|by apply hooked_heap].
  - done.
  - intros g k w1 Hg _ [I1 Hh]. split; [|by apply hooked_providers].
    intros d. rewrite hasThunk_of_alter by done. apply I1.
  - intros d w1 [I1 Hh]. split; [|by apply hooked_thunk].
    intros d'. rewrite hasThunk_of_install. unfold install_thunk, defined.
    specialize (I1 d'). unfold hasThunk_of in I1.
    destruct (providers w1 !! d) as [p|] eqn:Hp.
    + destruct (hasThunk p) eqn:Hth.
      * case_decide as Hd; [|done]. subst d'. rewrite Hp, Hth in I1.
        by rewrite bool_decide_eq_true_2.
      * cbn [trace log upd_providers]. rewrite count_app, count_cons, count_nil, I1.
        cbn [is_middleware]. case_decide as Hd.
        -- subst d'. rewrite Hp, Hth, String.eqb_refl. by rewrite bool_decide_eq_true_2.
        -- destruct (String.eqb_spec d' d); [done|]. unfold hasThunk_of. lia.
    + case_decide as Hd; [|done]. subst d'. rewrite Hp in I1.
      rewrite bool_decide_eq_false_2; [done|]. by intros [? ?].
  - intros d k static p w1 Hp Hth [I1 Hh]. split; [|by eapply hooked_allocate].
    intros d'. rewrite hasThunk_of_allocate, allocate_trace, count_app, count_cons, count_nil.
    cbn [is_middleware]. rewrite !Nat.add_0_r. apply I1.
  - done.
Qed.

End LifecycleFacts.

(* ===================================================================== *)
(** ** The life of an instance                                           *)
(* ===================================================================== *)

Module LifecycleTheorems.
Import Js Provider ProviderSpec Lifecycle Examples ProviderFacts FrameFacts LifecycleFacts.
Local Open Scope nat_scope.

(** Every instance has its own store and no store is built besides:
    in a world reached from a fresh context as many stores were built as
    there are instances. *)
Theorem one_store_per_instance w0 w :
  initial w0 → reachable w0 w → count is_store (trace w) = length (heap w).
Proof.
  intros (_ & _ & _ & Hh & _ & Ht) Hreach.
  pose proof (store_each_reachable _ _ Hreach) as H. unfold store_each in H.
  rewrite Hh, Ht in H. cbn in H. lia.
Qed.

Lemma one_store_per_instance_witness :
  count is_store (trace (world_after [Instantiate Consumer "list" (Short None);
                                      Instantiate Consumer "user" (Short None);
                                      Instantiate Fresh "list" (Short None)] fresh_world))
  = length (heap (world_after [Instantiate Consumer "list" (Short None);
                               Instantiate Consumer "user" (Short None);
                               Instantiate Fresh "list" (Short None)] fresh_world)).
Proof.
  apply (one_store_per_instance fresh_world _ fresh_world_initial).
  apply (reachable_run [Instantiate Consumer "list" (Short None);
                        Instantiate Consumer "user" (Short None);
                        Instantiate Fresh "list" (Short None)]); vm_compute; reflexivity.
Defined.

(** Whatever happens later, an instance stays in place with the
    definition, key and [isStatic] it was created with, and once it is
    ready it stays ready. *)
Theorem instance_persists w w' i x :
  reachable w w' → heap w !! i = Some x →
  ∃ x', heap w' !! i = Some x'
        ∧ proto x' = proto x ∧ providerKey x' = providerKey x ∧ isStatic x' = isStatic x
        ∧ (ready x = true → ready x' = true).
Proof.
  intros Hreach Hx. destruct (persists_reachable _ _ Hreach i x Hx) as (x' & Hx' & Hid & Hr).
  exists x'. unfold identity in Hid. injection Hid as H1 H2 H3. by split_and!.
Qed.

Lemma instance_persists_witness :
  ∃ x', heap (world_after [Instantiate Consumer "user" (Short None);
                           Instantiate Consumer "list" (Full (Literal "other") None);
                           StoreReady 1; StoreChange 1] fresh_world) !! 0 = Some x'
        ∧ proto x' = "user" ∧ providerKey x' = "user" ∧ isStatic x' = true
        ∧ (true = true → ready x' = true).
Proof.
  refine (instance_persists
            (world_after [Instantiate Consumer "user" (Short None)] fresh_world)
            (world_after [Instantiate Consumer "user" (Short None);
                          Instantiate Consumer "list" (Full (Literal "other") None);
                          StoreReady 1; StoreChange 1] fresh_world)
            0 (Instance "user" "user" true true [FlipReady] [] false) _ _).
  - apply (reachable_run [Instantiate Consumer "list" (Full (Literal "other") None);
                          StoreReady 1; StoreChange 1]); vm_compute; reflexivity.
  - vm_compute. reflexivity.
Defined.

(** When no definition is marked [hasThunk] at the start, the middleware
    of a definition is installed at most once, it is installed for the
    definition of every instance, and the [wait] and [clear] hooks of a
    definition it is installed for are arrays. *)
Theorem middleware_once w0 w :
  initial w0 → (∀ d, hasThunk_of w0 d = false) → reachable w0 w →
  (∀ d, count (is_middleware d) (trace w) ≤ 1)
  ∧ (∀ i x, heap w !! i = Some x → count (is_middleware (proto x)) (trace w) = 1)
  ∧ (∀ d p, providers w !! d = Some p → hasThunk p = true →
            enumerable (wait p) ∧ enumerable (clear p)).
Proof.
  intros (_ & _ & _ & Hh & _ & Ht) Hth Hreach.
  destruct (installed_frame _ _ Hreach) as (I1 & I2 & I3).
  { split; [|split].
    - intros d. by rewrite Ht, Hth.
    - intros i x. by rewrite Hh.
    - intros d p Hp Hp'. specialize (Hth d). unfold hasThunk_of in Hth. rewrite Hp in Hth.
      congruence. }
  split_and!; [|intros i x Hx|done].
  - intros d. rewrite I1. destruct (hasThunk_of w d); lia.
  - by rewrite I1, (I2 i x Hx).
Qed.

Lemma middleware_once_witness :
  count (is_middleware "list")
    (trace (world_after [Instantiate Consumer "list" (Short None);
                         Instantiate Consumer "list" (Full (Literal "b") None)] fresh_world)) ≤ 1.
Proof.
  refine (proj1 (middleware_once fresh_world _ fresh_world_initial _ _) "list").
  - intros d. unfold hasThunk_of, fresh_world, definitions. cbn [providers].
    destruct (decide (d = "list")) as [->|H1]; [done|]. rewrite lookup_insert_ne by done.
    destruct (decide (d = "user")) as [->|H2]; [done|]. rewrite lookup_insert_ne by done.
    destruct (decide (d = "bare")) as [->|H3]; [done|]. by rewrite lookup_insert_ne.
  - apply (reachable_run [Instantiate Consumer "list" (Short None);
                          Instantiate Consumer "list" (Full (Literal "b") None)]);
      vm_compute; reflexivity.
Defined.

(** In a world reached from a fresh context the [instances] of a
    definition list exactly the instances created from it, each once. *)
Theorem instances_listed w0 w d :
  initial w0 → reachable w0 w →
  NoDup (instances_of w d)
  ∧ ∀ i, i ∈ instances_of w d ↔ ∃ x, heap w !! i = Some x ∧ proto x = d.
Proof.
  intros Hinit Hreach. destruct (wired_reachable _ _ Hinit Hreach) as [(_ & W2 & W3 & _) _].
  split; [apply W2|apply W3].
Qed.

Lemma instances_listed_witness :
  NoDup (instances_of (world_after [Instantiate Consumer "list" (Short None);
                                    Instantiate Consumer "list" (Full (Literal "b") None)]
                         fresh_world) "list")
  ∧ ∀ i, i ∈ instances_of (world_after [Instantiate Consumer "list" (Short None);
                                        Instantiate Consumer "list" (Full (Literal "b") None)]
                             fresh_world) "list"
         ↔ ∃ x, heap (world_after [Instantiate Consumer "list" (Short None);
                                   Instantiate Consumer "list" (Full (Literal "b") None)]
                        fresh_world) !! i = Some x ∧ proto x = "list".
Proof.
  apply (instances_listed fresh_world _ "list" fresh_world_initial).
  apply (reachable_run [Instantiate Consumer "list" (Short None);
                        Instantiate Consumer "list" (Full (Literal "b") None)]);
    vm_compute; reflexivity.
Defined.

(** *** The consumer's relevant providers *)

Section Relevant.

Lemma same_relevant_thunk d w : same_relevant w (install_thunk d w).
Proof.
  unfold same_relevant, install_thunk. destruct (providers w !! d) as [p|]; [|done].
  by destruct (hasThunk p).
Qed.

Lemma same_relevant_allocate d k static p w : same_relevant w (allocate d k static p w).
Proof.
  unfold same_relevant, allocate, register. cbn.
  by destruct (match providers w !! d with Some _ => _ | None => _ end).
Qed.

Lemma relevant_after_mark w d a p w' i :
  providers w !! d = Some p →
  match lookup_instance w p (resolved_key d a) with
  | Some i0 =>
      match (resolve d a).2 with
      | Some c =>
          if instance_ready w i0 then Normal (run_ready_cb i0 (Caller c) w, i0)
          else Normal (pushOnReady i0 (Caller c) w, i0)
      | None => Normal (w, i0)
      end
  | None => create d (resolved_key d a) (resolve d a).1.2 (resolve d a).2 w
  end = Normal (w', i) →
  relevantProviders w' = relevantProviders w.
Proof.
  apply (frame_instantiate_after_mark same_relevant); unfold same_relevant; try done.
  - congruence.
  - apply same_relevant_thunk.
  - intros. apply same_relevant_allocate.
Qed.

Lemma relevant_fresh w d a w' i :
  instantiateProvider w Fresh d a = Normal (w', i) →
  relevantProviders w' = relevantProviders w.
Proof.
  apply (frame_instantiate_fresh same_relevant); unfold same_relevant; try done.
  - congruence.
  - apply same_relevant_thunk.
  - intros. apply same_relevant_allocate.
Qed.

Lemma relevant_getResultInstances result callback w w' j :
  getResultInstances result callback w = Normal (w', j) →
  relevantProviders w' = relevantProviders w.
Proof.
  apply (frame_getResultInstances same_relevant); unfold same_relevant; try done.
  - congruence.
  - apply same_relevant_thunk.
  - intros. apply same_relevant_allocate.
Qed.

Lemma relevant_store_ready i w w' :
  store_ready i w = Normal w' → relevantProviders w' = relevantProviders w.
Proof.
  apply (frame_store_ready same_relevant); unfold same_relevant; try done. congruence.
Qed.

End Relevant.

(** An instantiation on behalf of a consumer marks the resolved key in
    the consumer's [relevantProviders], whether the instance is found or
    created, and marks nothing else; an instantiation for another
    fauxInstance, a gathering of instances, a store becoming ready and a
    store change leave [relevantProviders] as it was. *)
Theorem relevant_marked :
  (∀ w d a w' i,
     instantiateProvider w Consumer d a = Normal (w', i) →
     relevantProviders w' = (λ r, {[resolved_key d a]} ∪ r) <$> relevantProviders w)
  ∧ (∀ w o w',
       (∀ d a, o ≠ Instantiate Consumer d a) →
       perform o w = Normal w' → relevantProviders w' = relevantProviders w).
Proof.
  split.
  - intros w d a w' i. unfold instantiateProvider.
    destruct (providers w !! d) as [p|] eqn:Hp; [|done].
    destruct (resolve d a) as [[k static] rc] eqn:Hres.
    set (w1 := upd_relevant _ w). intros H.
    rewrite (relevant_after_mark w1 d a p w' i Hp).
    + unfold w1, resolved_key. by rewrite Hres.
    + unfold resolved_key. rewrite Hres. exact H.
  - intros w o w' Hne. destruct o as [[|] d a|result callback|i|i]; cbn [perform].
    + by destruct (Hne d a).
    + destruct (instantiateProvider w Fresh d a) as [[w1 i]|] eqn:Hcall; cbn [bind]; [|done].
      intros [= <-]. by eapply relevant_fresh.
    + destruct (getResultInstances result callback w) as [[w1 j]|] eqn:Hcall;
        cbn [bind]; [|done].
      intros [= <-]. by eapply relevant_getResultInstances.
    + apply relevant_store_ready.
    + by intros [= <-].
Qed.

Lemma relevant_marked_witness :
  relevantProviders (world_after [Instantiate Consumer "list" (Full (Literal "b") None)]
                       fresh_world)
  = (λ r, {[resolved_key "list" (Full (Literal "b") None)]} ∪ r) <$> relevantProviders fresh_world.
Proof.
  apply (proj1 relevant_marked fresh_world "list" (Full (Literal "b") None) _ 0).
  vm_compute. reflexivity.
Defined.

(** *** One table for all definitions *)

Lemma global_flags_instantiate w fi d a w' i :
  instantiateProvider w fi d a = Normal (w', i) →
  isGlobal <$> providers w' = isGlobal <$> providers w.
Proof.
  apply (frame_instantiate (λ w w', isGlobal <$> providers w' = isGlobal <$> providers w));
    try done.
  - congruence.
  - intros g k w1 Hg _. cbn [providers upd_providers]. apply fmap_alter_same.
    intros q. specialize (Hg q). unfold conduct in Hg. congruence.
  - intros d1 w1. unfold install_thunk. destruct (providers w1 !! d1) as [q|] eqn:Hq; [|done].
    destruct (hasThunk q); [done|]. cbn [providers log upd_providers].
    rewrite fmap_insert. apply map_eq. intros d2. destruct (decide (d1 = d2)) as [->|Hne].
    + by rewrite lookup_insert_eq, lookup_fmap, Hq.
    + by rewrite lookup_insert_ne.
  - intros d1 k static q w1 _ _. rewrite allocate_providers. by apply fmap_alter_same.
Qed.

(** The tables are keyed by the provider key alone.  Once an
    instantiation of one definition has returned an instance for a key,
    an instantiation of another definition that consults the same table
    with that key returns that instance, and creates nothing. *)
Theorem key_shared_by_definitions w fi fi' d d' a a' p p' w1 i :
  instantiateProvider w fi d a = Normal (w1, i) →
  providers w !! d = Some p → providers w !! d' = Some p' →
  isGlobal p' = isGlobal p →
  isGlobal p = true ∨ is_Some (providerInstances w) →
  resolved_key d' a' = resolved_key d a →
  ∃ w2, instantiateProvider w1 fi' d' a' = Normal (w2, i)
        ∧ length (heap w2) = length (heap w1)
        ∧ count is_store (trace w2) = count is_store (trace w1).
Proof.
  intros Hcall Hp Hp' Hglobal Htab Hkey.
  assert (finds w1 d (resolved_key d a) = Some i) as Hfinds.
  { eapply instantiate_registers; [exact Hcall|]. unfold has_table. by rewrite Hp. }
  apply finds_Some in Hfinds as (q & Hq & Hlook).
  assert (∃ q', providers w1 !! d' = Some q' ∧ isGlobal q' = isGlobal q) as (q' & Hq' & Hg).
  { pose proof (global_flags_instantiate _ _ _ _ _ _ Hcall) as Hsame.
    assert (isGlobal <$> providers w1 !! d' = Some (isGlobal p')) as H1
      by (by rewrite <- lookup_fmap, Hsame, lookup_fmap, Hp').
    assert (isGlobal <$> providers w1 !! d = Some (isGlobal p)) as H2
      by (by rewrite <- lookup_fmap, Hsame, lookup_fmap, Hp).
    rewrite Hq in H2. destruct (providers w1 !! d') as [q'|]; [|done].
    exists q'. split; [done|]. cbn in H1, H2. congruence. }
  destruct (instantiate_found w1 fi' d' a' q' i Hq') as (w2 & Hcall2 & Hc).
  { rewrite Hkey. unfold lookup_instance in *. by rewrite Hg. }
  exists w2. apply calm_counts in Hc as (Hr & Hs & _).
  split_and!; [done|by apply registry_length|done].
Qed.

Lemma key_shared_by_definitions_witness :
  ∃ w2, instantiateProvider
          (world_after [Instantiate Consumer "list" (Full (Literal "k") None)] fresh_world)
          Consumer "user" (Full (Computed "k") None) = Normal (w2, 0)
        ∧ length (heap w2)
          = length (heap (world_after [Instantiate Consumer "list" (Full (Literal "k") None)]
                            fresh_world))
        ∧ count is_store (trace w2)
          = count is_store
              (trace (world_after [Instantiate Consumer "list" (Full (Literal "k") None)]
                        fresh_world)).
Proof.
  apply (key_shared_by_definitions fresh_world Consumer Consumer "list" "user"
           (Full (Literal "k") None) (Full (Computed "k") None) list_provider user_provider).
  - vm_compute. reflexivity.
  - vm_compute. reflexivity.
  - vm_compute. reflexivity.
  - reflexivity.
  - right. vm_compute. eexists. reflexivity.
  - reflexivity.
Defined.

End LifecycleTheorems.

(* ===================================================================== *)
(** ** Instantiation does not throw                                      *)
(* ===================================================================== *)

Module ProgressFacts.
Import Js Provider ProviderSpec Lifecycle Examples MergeFacts ProviderFacts FrameFacts LifecycleFacts.
Local Open Scope nat_scope.

(** *** The names of the definitions do not change *)

Lemma same_names_refl w : same_names w w.
Proof. by intros k. Qed.

Lemma same_names_trans w1 w2 w3 : same_names w1 w2 → same_names w2 w3 → same_names w1 w3.
Proof. intros H12 H23 k. etrans; [apply H23|apply H12]. Qed.

Lemma same_names_silent w w' : providers w' = providers w → same_names w w'.
Proof. intros H k. unfold defined. by rewrite H. Qed.

Lemma same_names_alter g k w : same_names w (upd_providers (alter g k) w).
Proof.
  intros k'. unfold defined. cbn [providers upd_providers].
  destruct (decide (k = k')) as [->|Hne].
  - rewrite lookup_alter_eq. by rewrite fmap_is_Some.
  - by rewrite lookup_alter_ne.
Qed.

Lemma same_names_thunk d w : same_names w (install_thunk d w).
Proof.
  unfold install_thunk. destruct (providers w !! d) as [p|] eqn:Hp; [|done].
  destruct (hasThunk p); [done|]. intros k. unfold defined. cbn [providers log upd_providers].
  destruct (decide (d = k)) as [->|Hne].
  - rewrite lookup_insert_eq, Hp. split; by eexists.
  - by rewrite lookup_insert_ne.
Qed.

Lemma same_names_allocate d k static p w : same_names w (allocate d k static p w).
Proof.
  intros k'. unfold defined. rewrite allocate_providers.
  destruct (decide (d = k')) as [->|Hne].
  - rewrite lookup_alter_eq. by rewrite fmap_is_Some.
  - by rewrite lookup_alter_ne.
Qed.

Ltac names_frame :=
  first [ done
        | apply same_names_refl
        | apply same_names_trans
        | by (intros; apply same_names_alter)
        | by (intros; apply same_names_thunk)
        | by (intros; apply same_names_allocate) ].

Lemma same_names_perform o w w' : perform o w = Normal w' → same_names w w'.
Proof. apply (frame_perform same_names); names_frame. Qed.

Lemma same_names_instantiate w fi d a w' i :
  instantiateProvider w fi d a = Normal (w', i) → same_names w w'.
Proof. apply (frame_instantiate same_names); names_frame. Qed.

Lemma same_names_reachable w0 w : reachable w0 w → same_names w0 w.
Proof. apply (frame_reachable same_names); names_frame. Qed.

(** *** Changes that leave the definitions alone *)

Lemma providers_done d i w w' : done d i w = Normal w' → providers w' = providers w.
Proof. apply (frame_done (λ w w', providers w' = providers w)); try done. congruence. Qed.

Lemma providers_finish d i p rc w w' :
  finish d i p rc w = Normal w' → providers w' = providers w.
Proof. apply (frame_finish (λ w w', providers w' = providers w)); try done. congruence. Qed.

Lemma linked_same w w' :
  edges <$> providers w' = edges <$> providers w → linked w → linked w'.
Proof.
  intros He Hl.
  assert (∀ k, defined w k → defined w' k) as Hdef.
  { intros k [p Hp]. unfold defined.
    assert ((edges <$> providers w') !! k = Some (edges p)) as H
      by (by rewrite He, lookup_fmap, Hp).
    rewrite lookup_fmap in H. destruct (providers w' !! k); [by eexists|done]. }
  intros d p' Hp'.
  assert ((edges <$> providers w) !! d = Some (edges p')) as H
    by (by rewrite <- He, lookup_fmap, Hp').
  rewrite lookup_fmap in H. destruct (providers w !! d) as [p|] eqn:Hp; [|done].
  injection H as Hs Ht. destruct (Hl d p Hp) as [H1 H2].
  rewrite <- Hs, <- Ht. split; intros k Hk; apply Hdef; auto.
Qed.

Lemma edges_thunk d w : edges <$> providers (install_thunk d w) = edges <$> providers w.
Proof.
  unfold install_thunk. destruct (providers w !! d) as [p|] eqn:Hp; [|done].
  destruct (hasThunk p); [done|]. cbn [providers log upd_providers].
  rewrite fmap_insert. apply map_eq. intros k. destruct (decide (d = k)) as [->|Hne].
  - by rewrite lookup_insert_eq, lookup_fmap, Hp.
  - by rewrite lookup_insert_ne.
Qed.

Lemma edges_allocate d k static p w :
  edges <$> providers (allocate d k static p w) = edges <$> providers w.
Proof. rewrite allocate_providers. by apply fmap_alter_same. Qed.

(** *** The wiring loops go through *)

Lemma elem_of_keys_set_prop {A} k k' (v : A) ps :
  k ∈ keys (set_prop k' v ps) → k = k' ∨ k ∈ keys ps.
Proof.
  rewrite keys_set_prop. case_bool_decide; [by right|].
  rewrite elem_of_app, list_elem_of_singleton. tauto.
Qed.

Lemma linked_edge g d key w sub :
  providers w !! key = Some sub → defined w d → linked w →
  (∀ k, k ∈ keys (default [] (subscribers (g sub))) →
        k = d ∨ k ∈ keys (default [] (subscribers sub))) →
  (∀ k, k ∈ keys (default [] (subscribeTo (g sub))) →
        k = d ∨ k ∈ keys (default [] (subscribeTo sub))) →
  linked (upd_providers (alter g key) w).
Proof.
  intros Hsub Hd Hl Hs Ht d' p'. cbn [providers upd_providers].
  assert (∀ k, defined w k → defined (upd_providers (alter g key) w) k) as Hdef
    by (intros k; by rewrite (same_names_alter g key w k)).
  destruct (decide (key = d')) as [->|Hne].
  - rewrite lookup_alter_eq, Hsub. intros [= <-]. destruct (Hl d' sub Hsub) as [H1 H2].
    split; intros k Hk; apply Hdef.
    + destruct (Hs k Hk) as [->|Hk']; auto.
    + destruct (Ht k Hk) as [->|Hk']; auto.
  - rewrite lookup_alter_ne by done. intros Hp'. destruct (Hl d' p' Hp') as [H1 H2].
    split; intros k Hk; apply Hdef; auto.
Qed.

Lemma linked_heap f w : linked w → linked (upd_heap f w).
Proof. done. Qed.

Lemma linked_log es w : linked w → linked (log es w).
Proof. done. Qed.

Lemma wire_subscriber_ok d i kh w :
  linked w → defined w d → defined w kh.1 →
  ∃ w', wire_subscriber d i kh w = Normal w' ∧ linked w'.
Proof.
  destruct kh as [key handler]. intros Hl Hd [sub Hsub]. unfold wire_subscriber.
  cbn [fst] in Hsub. rewrite Hsub. eexists. split; [done|].
  apply linked_log, linked_heap. apply (linked_edge _ d key w sub); try done.
  - intros k. cbn. by right.
  - intros k. cbn. destruct (get_prop d _); [by right|]. apply elem_of_keys_set_prop.
Qed.

Lemma linked_fold_subscribe l is_ : ∀ w,
  linked w → linked (fold_left (λ w s, subscribe s l w) is_ w).
Proof. induction is_ as [|s is_ IH]; intros w Hl; cbn [fold_left]; [done|]. by apply IH. Qed.

Lemma wire_subscribeTo_ok d i kh w :
  linked w → defined w d → defined w kh.1 →
  ∃ w', wire_subscribeTo d i kh w = Normal w' ∧ linked w'.
Proof.
  destruct kh as [key handler]. intros Hl Hd [sup Hsup]. unfold wire_subscribeTo.
  cbn [fst] in Hsup. rewrite Hsup. eexists. split; [done|].
  apply linked_log. destruct (get_prop d _); [done|].
  apply linked_fold_subscribe. apply (linked_edge _ d key w sup); try done.
  - intros k. cbn. apply elem_of_keys_set_prop.
  - intros k. cbn. by right.
Qed.

Lemma for_each_ok {A} (f : A → world → completion world) (key : A → string) xs w0 :
  (∀ x w, linked w → same_names w0 w → defined w0 (key x) →
          ∃ w', f x w = Normal w' ∧ linked w' ∧ same_names w w') →
  ∀ w, linked w → same_names w0 w → Forall (λ x, defined w0 (key x)) xs →
       ∃ w', for_each f xs w = Normal w' ∧ linked w' ∧ same_names w0 w'.
Proof.
  intros Hf. induction xs as [|x xs IH]; intros w Hl Hn Hxs; cbn [for_each].
  - by exists w.
  - apply Forall_cons in Hxs as [Hx Hxs].
    destruct (Hf x w Hl Hn Hx) as (w1 & -> & Hl1 & Hn1). cbn [bind].
    apply IH; [done| |done]. by eapply same_names_trans.
Qed.

Lemma same_names_wire_subscriber d i kh w w' :
  wire_subscriber d i kh w = Normal w' → same_names w w'.
Proof. apply (frame_wire_subscriber same_names); names_frame. Qed.

Lemma same_names_wire_subscribeTo d i kh w w' :
  wire_subscribeTo d i kh w = Normal w' → same_names w w'.
Proof. apply (frame_wire_subscribeTo same_names); names_frame. Qed.

Lemma hasThunk_of_for_each {A} (f : A → world → completion world) xs d :
  (∀ x w w', f x w = Normal w' → hasThunk_of w' d = hasThunk_of w d) →
  ∀ w w', for_each f xs w = Normal w' → hasThunk_of w' d = hasThunk_of w d.
Proof.
  intros Hf.
  apply (frame_for_each (λ w w', hasThunk_of w' d = hasThunk_of w d)); [done|congruence|done].
Qed.

Lemma hasThunk_of_wire_subscriber d' d i kh w w' :
  wire_subscriber d i kh w = Normal w' → hasThunk_of w' d' = hasThunk_of w d'.
Proof.
  apply (frame_wire_subscriber (λ w w', hasThunk_of w' d' = hasThunk_of w d')); try done.
  - congruence.
  - intros g k w1 Hg _. by apply hasThunk_of_alter.
Qed.

Lemma hasThunk_of_wire_subscribeTo d' d i kh w w' :
  wire_subscribeTo d i kh w = Normal w' → hasThunk_of w' d' = hasThunk_of w d'.
Proof.
  apply (frame_wire_subscribeTo (λ w w', hasThunk_of w' d' = hasThunk_of w d')); try done.
  - congruence.
  - intros g k w1 Hg _. by apply hasThunk_of_alter.
Qed.

Lemma hooked_wire_subscriber d i kh w w' :
  wire_subscriber d i kh w = Normal w' → hooked w → hooked w'.
Proof. apply (frame_wire_subscriber (λ w w', hooked w → hooked w')); hooked_frame. Qed.

Lemma hooked_wire_subscribeTo d i kh w w' :
  wire_subscribeTo d i kh w = Normal w' → hooked w → hooked w'.
Proof. apply (frame_wire_subscribeTo (λ w w', hooked w → hooked w')); hooked_frame. Qed.

Lemma hooked_for_each {A} (f : A → world → completion world) xs :
  (∀ x w w', f x w = Normal w' → hooked w → hooked w') →
  ∀ w w', for_each f xs w = Normal w' → hooked w → hooked w'.
Proof. intros Hf. apply (frame_for_each (λ w w', hooked w → hooked w')); auto. Qed.

(** *** Creation goes through *)

Lemma forEach_enumerable c : enumerable c → ∃ fs, forEach c = Normal fs.
Proof. intros He. destruct c as [|f|fs]; [by eexists|by destruct (He f)|by eexists]. Qed.

Lemma done_ok d i w :
  (∀ p, providers w !! d = Some p → enumerable (clear p)) →
  ∃ w', done d i w = Normal w'.
Proof.
  intros Hc. unfold done. set (w1 := fold_left _ _ w).
  assert (providers w1 = providers w) as ->.
  { apply (frame_fold_run_ready_cb (λ w w', providers w' = providers w)); try done. congruence. }
  destruct (providers w !! d) as [p|]; [|by eexists].
  destruct (forEach_enumerable (clear p) (Hc p eq_refl)) as [fs ->]. by eexists.
Qed.

Lemma keys_defined (ps : list (string * nat)) w :
  (∀ k, k ∈ keys ps → defined w k) → Forall (λ x, defined w x.1) ps.
Proof.
  intros H. apply Forall_forall. intros [k h] Hin. apply H.
  apply list_elem_of_fmap. by exists (k, h).
Qed.

Lemma create_ok d k static rc w :
  well_formed w → defined w d →
  ∃ w' i, create d k static rc w = Normal (w', i) ∧ well_formed w'.
Proof.
  intros [Hh Hl] Hd.
  assert (∃ w' i, create d k static rc w = Normal (w', i) ∧ linked w') as (w' & i & Hc & Hl');
    [|exists w', i; split; [done|]; split; [by eapply hooked_create|done]].
  unfold create. set (w0 := install_thunk d w).
  pose proof (same_names_thunk d w) as Hn0. fold w0 in Hn0.
  destruct (proj2 (Hn0 d) Hd) as [p Hp]. rewrite Hp.
  pose proof (install_thunk_hasThunk d w p Hp) as Hth.
  destruct (hooked_thunk d w Hh) as [_ I3]. fold w0 in I3.
  destruct (I3 d p Hp Hth) as [Hwait Hclear].
  destruct (forEach_enumerable _ Hwait) as [fs ->]. cbn [bind].
  set (w1 := log _ w0). set (w2 := allocate d k static p w1).
  assert (linked w2) as Hl2.
  { apply (linked_same w); [|done]. unfold w2. rewrite edges_allocate. apply edges_thunk. }
  assert (same_names w w2) as Hn2.
  { eapply same_names_trans; [exact Hn0|]. apply (same_names_allocate d k static p w1). }
  assert (defined w2 d) as Hd2 by (by apply Hn2).
  assert (hasThunk_of w2 d = true) as Hth2.
  { unfold w2. rewrite hasThunk_of_allocate. unfold hasThunk_of, w1. cbn [providers log].
    by rewrite Hp. }
  destruct (for_each_ok (wire_subscriber d (length (heap w1))) fst (subscribers_of w2 d) w2)
    with (w := w2) as (w3 & H3 & Hl3 & Hn3); [|done|apply same_names_refl| |].
  { intros x w5 Hl5 Hn5 Hx.
    destruct (wire_subscriber_ok d (length (heap w1)) x w5) as (w6 & H6 & Hl6);
      [done|by apply Hn5|by apply Hn5|].
    exists w6. split_and!; [done..|]. by eapply same_names_wire_subscriber. }
  { apply keys_defined. unfold subscribers_of. destruct Hd2 as [p2 Hp2]. rewrite Hp2.
    apply (Hl2 d p2 Hp2). }
  rewrite H3. cbn [bind].
  destruct (for_each_ok (wire_subscribeTo d (length (heap w1))) fst (subscribeTo_of w3 d) w3)
    with (w := w3) as (w4 & H4 & Hl4 & Hn4); [|done|apply same_names_refl| |].
  { intros x w5 Hl5 Hn5 Hx.
    destruct (wire_subscribeTo_ok d (length (heap w1)) x w5) as (w6 & H6 & Hl6);
      [done|apply Hn5; by apply Hn3|by apply Hn5|].
    exists w6. split_and!; [done..|]. by eapply same_names_wire_subscribeTo. }
  { apply keys_defined. unfold subscribeTo_of.
    destruct (proj2 (Hn3 d) Hd2) as [p3 Hp3]. rewrite Hp3. apply (Hl3 d p3 Hp3). }
  rewrite H4. cbn [bind].
  assert (hasThunk_of w4 d = true) as Hth4.
  { rewrite (hasThunk_of_for_each _ _ d (λ x, hasThunk_of_wire_subscribeTo d d _ x) _ _ H4).
    rewrite (hasThunk_of_for_each _ _ d (λ x, hasThunk_of_wire_subscriber d d _ x) _ _ H3).
    done. }
  assert (∃ w5, finish d (length (heap w1)) p rc w4 = Normal w5) as [w5 H5].
  { unfold finish. destruct (_ && _); [by eexists|]. apply done_ok.
    intros p4. cbn [providers log unshiftOnReady upd_heap].
    assert (providers (match rc with
                       | Some c => pushOnReady (length (heap w1)) (Caller c)
                                     (unshiftOnReady (length (heap w1)) FlipReady
                                        (log ((λ f, EInstantiated f (length (heap w1)))
                                                <$> callback_list (onInstantiated p)) w4))
                       | None => unshiftOnReady (length (heap w1)) FlipReady
                                   (log ((λ f, EInstantiated f (length (heap w1)))
                                           <$> callback_list (onInstantiated p)) w4)
                       end) = providers w4) as -> by (by destruct rc).
    intros Hp4.
    assert (hooked w4) as [_ I34].
    { eapply (hooked_for_each _ _ (λ x, hooked_wire_subscribeTo d _ x)); [exact H4|].
      eapply (hooked_for_each _ _ (λ x, hooked_wire_subscriber d _ x)); [exact H3|].
      eapply hooked_allocate; [|done|by apply hooked_thunk].
      unfold w1. cbn [providers log]. exact Hp. }
    apply (I34 d p4 Hp4). unfold hasThunk_of in Hth4. by rewrite Hp4 in Hth4. }
  rewrite H5. cbn [bind]. eexists _, _. split; [done|].
  apply (linked_same w4); [|done]. by rewrite (providers_finish _ _ _ _ _ _ H5).
Qed.

(** *** Every action goes through *)

Lemma well_formed_same w w' :
  providers w' = providers w → heap w' = heap w → well_formed w → well_formed w'.
Proof.
  intros Hp Hh [H1 H2]. split; [by eapply hooked_same|].
  apply (linked_same w); [by rewrite Hp|done].
Qed.

Lemma well_formed_heap g i w :
  (∀ x, identity (g x) = identity x) → well_formed w → well_formed (upd_heap (alter g i) w).
Proof. intros Hg [H1 H2]. split; [by apply hooked_heap|done]. Qed.

Lemma well_formed_run_ready_cb i c w : well_formed w → well_formed (run_ready_cb i c w).
Proof.
  intros [H1 H2]. split.
  - revert H1. apply (frame_run_ready_cb (λ w w', hooked w → hooked w')); hooked_frame.
  - apply (linked_same w); [|done]. f_equal.
    apply (frame_run_ready_cb (λ w w', providers w' = providers w)); try done. congruence.
Qed.

Lemma instantiate_ok w fi d a :
  well_formed w → defined w d →
  ∃ w' i, instantiateProvider w fi d a = Normal (w', i) ∧ well_formed w'.
Proof.
  intros Hwf [p Hp]. unfold instantiateProvider. rewrite Hp.
  destruct (resolve d a) as [[k static] rc].
  set (w1 := match fi with Consumer => _ | Fresh => _ end).
  assert (well_formed w1) as Hwf1 by (unfold w1; destruct fi; by eapply well_formed_same).
  assert (defined w1 d) as Hd1 by (unfold w1, defined; destruct fi; by exists p).
  destruct (lookup_instance w p k) as [i0|].
  - destruct rc as [c|]; [|by eexists _, _].
    destruct (instance_ready w1 i0); eexists _, _; (split; [done|]).
    + apply (well_formed_run_ready_cb i0 (Caller c) w1 Hwf1).
    + by apply well_formed_heap.
  - by apply create_ok.
Qed.

Lemma gather_loop_ok j entries : ∀ idx w,
  well_formed w → Forall (names_definition w) entries →
  ∃ w', gather_loop j idx entries w = Normal w' ∧ well_formed w'.
Proof.
  induction entries as [|e rest IH]; intros idx w Hwf Hds; cbn [gather_loop].
  - by exists w.
  - apply Forall_cons in Hds as [(d & -> & Hd) Hds]. set (w0 := upd_joins _ w).
    destruct (instantiate_ok w0 Fresh d (Short (Some (Gathered j idx))))
      as (w1 & i & Hcall & Hwf1); [by eapply well_formed_same|done|].
    rewrite Hcall. cbn [bind fst]. apply IH; [done|].
    eapply Forall_impl; [exact Hds|]. intros e' (d' & -> & Hd'). exists d'. split; [done|].
    by apply (same_names_instantiate _ _ _ _ _ _ Hcall d').
Qed.

Lemma well_formed_join_clear j w : well_formed w → well_formed (join_clear j w).
Proof.
  apply well_formed_same.
  - apply (frame_join_clear (λ w w', providers w' = providers w)); try done. congruence.
  - apply (frame_join_clear (λ w w', heap w' = heap w)); try done. congruence.
Qed.

Lemma getResultInstances_ok result callback w :
  well_formed w → result ≠ Sized → Forall (names_definition w) (entries_of result) →
  ∃ w' j, getResultInstances result callback w = Normal (w', j) ∧ well_formed w'.
Proof.
  intros Hwf Hns Hds. unfold getResultInstances. rewrite (not_sized _ _ _ Hns).
  case_bool_decide.
  - eexists _, _. split; [done|]. apply well_formed_join_clear. by eapply well_formed_same.
  - set (w1 := upd_joins _ w).
    destruct (gather_loop_ok (length (joins w)) (entries_of result) 0 w1) as (w2 & -> & Hwf2);
      [by eapply well_formed_same|done|].
    cbn [bind]. by eexists _, _.
Qed.

Lemma store_ready_ok i w :
  well_formed w → ∃ w', store_ready i w = Normal w' ∧ well_formed w'.
Proof.
  intros Hwf.
  assert (∃ w', store_ready i w = Normal w') as [w' Hw'].
  { unfold store_ready. destruct (heap w !! i) as [x|] eqn:Hx; [|by eexists].
    destruct (awaiting x); [|by eexists]. apply done_ok. cbn [providers upd_heap].
    intros p Hp. destruct Hwf as [[I2 I3] _]. apply (I3 (proto x) p Hp).
    specialize (I2 i x Hx). unfold hasThunk_of in I2. by rewrite Hp in I2. }
  exists w'. split; [done|]. destruct Hwf as [H1 H2]. split.
  - revert H1. revert Hw'.
    apply (frame_store_ready (λ w w', hooked w → hooked w')); hooked_frame.
  - apply (linked_same w); [|done]. f_equal. revert Hw'.
    apply (frame_store_ready (λ w w', providers w' = providers w)); try done. congruence.
Qed.

Lemma perform_ok o w :
  well_formed w → names_definitions w o →
  ∃ w', perform o w = Normal w' ∧ well_formed w'.
Proof.
  intros Hwf Hn. destruct o as [fi d a|result callback|i|i]; cbn [perform].
  - destruct (instantiate_ok w fi d a Hwf Hn) as (w' & i & -> & Hwf'). by exists w'.
  - destruct Hn as [Hns Hn].
    destruct (getResultInstances_ok result callback w Hwf Hns Hn) as (w' & j & -> & Hwf').
    by exists w'.
  - by apply store_ready_ok.
  - eexists. split; [done|]. by eapply well_formed_same.
Qed.

Lemma instantiate_defined w fi d a w' i :
  instantiateProvider w fi d a = Normal (w', i) → defined w d.
Proof.
  unfold instantiateProvider, defined. destruct (providers w !! d); [by eexists|done].
Qed.

Lemma gather_loop_defined j entries : ∀ idx w w',
  gather_loop j idx entries w = Normal w' → Forall (names_definition w) entries.
Proof.
  induction entries as [|[|d] rest IH]; intros idx w w'; cbn [gather_loop];
    [by constructor|done|].
  set (w0 := upd_joins _ w).
  destruct (instantiateProvider w0 Fresh d _) as [[w1 i]|] eqn:Hcall; cbn [bind]; [|done].
  intros Hloop. constructor.
  - exists d. split; [done|]. by apply instantiate_defined in Hcall.
  - apply IH in Hloop. eapply Forall_impl; [exact Hloop|]. intros e' (d' & -> & Hd').
    exists d'. split; [done|].
    by apply (same_names_instantiate _ _ _ _ _ _ Hcall d') in Hd'.
Qed.

Lemma perform_defined o w w' : perform o w = Normal w' → names_definitions w o.
Proof.
  destruct o as [fi d a|result callback|i|i]; cbn [perform names_definitions]; try done.
  - destruct (instantiateProvider w fi d a) as [[w1 i]|] eqn:Hcall; cbn [bind]; [|done].
    intros _. by eapply instantiate_defined.
  - gather_cases result Hns. split; [done|]. revert H. case_bool_decide as Hn.
    + intros _. destruct (entries_of result); [constructor|done].
    + destruct (gather_loop _ 0 _ _) as [w2|] eqn:Hloop; cbn [bind]; [|done].
      intros _. by apply gather_loop_defined in Hloop.
Qed.

Lemma well_formed_reachable w0 w : well_formed w0 → reachable w0 w → well_formed w.
Proof.
  intros Hwf. induction 1 as [|w o w' _ IH _ Hstep]; [done|].
  destruct (perform_ok o w IH (perform_defined _ _ _ Hstep)) as (w2 & Hstep2 & Hwf2).
  rewrite Hstep in Hstep2. by injection Hstep2 as <-.
Qed.

(** In a context where every key of a [subscribers] or [subscribeTo]
    object names a definition and every definition already marked
    [hasThunk] has its hooks in arrays, the following complete without
    throwing in every world reached from it: an instantiation of a
    definition of the context; [getResultInstances] for a result that is
    falsy or has no length, or that is an array none of whose entries is
    [null] or [undefined] and for each of which [findProvider] picks a
    definition of the context; a store reporting ready; a store change.
    (An entry that is [null] or [undefined], and a result with a length
    that is no array, end [getResultInstances] in a [TypeError].) *)
Theorem never_throws w0 w o :
  well_formed w0 → reachable w0 w → names_definitions w0 o →
  ∃ w', perform o w = Normal w'.
Proof.
  intros Hwf Hreach Hn.
  pose proof (well_formed_reachable _ _ Hwf Hreach) as Hwf'.
  pose proof (same_names_reachable _ _ Hreach) as Hsame.
  destruct (perform_ok o w Hwf') as (w' & Hw' & _); [|by exists w'].
  destruct o as [fi d a|result callback|i|i]; cbn [names_definitions] in *; try done.
  - by apply Hsame.
  - destruct Hn as [Hns Hn]. split; [done|].
    eapply Forall_impl; [exact Hn|]. intros e (d & -> & Hd). exists d. split; [done|].
    by apply Hsame.
Qed.

Lemma fresh_world_well_formed : well_formed fresh_world.
Proof.
  assert (map_Forall (λ _ p,
            (hasThunk p = true → enumerable (wait p) ∧ enumerable (clear p))
            ∧ (∀ k, k ∈ keys (default [] (subscribers p)) → defined fresh_world k)
            ∧ (∀ k, k ∈ keys (default [] (subscribeTo p)) → defined fresh_world k))
            (providers fresh_world)) as H.
  { change (providers fresh_world) with definitions. unfold definitions.
    repeat apply map_Forall_insert_2; [..|apply map_Forall_empty];
      (split_and!; [done|intros k Hk..]); cbn in Hk;
      repeat (apply elem_of_cons in Hk as [->|Hk]);
      try (by apply elem_of_nil in Hk); vm_compute; eexists; reflexivity. }
  split; [split|].
  - intros i x Hx. unfold fresh_world in Hx. cbn [heap] in Hx. by rewrite lookup_nil in Hx.
  - intros d p Hp. by apply (H d p Hp).
  - intros d p Hp. by apply (H d p Hp).
Defined.

Lemma never_throws_witness :
  ∃ w', perform (GetResultInstances (Entries [Props "user"; Props "list"; Props "bare"]) 9)
          (world_after [Instantiate Consumer "list" (Short (Some (User 5))); StoreReady 0]
             fresh_world) = Normal w'.
Proof.
  apply (never_throws fresh_world _ _ fresh_world_well_formed).
  - apply (reachable_run [Instantiate Consumer "list" (Short (Some (User 5))); StoreReady 0]);
      vm_compute; reflexivity.
  - split; [done|]. repeat constructor; eexists; (split; [reflexivity|]);
      vm_compute; eexists; reflexivity.
Defined.

End ProgressFacts.

(* ===================================================================== *)
(** ** What the callback of getResultInstances is given                  *)
(* ===================================================================== *)

Module GatheringFacts.
Import Js Provider ProviderSpec Examples Gathering MergeFacts ProviderFacts.
Local Open Scope nat_scope.

(** *** Slots *)

Lemma gathered_in_slots j cbs : gathered_in j cbs = slot_count j (slots_of cbs).
Proof.
  induction cbs as [|c cbs IH]; [done|]. rewrite gathered_in_cons, IH.
  unfold slot_count, slots_of. destruct c as [|[f|j' idx]]; cbn; try done.
  destruct (Nat.eqb_spec j j') as [->|Hne].
  - by rewrite decide_True.
  - by rewrite decide_False by done.
Qed.

Lemma slot_count_app j l l' : slot_count j (l ++ l') = slot_count j l + slot_count j l'.
Proof. unfold slot_count. by rewrite filter_app, length_app. Qed.

Lemma slot_count_elem j idx l : (j, idx) ∈ l → 0 < slot_count j l.
Proof.
  intros Hin. unfold slot_count.
  assert ((j, idx) ∈ filter (λ s : nat * nat, s.1 = j) l) as H by (by apply list_elem_of_filter).
  destruct (filter _ l); [by apply elem_of_nil in H|cbn; lia].
Qed.

Lemma elem_of_slots_of j idx cbs : (j, idx) ∈ slots_of cbs ↔ Caller (Gathered j idx) ∈ cbs.
Proof.
  unfold slots_of. rewrite list_elem_of_omap. split.
  - intros (c & Hc & Hs). destruct c as [|[f|j' idx']]; cbn in Hs; try done.
    by injection Hs as -> ->.
  - intros Hc. by exists (Caller (Gathered j idx)).
Qed.

Lemma gathered_in_elem j idx cbs : Caller (Gathered j idx) ∈ cbs → 0 < gathered_in j cbs.
Proof.
  intros Hin. rewrite gathered_in_slots. apply (slot_count_elem j idx).
  by apply elem_of_slots_of.
Qed.

Lemma queued_waiting w j idx : queued w j idx → 0 < waiting j w.
Proof.
  intros (i & x & Hx & Hr & Hin).
  pose proof (waiting_alter j (set_ready true) i w x Hx) as H.
  unfold waits_for in H. cbn [ready set_ready] in H. rewrite Hr in H.
  pose proof (gathered_in_elem j idx _ Hin). lia.
Qed.

(** *** What does not go back *)

Lemma settles_refl w : settles w w.
Proof. by split. Qed.

Lemma settles_trans w1 w2 w3 : settles w1 w2 → settles w2 w3 → settles w1 w3.
Proof. intros [H1 H2] [H3 H4]. split; [intros i Hi|intros j idx Hr]; auto. Qed.

Lemma instance_ready_readiness w w' i :
  readiness <$> heap w' = readiness <$> heap w → instance_ready w' i = instance_ready w i.
Proof.
  intros Hr. unfold instance_ready.
  assert ((readiness <$> heap w') !! i = (readiness <$> heap w) !! i) as H by by rewrite Hr.
  rewrite !list_lookup_fmap in H.
  destruct (heap w' !! i) as [x'|], (heap w !! i) as [x|]; try done.
  cbn in H. injection H as H _ _. done.
Qed.

Lemma settles_same w w' :
  joins w' = joins w → readiness <$> heap w' = readiness <$> heap w → settles w w'.
Proof.
  intros Hj Hr. split.
  - intros i. by rewrite (instance_ready_readiness w w').
  - intros j idx. unfold in_range. by rewrite Hj.
Qed.

Lemma settles_tame w w' : tame w w' → settles w w'.
Proof. intros (Hj & Hr & _). by apply settles_same. Qed.

Lemma settles_log es w : settles w (log es w).
Proof. by apply settles_same. Qed.

Lemma settles_heap_alter g i w :
  (∀ x, ready x = true → ready (g x) = true) → settles w (upd_heap (alter g i) w).
Proof.
  intros Hg. split; [|done]. intros k. unfold instance_ready. cbn [heap upd_heap].
  destruct (decide (i = k)) as [->|Hne].
  - rewrite list_lookup_alter_eq. destruct (heap w !! k) as [x|]; [|done]. apply Hg.
  - by rewrite list_lookup_alter_ne.
Qed.

Lemma settles_heap_app x w : settles w (upd_heap (λ h, h ++ [x]) w).
Proof.
  split; [|done]. intros i. unfold instance_ready. cbn [heap upd_heap].
  destruct (heap w !! i) as [y|] eqn:Hy; [|done].
  by rewrite (lookup_app_l_Some _ _ _ _ Hy).
Qed.

Lemma settles_joins_alter f j w :
  (∀ jn, length (resultInstances jn) ≤ length (resultInstances (f jn))) →
  settles w (upd_joins (alter f j) w).
Proof.
  intros Hf. split; [done|]. intros j' idx (jn & Hjn & Hlt). unfold in_range.
  cbn [joins upd_joins]. destruct (decide (j = j')) as [->|Hne].
  - rewrite list_lookup_alter_eq, Hjn. eexists. split; [done|]. specialize (Hf jn). cbn. lia.
  - rewrite list_lookup_alter_ne by done. by exists jn.
Qed.

Lemma settles_joins_app jn w : settles w (upd_joins (λ js, js ++ [jn]) w).
Proof.
  split; [done|]. intros j idx (jn0 & Hjn & Hlt). exists jn0. split; [|done].
  cbn [joins upd_joins]. by apply lookup_app_l_Some.
Qed.

Lemma length_array_set {A} i (x hole : A) l :
  length l ≤ length (array_set i x hole l) ∧ i < length (array_set i x hole l).
Proof.
  unfold array_set. case_bool_decide.
  - rewrite length_insert. lia.
  - rewrite !length_app, length_replicate. cbn. lia.
Qed.

Lemma settles_join_clear j w : settles w (join_clear j w).
Proof.
  unfold join_clear. destruct (joins w !! j) as [jn|]; [|apply settles_refl].
  set (w1 := upd_joins _ w).
  assert (settles w w1) as H1 by (by apply settles_joins_alter).
  destruct (_ =? _)%Z; [|done]. eapply settles_trans; [exact H1|apply settles_log].
Qed.

Lemma settles_run_ready_cb i c w : settles w (run_ready_cb i c w).
Proof.
  destruct c as [|[f|j idx]]; cbn [run_ready_cb].
  - by apply settles_heap_alter.
  - apply settles_log.
  - eapply settles_trans; [|apply settles_join_clear].
    apply settles_joins_alter. intros jn. cbn. apply length_array_set.
Qed.

Lemma settles_fold_run_ready_cb i cbs : ∀ w,
  settles w (fold_left (λ w c, run_ready_cb i c w) cbs w).
Proof.
  induction cbs as [|c cbs IH]; intros w; cbn [fold_left]; [apply settles_refl|].
  eapply settles_trans; [apply settles_run_ready_cb|apply IH].
Qed.

Lemma settles_done d i w w' : done d i w = Normal w' → settles w w'.
Proof.
  unfold done. set (w1 := fold_left _ _ w).
  destruct (forEach _) as [fs|]; cbn [bind]; [|done]. intros [= <-].
  eapply settles_trans; [apply settles_fold_run_ready_cb|apply settles_log].
Qed.

Lemma settles_push i c w : settles w (pushOnReady i c w).
Proof. by apply settles_heap_alter. Qed.

Lemma settles_finish d i p rc w w' : finish d i p rc w = Normal w' → settles w w'.
Proof.
  unfold finish. set (w1 := log _ w). set (w2 := unshiftOnReady i FlipReady w1).
  set (w3 := match rc with Some c => pushOnReady i (Caller c) w2 | None => w2 end).
  assert (settles w w3) as H3.
  { apply (settles_trans _ w1); [apply settles_log|].
    apply (settles_trans _ w2); [by apply settles_heap_alter|].
    unfold w3. destruct rc; [apply settles_push|apply settles_refl]. }
  destruct (_ && _).
  - intros [= <-]. eapply settles_trans; [exact H3|]. by apply settles_heap_alter.
  - intros Hd. eapply settles_trans; [exact H3|]. by eapply settles_done.
Qed.

Lemma allocate_joins d k static p w : joins (allocate d k static p w) = joins w.
Proof.
  unfold allocate, register. cbn.
  by destruct (match providers w !! d with Some _ => _ | None => _ end).
Qed.

Lemma settles_allocate d k static p w : settles w (allocate d k static p w).
Proof.
  split.
  - intros i. unfold instance_ready. rewrite allocate_heap.
    destruct (heap w !! i) as [y|] eqn:Hy; [|done].
    by rewrite (lookup_app_l_Some _ _ _ _ Hy).
  - intros j idx. unfold in_range. by rewrite allocate_joins.
Qed.

Lemma settles_create d k static rc w w' i :
  create d k static rc w = Normal (w', i) → settles w w'.
Proof.
  unfold create. set (w0 := install_thunk d w).
  destruct (providers w0 !! d) as [p|]; [|done].
  destruct (forEach (wait p)) as [fs|]; cbn [bind]; [|done].
  set (w1 := log _ w0). set (w2 := allocate d k static p w1).
  destruct (for_each (wire_subscriber d _) _ w2) as [w3|] eqn:H3; cbn [bind]; [|done].
  destruct (for_each (wire_subscribeTo d _) _ w3) as [w4|] eqn:H4; cbn [bind]; [|done].
  destruct (finish d _ p rc w4) as [w5|] eqn:H5; cbn [bind]; [|done].
  intros [= <- <-].
  apply (settles_trans _ w0); [apply settles_tame, tame_install_thunk|].
  apply (settles_trans _ w1); [apply settles_log|].
  apply (settles_trans _ w2); [apply settles_allocate|].
  apply (settles_trans _ w3);
    [apply settles_tame; eapply tame_for_each, H3; apply tame_wire_subscriber|].
  apply (settles_trans _ w4);
    [apply settles_tame; eapply tame_for_each, H4; apply tame_wire_subscribeTo|].
  by eapply settles_finish.
Qed.

Lemma settles_instantiate w fi d a w' i :
  instantiateProvider w fi d a = Normal (w', i) → settles w w'.
Proof.
  unfold instantiateProvider.
  destruct (providers w !! d) as [p|]; [|done].
  destruct (resolve d a) as [[k static] rc].
  set (w1 := match fi with Consumer => _ | Fresh => _ end).
  assert (settles w w1) as H1 by (subst w1; destruct fi; [by apply settles_same|apply settles_refl]).
  destruct (lookup_instance w p k) as [i0|].
  - destruct rc as [c|]; [|by intros [= <- <-]].
    destruct (instance_ready w1 i0); intros [= <- <-].
    + eapply settles_trans; [exact H1|]. apply (settles_run_ready_cb i0 (Caller c) w1).
    + eapply settles_trans; [exact H1|apply settles_push].
  - intros Hc. eapply settles_trans; [exact H1|by eapply settles_create].
Qed.

(** *** Changes the arrays do not see *)

Lemma all_ready_settles w w' got : settles w w' → all_ready w got → all_ready w' got.
Proof.
  intros [Hs _] Hgot. eapply Forall_impl; [exact Hgot|]. intros o (i & -> & Hi).
  exists i. split; [done|by apply Hs].
Qed.

Lemma filled_step inflight w w' :
  settles w w' →
  (∀ j jn' idx o, joins w' !! j = Some jn' → resultInstances jn' !! idx = Some o →
     ∃ jn, joins w !! j = Some jn ∧ resultInstances jn !! idx = Some o) →
  (∀ j idx, queued w j idx → queued w' j idx) →
  (∀ i x' j idx, heap w' !! i = Some x' → Caller (Gathered j idx) ∈ i_onReady x' →
     ∃ x, heap w !! i = Some x ∧ Caller (Gathered j idx) ∈ i_onReady x) →
  (∀ f j got, EGathered f j got ∈ trace w' → EGathered f j got ∈ trace w) →
  filled_with inflight w → filled_with inflight w'.
Proof.
  intros Hs Hslots Hq Hqueues Htrace (F1 & F2 & F3 & F3' & F4). split_and!.
  - intros j jn' idx Hjn' Hnone. destruct (Hslots j jn' idx None Hjn' Hnone) as (jn & Hjn & Ho).
    destruct (F1 j jn idx Hjn Ho) as [H|H]; [left; by apply Hq|by right].
  - intros j jn' idx i Hjn' Hsome.
    destruct (Hslots j jn' idx (Some i) Hjn' Hsome) as (jn & Hjn & Ho).
    apply Hs. by apply (F2 j jn idx).
  - intros i x' j idx Hx' Hin. destruct (Hqueues i x' j idx Hx' Hin) as (x & Hx & Hin').
    apply Hs. by apply (F3 i x).
  - intros j idx Hin. apply Hs. by apply F3'.
  - intros f j got Hin. apply (all_ready_settles w); [done|]. apply (F4 f j). by apply Htrace.
Qed.

Lemma filled_tame inflight w w' : tame w w' → filled_with inflight w → filled_with inflight w'.
Proof.
  intros Htame. pose proof Htame as (Hj & Hr & es & Ht & Hplain).
  apply filled_step.
  - by apply settles_tame.
  - intros j jn' idx o. rewrite Hj. intros Hjn Ho. by exists jn'.
  - intros j idx (i & x & Hx & Hrx & Hin).
    destruct (view_lookup readiness (heap w') (heap w) i x (eq_sym Hr) Hx) as (x' & Hx' & Hv).
    injection Hv as Hv1 Hv2 _. exists i, x'. rewrite Hv1, Hv2. done.
  - intros i x' j idx Hx' Hin.
    destruct (view_lookup readiness (heap w) (heap w') i x' Hr Hx') as (x & Hx & Hv).
    injection Hv as _ Hv2 _. exists x. by rewrite Hv2.
  - intros f j got. rewrite Ht, elem_of_app. intros [H|H]; [done|].
    rewrite Forall_forall in Hplain. by apply Hplain in H.
Qed.

(** Changing one instance without changing whether it is ready or which
    closures of joins its queue holds. *)
Lemma filled_heap_alter inflight g i w :
  (∀ x, ready (g x) = ready x) →
  (∀ x j idx, Caller (Gathered j idx) ∈ i_onReady (g x) ↔ Caller (Gathered j idx) ∈ i_onReady x) →
  filled_with inflight w → filled_with inflight (upd_heap (alter g i) w).
Proof.
  intros Hready Hqueue. apply filled_step.
  - apply settles_heap_alter. intros x. by rewrite Hready.
  - intros j jn' idx o Hjn Ho. by exists jn'.
  - intros j idx (k & x & Hx & Hrx & Hin).
    destruct (decide (i = k)) as [->|Hne].
    + exists k, (g x). cbn [heap upd_heap].
      rewrite list_lookup_alter_eq, Hx, Hready, Hqueue. done.
    + exists k, x. cbn [heap upd_heap]. by rewrite list_lookup_alter_ne.
  - intros k x' j idx. cbn [heap upd_heap]. destruct (decide (i = k)) as [->|Hne].
    + rewrite list_lookup_alter_eq. destruct (heap w !! k) as [x|]; [|done].
      intros [= <-] Hin. exists x. by rewrite <- Hqueue.
    + rewrite list_lookup_alter_ne by done. intros Hx Hin. by exists x'.
  - done.
Qed.

Lemma filled_allocate inflight d k static p w :
  filled_with inflight w → filled_with inflight (allocate d k static p w).
Proof.
  apply filled_step.
  - apply settles_allocate.
  - intros j jn' idx o. rewrite allocate_joins. intros Hjn Ho. by exists jn'.
  - intros j idx (i & x & Hx & Hrx & Hin). exists i, x. rewrite allocate_heap.
    split; [by apply lookup_app_l_Some|done].
  - intros i x' j idx. rewrite allocate_heap. intros Hx' Hin.
    apply lookup_app_Some in Hx' as [Hx'|[_ Hx']]; [by exists x'|].
    apply list_lookup_singleton_Some in Hx' as [_ <-]. cbn [i_onReady] in Hin.
    apply list_elem_of_fmap in Hin as (f & Hf & _). done.
  - intros f j got. rewrite allocate_trace, elem_of_app. intros [H|H]; [done|].
    by apply list_elem_of_singleton in H.
Qed.

Lemma filled_log_gathered inflight f j got w :
  all_ready w got → filled_with inflight w →
  filled_with inflight (log [EGathered f j got] w).
Proof.
  intros Hgot (F1 & F2 & F3 & F3' & F4). split_and!; try done.
  intros f' j' got'. cbn [trace log]. rewrite elem_of_app. intros [H|H]; [by apply (F4 f' j')|].
  apply list_elem_of_singleton in H. by injection H as -> -> ->.
Qed.

(** *** A closure is queued *)

Lemma push_filled base i c w x :
  heap w !! i = Some x → ready x = false →
  filled_with (rc_slots (Some c) ++ base) w →
  filled_with base (pushOnReady i (Caller c) w).
Proof.
  intros Hx Hrx (F1 & F2 & F3 & F3' & F4).
  assert (heap (pushOnReady i (Caller c) w) !! i
          = Some (set_onReady (i_onReady x ++ [Caller c]) x)) as Hx1.
  { unfold pushOnReady. cbn [heap upd_heap]. by rewrite list_lookup_alter_eq, Hx. }
  assert (∀ k, k ≠ i → heap (pushOnReady i (Caller c) w) !! k = heap w !! k) as Hother.
  { intros k Hne. unfold pushOnReady. cbn [heap upd_heap]. by rewrite list_lookup_alter_ne. }
  assert (∀ j idx, queued w j idx → queued (pushOnReady i (Caller c) w) j idx) as Hq.
  { intros j idx (k & y & Hy & Hry & Hin). destruct (decide (k = i)) as [->|Hne].
    - rewrite Hx in Hy. injection Hy as <-. eexists i, _. split; [exact Hx1|].
      split; [done|]. cbn [i_onReady set_onReady]. apply elem_of_app. by left.
    - exists k, y. by rewrite Hother. }
  split_and!.
  - intros j jn idx Hjn Hnone. destruct (F1 j jn idx Hjn Hnone) as [H|H]; [left; by apply Hq|].
    apply elem_of_app in H as [H|H]; [|by right]. left.
    apply elem_of_slots_of in H.
    eexists i, _. split; [exact Hx1|]. split; [done|]. cbn [i_onReady set_onReady].
    apply elem_of_app. by right.
  - intros j jn idx k Hjn Hsome. apply (settles_push i (Caller c) w). by apply (F2 j jn idx).
  - intros k y j idx Hy Hin. destruct (decide (k = i)) as [->|Hne].
    + rewrite Hx1 in Hy. injection Hy as <-. cbn [i_onReady set_onReady] in Hin.
      apply elem_of_app in Hin as [Hin|Hin]; [by apply (F3 i x)|].
      apply F3'. apply elem_of_app. left. by apply elem_of_slots_of.
    + rewrite Hother in Hy by done. by apply (F3 k y).
  - intros j idx Hin. apply F3'. apply elem_of_app. by right.
  - intros f j got Hin. apply (all_ready_settles w); [apply settles_push|]. by apply (F4 f j).
Qed.

(** *** A closure is called *)

Lemma run_gathered_filled base extra i j idx w :
  instance_ready w i = true →
  joined_with (λ j', extra j' + if is_gathered_cb j' (Caller (Gathered j idx)) then 1 else 0) w →
  (∀ j', slot_count j' base ≤ extra j') →
  filled_with ((j, idx) :: base) w →
  filled_with base (run_ready_cb i (Caller (Gathered j idx)) w).
Proof.
  intros Hready Hjoined Hlink (F1 & F2 & F3 & F3' & F4).
  destruct (F3' j idx) as (jn & Hjn & Hlt); [left|].
  pose proof Hjoined as (_ & J2 & _ & _).
  destruct (J2 j jn Hjn) as [Hsem _]. cbn [is_gathered_cb] in Hsem. rewrite Nat.eqb_refl in Hsem.
  cbn [run_ready_cb].
  set (ri := <[idx := Some i]> (resultInstances jn)).
  set (w1 := upd_joins _ w).
  assert (joins w1 !! j = Some (set_resultInstances ri jn)) as Hjn1.
  { unfold w1. cbn [joins upd_joins]. rewrite list_lookup_alter_eq, Hjn. cbn.
    unfold array_set. by rewrite bool_decide_true. }
  assert (settles w w1) as Hs1.
  { apply settles_joins_alter. intros jn0. cbn. apply length_array_set. }
  unfold join_clear. rewrite Hjn1.
  cbn [semaphore set_resultInstances resultInstances j_callback].
  set (s := (semaphore jn - 1)%Z).
  set (w2 := upd_joins (alter (set_semaphore s) j) w1).
  assert (settles w w2) as Hs2.
  { eapply settles_trans; [exact Hs1|]. by apply settles_joins_alter. }
  assert (joins w2 !! j = Some (set_semaphore s (set_resultInstances ri jn))) as Hjn2.
  { unfold w2. cbn [joins upd_joins]. by rewrite list_lookup_alter_eq, Hjn1. }
  assert (∀ j', j' ≠ j → joins w2 !! j' = joins w !! j') as Hother.
  { intros j' Hne. unfold w2, w1. cbn [joins upd_joins].
    by rewrite !list_lookup_alter_ne by done. }
  assert (filled_with base w2) as Hfilled2.
  { split_and!.
    - intros j' jn' idx' Hjn' Hnone. destruct (decide (j' = j)) as [->|Hne].
      + rewrite Hjn2 in Hjn'. injection Hjn' as <-. cbn in Hnone. unfold ri in Hnone.
        destruct (decide (idx = idx')) as [->|Hidx].
        { rewrite list_lookup_insert_eq in Hnone by done. done. }
        rewrite list_lookup_insert_ne in Hnone by done.
        destruct (F1 j jn idx' Hjn Hnone) as [H|H]; [by left|].
        apply elem_of_cons in H as [H|H]; [congruence|by right].
      + rewrite Hother in Hjn' by done.
        destruct (F1 j' jn' idx' Hjn' Hnone) as [H|H]; [by left|].
        apply elem_of_cons in H as [H|H]; [congruence|by right].
    - intros j' jn' idx' k Hjn' Hsome. destruct (decide (j' = j)) as [->|Hne].
      + rewrite Hjn2 in Hjn'. injection Hjn' as <-. cbn in Hsome. unfold ri in Hsome.
        destruct (decide (idx = idx')) as [->|Hidx].
        { rewrite list_lookup_insert_eq in Hsome by done. by injection Hsome as <-. }
        rewrite list_lookup_insert_ne in Hsome by done. by apply (F2 j jn idx').
      + rewrite Hother in Hjn' by done. by apply (F2 j' jn' idx').
    - intros k y j' idx' Hy Hin. apply Hs2. by apply (F3 k y).
    - intros j' idx' Hin. apply Hs2. apply F3'. by right.
    - intros f j' got Hin. by apply (F4 f j'). }
  destruct (s =? 0)%Z eqn:Hz; [|done].
  apply filled_log_gathered; [|done].
  apply Z.eqb_eq in Hz.
  assert (waiting j w = 0 ∧ extra j = 0) as [Hw0 He0] by (unfold s in Hz; lia).
  apply Forall_lookup. intros idx' o Ho. unfold ri in Ho.
  destruct (decide (idx = idx')) as [->|Hidx].
  { rewrite list_lookup_insert_eq in Ho by done. injection Ho as <-. by exists i. }
  rewrite list_lookup_insert_ne in Ho by done. destruct o as [k|].
  { exists k. split; [done|]. by apply (F2 j jn idx'). }
  destruct (F1 j jn idx' Hjn Ho) as [H|H].
  - apply queued_waiting in H. lia.
  - apply elem_of_cons in H as [H|H]; [congruence|].
    apply slot_count_elem in H. specialize (Hlink j). lia.
Qed.

Lemma set_ready_again x : ready x = true → set_ready true x = x.
Proof. destruct x. cbn. by intros ->. Qed.

Lemma fold_run_filled i cbs : ∀ base extra w,
  instance_ready w i = true →
  joined_with (λ j, extra j + gathered_in j cbs) w →
  (∀ j, slot_count j base ≤ extra j) →
  filled_with (slots_of cbs ++ base) w →
  filled_with base (fold_left (λ w c, run_ready_cb i c w) cbs w).
Proof.
  induction cbs as [|c cbs IH]; intros base extra w Hready Hjoined Hlink Hfilled;
    cbn [fold_left]; [done|].
  destruct (run_ready_cb_joined (λ j, extra j + gathered_in j cbs) i c w Hready) as [Hj1 Hr1].
  { eapply joined_ext; [|exact Hjoined]. intros j. cbn beta. rewrite gathered_in_cons. lia. }
  apply (IH base extra); [done|done|done|].
  destruct c as [|[f|j idx]].
  - cbn [run_ready_cb]. eapply filled_tame; [|exact Hfilled].
    apply tame_silent; [done| |done]. cbn [heap upd_heap].
    destruct (instance_ready_lookup w i Hready) as (x & Hx & Hrx).
    f_equal. apply list_eq. intros k. destruct (decide (i = k)) as [->|Hne].
    + rewrite list_lookup_alter_eq, Hx. cbn. by rewrite set_ready_again.
    + by rewrite list_lookup_alter_ne.
  - cbn [run_ready_cb]. eapply filled_tame; [|exact Hfilled].
    apply tame_log. rewrite Hready. by repeat constructor.
  - apply (run_gathered_filled _ (λ j', extra j' + gathered_in j' cbs)); [done| | |done].
    + eapply joined_ext; [|exact Hjoined]. intros j'. cbn beta. rewrite gathered_in_cons. lia.
    + intros j'. rewrite slot_count_app, <- gathered_in_slots. specialize (Hlink j'). lia.
Qed.

(** [done] for an instance that is not ready yet and whose queue starts
    with the flag setter: the closures in its queue are in flight once
    the flag is set. *)
Lemma flip_joined extra i w x l :
  joined_with extra w → heap w !! i = Some x → ready x = false → awaiting x = false →
  i_onReady x = FlipReady :: l →
  joined_with (λ j, extra j + gathered_in j l) (upd_heap (alter (set_ready true) i) w).
Proof.
  intros (J1 & J2 & J3 & J4) Hx Hrx Hax Hlist.
  set (w1 := upd_heap (alter (set_ready true) i) w).
  assert (∀ j, waiting j w1 + gathered_in j l = waiting j w) as Hw.
  { intros j. pose proof (waiting_alter j (set_ready true) i w x Hx) as H.
    unfold waits_for in H. cbn [ready set_ready] in H. rewrite Hrx, Hlist in H.
    rewrite gathered_in_cons in H. cbn [is_gathered_cb] in H. fold w1 in H. lia. }
  split_and!.
  - intros j Hpos. apply J1. specialize (Hw j). lia.
  - intros j jn Hjn. change (gathered j w1) with (gathered j w).
    replace (waiting j w1 + (extra j + gathered_in j l)) with (waiting j w + extra j)
      by (specialize (Hw j); lia).
    by apply J2.
  - done.
  - intros k y. unfold w1. cbn [heap upd_heap]. destruct (decide (i = k)) as [->|Hne].
    + rewrite list_lookup_alter_eq, Hx. intros [= <-]. cbn [awaiting set_ready]. congruence.
    + rewrite list_lookup_alter_ne by done. apply J4.
Qed.

Lemma flip_filled base i w x l :
  heap w !! i = Some x → i_onReady x = FlipReady :: l →
  filled_with base w →
  filled_with (slots_of l ++ base) (upd_heap (alter (set_ready true) i) w).
Proof.
  intros Hx Hlist (F1 & F2 & F3 & F3' & F4).
  set (w1 := upd_heap (alter (set_ready true) i) w).
  assert (settles w w1) as Hs by (by apply settles_heap_alter).
  split_and!.
  - intros j jn idx Hjn Hnone. destruct (F1 j jn idx Hjn Hnone) as [H|H].
    + destruct H as (k & y & Hy & Hry & Hin). destruct (decide (k = i)) as [->|Hne].
      * right. rewrite Hx in Hy. injection Hy as <-. rewrite Hlist in Hin.
        apply elem_of_cons in Hin as [Hin|Hin]; [done|].
        apply elem_of_app. left. by apply elem_of_slots_of.
      * left. exists k, y. unfold w1. cbn [heap upd_heap].
        by rewrite list_lookup_alter_ne.
    + right. apply elem_of_app. by right.
  - intros j jn idx k Hjn Hsome. apply Hs. by apply (F2 j jn idx).
  - intros k y j idx. unfold w1. cbn [heap upd_heap]. destruct (decide (i = k)) as [->|Hne].
    + rewrite list_lookup_alter_eq, Hx. intros [= <-]. cbn [i_onReady set_ready].
      intros Hin. by apply (F3 k x).
    + rewrite list_lookup_alter_ne by done. intros Hy Hin. by apply (F3 k y).
  - intros j idx Hin. apply elem_of_app in Hin as [Hin|Hin]; [|by apply F3'].
    apply elem_of_slots_of in Hin. apply (F3 i x); [done|]. rewrite Hlist. by right.
  - intros f j got Hin. apply (all_ready_settles w); [done|]. by apply (F4 f j).
Qed.

Lemma done_filled base extra d i w w' x l :
  joined_with extra w → (∀ j, slot_count j base ≤ extra j) → filled_with base w →
  heap w !! i = Some x → ready x = false → awaiting x = false →
  i_onReady x = FlipReady :: l →
  done d i w = Normal w' → filled_with base w'.
Proof.
  intros Hjoined Hlink Hfilled Hx Hrx Hax Hlist. unfold done. rewrite Hx, Hlist.
  cbn [fold_left run_ready_cb].
  set (w1 := upd_heap (alter (set_ready true) i) w).
  assert (instance_ready w1 i = true) as Hready1.
  { apply instance_ready_alter_ready. by eapply lookup_lt_Some. }
  pose proof (flip_joined extra i w x l Hjoined Hx Hrx Hax Hlist) as Hjoined1.
  pose proof (flip_filled base i w x l Hx Hlist Hfilled) as Hfilled1.
  pose proof (fold_run_filled i l base extra w1 Hready1 Hjoined1 Hlink Hfilled1) as H2.
  set (w2 := fold_left _ l w1) in *.
  destruct (forEach _) as [fs|]; cbn [bind]; [|done]. intros [= <-].
  eapply filled_tame; [|exact H2]. apply tame_log. by apply Forall_plain_fmap.
Qed.

(** *** The arrays across an instantiation *)

Lemma rc_slots_count rc extra j :
  consumed rc extra j + slot_count j (rc_slots rc) = extra j ∨ extra j = 0.
Proof.
  rewrite consumed_spec. destruct rc as [[f|j0 idx]|]; cbn; try lia.
  unfold slot_count. cbn. destruct (Nat.eqb_spec j j0) as [->|Hne].
  - rewrite decide_True by done. cbn. lia.
  - rewrite decide_False by done. cbn. lia.
Qed.

Lemma finish_filled base extra d i p rc w w' x :
  joined_with extra w →
  (∀ j, slot_count j base ≤ consumed rc extra j) →
  filled_with (rc_slots rc ++ base) w →
  heap w !! i = Some x → ready x = false → awaiting x = false →
  (∀ j, gathered_in j (i_onReady x) = 0) →
  (∀ j idx, rc = Some (Gathered j idx) → 0 < extra j) →
  finish d i p rc w = Normal w' → filled_with base w'.
Proof.
  intros Hjoined Hlink Hfilled Hx Hrx Hax Hnone Hextra. unfold finish.
  set (w1 := log _ w). set (w2 := unshiftOnReady i FlipReady w1).
  assert (joined_with extra w1) as Hj1.
  { eapply joined_tame; [|exact Hjoined]. apply tame_log. by apply Forall_plain_fmap. }
  assert (filled_with (rc_slots rc ++ base) w1) as Hf1.
  { eapply filled_tame; [|exact Hfilled]. apply tame_log. by apply Forall_plain_fmap. }
  assert (joined_with extra w2) as Hj2.
  { unfold w2, unshiftOnReady. apply joined_heap_alter; [| |done].
    - intros y j. unfold waits_for. cbn [ready i_onReady set_onReady].
      by rewrite gathered_in_cons.
    - intros y Hy Hay. by apply (joined_awaiting w1 i y extra). }
  assert (filled_with (rc_slots rc ++ base) w2) as Hf2.
  { unfold w2, unshiftOnReady. apply filled_heap_alter; [done| |done].
    intros y j idx. cbn [i_onReady set_onReady]. rewrite elem_of_cons. naive_solver. }
  set (x2 := set_onReady (FlipReady :: i_onReady x) x).
  assert (heap w2 !! i = Some x2) as Hx2.
  { unfold w2, unshiftOnReady, w1. cbn [heap upd_heap log].
    by rewrite list_lookup_alter_eq, Hx. }
  set (w3 := match rc with Some c => pushOnReady i (Caller c) w2 | None => w2 end).
  set (x3 := match rc with
             | Some c => set_onReady (i_onReady x2 ++ [Caller c]) x2
             | None => x2
             end).
  assert (heap w3 !! i = Some x3) as Hx3.
  { unfold w3, x3. destruct rc; [|done]. unfold pushOnReady. cbn [heap upd_heap].
    by rewrite list_lookup_alter_eq, Hx2. }
  assert (joined_with (consumed rc extra) w3) as Hj3.
  { eapply joined_ext; [intros j; symmetry; apply consumed_spec|].
    unfold w3. destruct rc as [c|].
    - apply (push_joined extra i (Caller c) w2 x2); [done|done|done|].
      intros j Hj. destruct c as [f|j0 idx]; [done|]. cbn [is_gathered_cb] in Hj.
      apply Nat.eqb_eq in Hj. subst. by eapply Hextra.
    - eapply joined_ext; [|exact Hj2]. intros j. lia. }
  assert (filled_with base w3) as Hf3.
  { unfold w3. destruct rc as [c|]; [|done]. by apply (push_filled base i c w2 x2). }
  assert (ready x3 = false ∧ awaiting x3 = false ∧ ∃ l, i_onReady x3 = FlipReady :: l)
    as (Hr3 & Ha3 & l & Hl3).
  { unfold x3. destruct rc; cbn; (split_and!; [done|done|by eexists]). }
  destruct (_ && _).
  - intros [= <-]. by apply filled_heap_alter.
  - by eapply (done_filled base (consumed rc extra)).
Qed.

Lemma create_filled base extra d k static rc w w' i :
  joined_with extra w →
  (∀ j, slot_count j base ≤ consumed rc extra j) →
  filled_with (rc_slots rc ++ base) w →
  (∀ j idx, rc = Some (Gathered j idx) → 0 < extra j) →
  create d k static rc w = Normal (w', i) → filled_with base w'.
Proof.
  intros Hjoined Hlink Hfilled Hextra. unfold create.
  set (w0 := install_thunk d w).
  destruct (providers w0 !! d) as [p|]; [|done].
  destruct (forEach (wait p)) as [fs|]; cbn [bind]; [|done].
  set (w1 := log _ w0). set (w2 := allocate d k static p w1).
  destruct (for_each (wire_subscriber d _) _ w2) as [w3|] eqn:H3; cbn [bind]; [|done].
  destruct (for_each (wire_subscribeTo d _) _ w3) as [w4|] eqn:H4; cbn [bind]; [|done].
  destruct (finish d _ p rc w4) as [w5|] eqn:H5; cbn [bind]; [|done].
  intros [= <- <-].
  assert (tame w w1) as Ht1.
  { eapply tame_trans; [apply tame_install_thunk|].
    apply tame_log. by apply Forall_plain_fmap. }
  assert (joined_with extra w1) as Hj1 by (by eapply joined_tame).
  assert (filled_with (rc_slots rc ++ base) w1) as Hf1 by (by eapply filled_tame).
  set (x0 := Instance d k static false (Caller ∘ User <$> callback_list (onReady p)) [] false).
  assert (heap w2 = heap w1 ++ [x0]) as Hh2 by apply allocate_heap.
  assert (joins w2 = joins w1) as Hjs2 by apply allocate_joins.
  assert (joined_with extra w2) as Hj2.
  { pose proof Hj1 as (J1 & J2 & J3 & J4).
    assert (∀ j, waiting j w2 = waiting j w1) as Hw.
    { intros j. unfold waiting. rewrite Hh2, fmap_app, sum_list_with_app.
      assert (waits_for j x0 = 0) as H0 by apply gathered_in_users.
      change (waits_for j <$> [x0]) with [waits_for j x0]. rewrite H0. cbn. lia. }
    assert (∀ j, gathered j w2 = gathered j w1) as Hg.
    { intros j. unfold gathered, w2. rewrite allocate_trace, count_app.
      rewrite count_cons. cbn. unfold count. simpl. lia. }
    split_and!.
    - intros j. rewrite Hw, Hjs2. apply J1.
    - intros j jn. rewrite Hw, Hjs2, Hg. apply J2.
    - intros j. rewrite Hjs2, Hg. apply J3.
    - intros i y. rewrite Hh2. intros Hy. apply lookup_app_Some in Hy as [Hy|[_ Hy]].
      + by apply (J4 i y).
      + apply list_lookup_singleton_Some in Hy as [_ <-]. done. }
  assert (filled_with (rc_slots rc ++ base) w2) as Hf2 by (by apply filled_allocate).
  assert (tame w2 w4) as Htame.
  { apply (tame_trans _ w3); [eapply tame_for_each, H3; apply tame_wire_subscriber|].
    eapply tame_for_each, H4; apply tame_wire_subscribeTo. }
  assert (∃ x4, heap w4 !! length (heap w1) = Some x4 ∧ readiness x4 = readiness x0)
    as (x4 & Hx4 & Hr4).
  { destruct Htame as (_ & Hr & _).
    assert ((readiness <$> heap w4) !! length (heap w1) = Some (readiness x0)) as H.
    { rewrite Hr, Hh2, list_lookup_fmap, lookup_app_r by done. by rewrite Nat.sub_diag. }
    rewrite list_lookup_fmap in H. destruct (heap w4 !! length (heap w1)) as [x4|]; [|done].
    exists x4. split; [done|]. simpl in H. congruence. }
  injection Hr4 as Hr4 Hl4 Ha4.
  eapply (finish_filled base extra d _ p rc w4 w5 x4);
    [|done| |exact Hx4|done|done| |done|exact H5].
  - by eapply joined_tame.
  - by eapply filled_tame.
  - intros j. rewrite Hl4. apply gathered_in_users.
Qed.

Lemma instantiate_filled base extra w fi d a w' i :
  joined_with extra w → valid_tables w →
  (∀ j, slot_count j base ≤ consumed (resolve d a).2 extra j) →
  filled_with (rc_slots (resolve d a).2 ++ base) w →
  (∀ j idx, (resolve d a).2 = Some (Gathered j idx) → 0 < extra j) →
  instantiateProvider w fi d a = Normal (w', i) → filled_with base w'.
Proof.
  intros Hjoined Hvalid Hlink Hfilled Hextra. unfold instantiateProvider.
  destruct (providers w !! d) as [p|] eqn:Hp; [|done].
  destruct (resolve d a) as [[k static] rc] eqn:Hres. cbn [snd] in *.
  set (w1 := match fi with Consumer => _ | Fresh => _ end).
  assert (joined_with extra w1) as Hj1 by (subst w1; by destruct fi).
  assert (filled_with (rc_slots rc ++ base) w1) as Hf1 by (subst w1; by destruct fi).
  assert (heap w1 = heap w) as Hh1 by (subst w1; by destruct fi).
  destruct (lookup_instance w p k) as [i0|] eqn:Hlook.
  - apply lookup_instance_valid in Hlook; [|done].
    destruct (lookup_lt_is_Some_2 (heap w) i0 Hlook) as [x Hx].
    destruct rc as [c|]; [|by intros [= <- <-]].
    destruct (instance_ready w1 i0) eqn:Hready; intros [= <- <-].
    + destruct c as [f|j0 idx].
      * cbn [run_ready_cb]. eapply filled_tame; [|exact Hf1].
        apply tame_log. rewrite Hready. by repeat constructor.
      * apply (run_gathered_filled base (consumed (Some (Gathered j0 idx)) extra));
          [done| |done|done].
        eapply joined_ext; [|exact Hj1]. intros j. cbn beta. rewrite consumed_spec.
        cbn [is_gathered_cb]. destruct (Nat.eqb_spec j j0) as [->|]; [|lia].
        specialize (Hextra j0 idx eq_refl). lia.
    + apply (push_filled base i0 c w1 x); [by rewrite Hh1| |done].
      unfold instance_ready in Hready. by rewrite Hh1, Hx in Hready.
  - by apply (create_filled base extra).
Qed.

(** *** The arrays across [getResultInstances] *)

Lemma gather_loop_filled j entries : ∀ base bx idx w w',
  joined_with (λ j', bx j' + if decide (j' = j) then length entries else 0) w →
  valid_tables w →
  (∀ j', slot_count j' base ≤ bx j') →
  filled_with base w →
  (∃ jn, joins w !! j = Some jn ∧ idx ≤ length (resultInstances jn)) →
  gather_loop j idx entries w = Normal w' →
  filled_with base w'.
Proof.
  induction entries as [|[|d] rest IH];
    intros base bx idx w w' Hjoined Hvalid Hlink Hfilled Hlen;
    cbn [gather_loop]; [by intros [= <-]|done|].
  set (w0 := upd_joins _ w).
  destruct (instantiateProvider w0 Fresh d (Short (Some (Gathered j idx))))
    as [[w1 i]|] eqn:Hcall; cbn [bind]; [|done].
  cbn [fst]. intros Hloop.
  destruct Hlen as (jn & Hjn & Hle).
  set (ri := array_set idx None None (resultInstances jn)).
  assert (joins w0 !! j = Some (set_resultInstances ri jn)) as Hjn0.
  { unfold w0. cbn [joins upd_joins]. by rewrite list_lookup_alter_eq, Hjn. }
  assert (∀ j', j' ≠ j → joins w0 !! j' = joins w !! j') as Hother.
  { intros j' Hne. unfold w0. cbn [joins upd_joins]. by rewrite list_lookup_alter_ne. }
  assert (settles w w0) as Hs0.
  { apply settles_joins_alter. intros jn0. cbn. apply length_array_set. }
  assert (in_range w0 j idx) as Hrange0.
  { eexists. split; [exact Hjn0|]. cbn. apply length_array_set. }
  assert (∀ idx' o, idx' ≠ idx → ri !! idx' = Some o → resultInstances jn !! idx' = Some o)
    as Hri.
  { intros idx' o Hne. unfold ri, array_set. case_bool_decide as Hb.
    - by rewrite list_lookup_insert_ne.
    - assert (idx = length (resultInstances jn)) as Heq by lia.
      rewrite Heq, Nat.sub_diag. cbn [replicate app].
      intros Ho. apply lookup_app_Some in Ho as [Ho|[Hge Ho]]; [done|].
      apply list_lookup_singleton_Some in Ho as [Hz _]. lia. }
  assert (ri !! idx = Some None) as Hat.
  { unfold ri, array_set. case_bool_decide as Hb.
    - by rewrite list_lookup_insert_eq.
    - assert (idx = length (resultInstances jn)) as Heq by lia.
      rewrite Heq, Nat.sub_diag. cbn [replicate app]. by apply list_lookup_middle. }
  assert (joined_with (λ j', bx j' + if decide (j' = j) then length (Props d :: rest) else 0) w0)
    as Hj0 by (by apply joined_slots).
  assert (filled_with ((j, idx) :: base) w0) as Hf0.
  { destruct Hfilled as (F1 & F2 & F3 & F3' & F4). split_and!.
    - intros j' jn' idx' Hjn' Hnone. destruct (decide (j' = j)) as [->|Hne].
      + rewrite Hjn0 in Hjn'. injection Hjn' as <-. cbn in Hnone.
        destruct (decide (idx' = idx)) as [->|Hidx]; [right; by left|].
        apply Hri in Hnone; [|done].
        destruct (F1 j jn idx' Hjn Hnone) as [H|H]; [by left|right; by right].
      + rewrite Hother in Hjn' by done.
        destruct (F1 j' jn' idx' Hjn' Hnone) as [H|H]; [by left|right; by right].
    - intros j' jn' idx' k Hjn' Hsome. destruct (decide (j' = j)) as [->|Hne].
      + rewrite Hjn0 in Hjn'. injection Hjn' as <-. cbn in Hsome.
        destruct (decide (idx' = idx)) as [->|Hidx].
        { rewrite Hat in Hsome. done. }
        apply Hri in Hsome; [|done]. by apply (F2 j jn idx').
      + rewrite Hother in Hjn' by done. by apply (F2 j' jn' idx').
    - intros k y j' idx' Hy Hin. apply Hs0. by apply (F3 k y).
    - intros j' idx' Hin. apply elem_of_cons in Hin as [[= -> ->]|Hin]; [done|].
      apply Hs0. by apply F3'.
    - intros f j' got Hin. by apply (F4 f j'). }
  pose proof (valid_tables_instantiate _ _ _ _ _ _ (valid_tables_joins _ _ Hvalid) Hcall) as Hv1.
  pose proof (settles_instantiate _ _ _ _ _ _ Hcall) as Hs1.
  pose proof Hcall as Hcall'.
  eapply (instantiate_joined _ w0) in Hcall'; [|exact Hj0|done|].
  2:{ cbn [resolve snd]. intros j0 idx0 [= <- <-]. rewrite decide_True by done. cbn. lia. }
  assert (joined_with (λ j', bx j' + if decide (j' = j) then length rest else 0) w1) as Hj1.
  { eapply joined_ext; [|exact Hcall']. intros j'. cbn [resolve snd consumed].
    unfold minus_one. cbn [length]. destruct (decide (j' = j)); lia. }
  apply (IH base bx (S idx) w1 w'); [done|done|done| | |done].
  - eapply (instantiate_filled base _ w0); [exact Hj0|done| | | |exact Hcall].
    + intros j'. cbn [resolve snd consumed]. unfold minus_one. cbn [length].
      specialize (Hlink j'). destruct (decide (j' = j)); lia.
    + done.
    + cbn [resolve snd]. intros j0 idx0 [= <- <-]. rewrite decide_True by done. cbn. lia.
  - destruct Hs1 as [_ Hs1]. destruct (Hs1 j idx Hrange0) as (jn1 & Hjn1 & Hlt).
    exists jn1. split; [done|lia].
Qed.

Lemma filled_joins_app inflight jn w :
  resultInstances jn = [] →
  filled_with inflight w → filled_with inflight (upd_joins (λ js, js ++ [jn]) w).
Proof.
  intros Hempty. apply filled_step.
  - apply settles_joins_app.
  - intros j jn' idx o. cbn [joins upd_joins]. intros Hjn' Ho.
    apply lookup_app_Some in Hjn' as [Hjn'|[_ Hjn']]; [by exists jn'|].
    apply list_lookup_singleton_Some in Hjn' as [_ <-]. by rewrite Hempty in Ho.
  - done.
  - intros i x' j idx Hx' Hin. by exists x'.
  - done.
Qed.

Lemma getResultInstances_filled result callback w w' j :
  joined w → valid_tables w → filled_with [] w →
  getResultInstances result callback w = Normal (w', j) → filled_with [] w'.
Proof.
  intros Hjoined Hvalid Hfilled. gather_cases result Hns.
  set (entries := entries_of result).
  set (w1 := upd_joins (λ js, js ++ [Join (Z.of_nat (length entries)) [] callback]) w).
  assert (filled_with [] w1) as Hf1 by (by apply filled_joins_app).
  assert (joins w1 !! length (joins w) = Some (Join (Z.of_nat (length entries)) [] callback))
    as Hjn1.
  { unfold w1. cbn [joins upd_joins]. by rewrite lookup_app_r, Nat.sub_diag. }
  case_bool_decide as Hn.
  - intros [= <- <-]. set (w2 := upd_joins (alter _ _) w1).
    assert (filled_with [] w2) as Hf2.
    { revert Hf1. apply filled_step.
      - by apply settles_joins_alter.
      - intros j' jn' idx o. unfold w2. cbn [joins upd_joins].
        destruct (decide (length (joins w) = j')) as [<-|Hne].
        + rewrite list_lookup_alter_eq. fold (joins w1). rewrite Hjn1. cbn. intros [= <-]. done.
        + rewrite list_lookup_alter_ne by done. intros Hjn Ho. by exists jn'.
      - done.
      - intros i x' j' idx Hx' Hin. by exists x'.
      - done. }
    unfold join_clear.
    assert (joins w2 !! length (joins w)
            = Some (set_semaphore 1%Z (Join (Z.of_nat (length entries)) [] callback))) as Hjn2.
    { unfold w2. cbn [joins upd_joins]. rewrite list_lookup_alter_eq.
      fold (joins w1). by rewrite Hjn1. }
    rewrite Hjn2. cbn [semaphore set_semaphore resultInstances j_callback].
    change (1 - 1 =? 0)%Z with true. cbn match.
    apply filled_log_gathered; [by constructor|].
    revert Hf2. apply filled_step.
    + by apply settles_joins_alter.
    + intros j' jn' idx o. cbn [joins upd_joins].
      destruct (decide (length (joins w) = j')) as [<-|Hne].
      * rewrite list_lookup_alter_eq, Hjn2. cbn. intros [= <-]. done.
      * rewrite list_lookup_alter_ne by done. intros Hjn Ho. by exists jn'.
    + done.
    + intros i x' j' idx Hx' Hin. by exists x'.
    + done.
  - destruct (gather_loop _ 0 entries w1) as [w2|] eqn:Hloop; cbn [bind]; [|done].
    intros [= <- <-].
    eapply (gather_loop_filled _ _ [] (λ _, 0) 0 w1); [|exact Hvalid|done|done| |exact Hloop].
    + apply (joined_append _ (Join (Z.of_nat (length entries)) [] callback) w w1); try done. lia.
    + eexists. split; [exact Hjn1|]. cbn. lia.
Qed.

(** *** The arrays in reachable worlds *)

Lemma store_ready_filled i w w' :
  joined w → ready_ok w → filled_with [] w →
  store_ready i w = Normal w' → filled_with [] w'.
Proof.
  intros Hjoined [Hflip _] Hfilled. unfold store_ready.
  destruct (heap w !! i) as [x|] eqn:Hx; [|by intros [= <-]].
  destruct (awaiting x) eqn:Hax; [|by intros [= <-]].
  pose proof (joined_awaiting _ _ _ _ Hjoined Hx Hax) as Hrx.
  pose proof (flip_first_lookup _ _ _ Hflip Hx) as Hstart.
  destruct Hstart as [l Hq].
  set (w1 := upd_heap (alter (set_awaiting false) i) w).
  apply (done_filled [] (λ _, 0) (proto x) i w1 w' (set_awaiting false x) l).
  - apply joined_heap_alter; [by intros [] j|by intros y _|done].
  - intros j. cbn. lia.
  - by apply filled_heap_alter.
  - unfold w1. cbn [heap upd_heap]. by rewrite list_lookup_alter_eq, Hx.
  - done.
  - done.
  - done.
Qed.

Lemma filled_perform o w w' :
  external o = true → healthy w → filled_with [] w →
  perform o w = Normal w' → filled_with [] w'.
Proof.
  intros Hext (Hjoined & Hvalid & Hok) Hfilled Hstep.
  destruct o as [fi d a|result callback|i|i]; cbn [perform] in Hstep.
  - destruct (instantiateProvider w fi d a) as [[w1 i]|] eqn:Hcall; cbn [bind] in Hstep; [|done].
    injection Hstep as <-. cbn [fst].
    assert (rc_slots (resolve d a).2 = []) as Hnil.
    { destruct a as [[[f|j0 idx0]|]|[k|k] [[f|j0 idx0]|]]; done. }
    eapply (instantiate_filled [] (λ _, 0) w); [exact Hjoined|done| | | |exact Hcall].
    + intros j. cbn. lia.
    + by rewrite Hnil.
    + intros j idx Hrc. destruct a as [[[f|j0 idx0]|]|[k|k] [[f|j0 idx0]|]]; done.
  - destruct (getResultInstances result callback w) as [[w1 j]|] eqn:Hcall;
      cbn [bind] in Hstep; [|done].
    injection Hstep as <-. by eapply getResultInstances_filled.
  - by eapply store_ready_filled.
  - injection Hstep as <-. eapply filled_tame; [apply store_change_tame|done].
Qed.

Lemma filled_initial w : initial w → filled_with [] w.
Proof.
  intros (_ & _ & _ & Hh & Hj & Htr). split_and!.
  - intros j jn idx. by rewrite Hj, lookup_nil.
  - intros j jn idx i. by rewrite Hj, lookup_nil.
  - intros i x j idx. by rewrite Hh, lookup_nil.
  - intros j idx Hin. by apply elem_of_nil in Hin.
  - intros f j got. rewrite Htr. intros Hin. by apply elem_of_nil in Hin.
Qed.

Lemma filled_reachable w0 w : initial w0 → reachable w0 w → filled_with [] w.
Proof.
  intros Hi. induction 1 as [|w o w' Hreach IH Hext Hstep]; [by apply filled_initial|].
  eapply filled_perform; [done| |exact IH|exact Hstep].
  by apply (healthy_reachable w0).
Qed.

(** As long as no store is given a new key through [setKey]: whenever
    [getResultInstances] calls its callback, the array it passes is
    complete: every entry is an instance, none is the [null] written
    before the instance is known, and every instance in it is ready.
    This holds in every world reached from a fresh context by the four
    kinds of steps of [perform]: instantiations, gatherings over arrays
    whose entries name definitions of the context, stores calling [done]
    for the first time, and store changes.  The wrapper of [setKey],
    which runs the queue of ready callbacks of an instance again, is not
    among these steps; after it the callback can be called with an array
    that still holds a [null]. *)
Theorem gathered_are_ready w0 w f j got :
  initial w0 → reachable w0 w → EGathered f j got ∈ trace w →
  Forall (λ o, ∃ i x, o = Some i ∧ heap w !! i = Some x ∧ ready x = true) got.
Proof.
  intros Hi Hreach Hin.
  destruct (filled_reachable w0 w Hi Hreach) as (_ & _ & _ & _ & F4).
  eapply Forall_impl; [exact (F4 f j got Hin)|].
  intros o (i & -> & Hready). destruct (instance_ready_lookup w i Hready) as (x & Hx & Hrx).
  by exists i, x.
Qed.

Lemma gathered_are_ready_witness :
  Forall (λ o, ∃ i x, o = Some i
                      ∧ heap (world_after [GetResultInstances (Entries [Props "list"; Props "user"]) 9;
                                           StoreReady 0] fresh_world) !! i = Some x
                      ∧ ready x = true)
    [Some 0; Some 1].
Proof.
  apply (gathered_are_ready fresh_world _ 9 0 _ fresh_world_initial).
  - apply (reachable_run [GetResultInstances (Entries [Props "list"; Props "user"]) 9; StoreReady 0]);
      vm_compute; reflexivity.
  - vm_compute. repeat first [apply list_elem_of_here | apply list_elem_of_further].
Defined.

End GatheringFacts.

(* ===================================================================== *)
(** ** The query cache                                                   *)
(* ===================================================================== *)

Module CachingFacts.
Import Js Provider Query QuerySpec Caching MergeFacts ProviderFacts QueryFacts.
Local Open Scope nat_scope.

(** *** The handler found *)

Lemma first_handler_head rs : first_handler rs = head (omap handleQuery rs).
Proof.
  unfold first_handler. induction rs as [|r rs IH]; [done|].
  cbn [list_find omap list_omap]. destruct (handleQuery r) as [h|] eqn:Hh.
  - rewrite decide_True by (by eexists). cbn. by rewrite Hh.
  - rewrite decide_False by (by intros [? ?]). cbn [head].
    rewrite <- IH. by destruct (list_find _ rs) as [[i r']|].
Qed.

(** [getQueryHandler] returns the first [handleQuery] of the replication
    in document order, with the [reducerKeys] of its replication entry
    or, when the entry has none, the keys of the provider's reducers; it
    returns null exactly when there is no [handleQuery]. *)
Theorem query_handler_is_first p : getQueryHandler p = head (handlers_of p).
Proof.
  unfold getQueryHandler, handlers_of. destruct (replication p) as [r|]; [|done].
  induction (to_array r) as [|entry entries IH]; [done|].
  cbn [find_handler flat_map]. destruct (replicator entry) as [rs|]; cbn [mbind option_bind].
  - rewrite first_handler_head. destruct (omap handleQuery (to_array rs)) as [|h hs]; [|done].
    cbn [head fmap list_fmap app]. apply IH.
  - apply IH.
Qed.

Section Cache.
Context (stringify : val → string) (shallowEqual : val → val → bool).

Local Abbreviation result_handler := (Query.result_handler shallowEqual).
Local Abbreviation drain := (Query.drain shallowEqual).
Local Abbreviation on_result := (Query.on_result shallowEqual).
Local Abbreviation process_entry := (Query.process_entry stringify shallowEqual).
Local Abbreviation process_entries := (Query.process_entries stringify shallowEqual).
Local Abbreviation handleQueries := (Query.handleQueries stringify shallowEqual).
Local Abbreviation qreachable := (Query.qreachable stringify shallowEqual).
Local Abbreviation resultKey_of := (Query.resultKey_of stringify).

(** *** Answers enter the cache *)

Lemma clear_call_queryResults c w w' :
  clear_call c w = Normal w' → queryResults w' = queryResults w.
Proof.
  unfold clear_call.
  destruct (calls w !! c) as [st|]; [|by intros [= <-]].
  destruct (semaphore st) as [s|]; [|by intros [= <-]].
  destruct (s - 1 =? 0)%Z; [|by intros [= <-]].
  destruct (has_query st); [destruct (Merge.getMergedResult (results st)); [|done]|];
    cbn [bind]; destruct (has_callback st), (doUpdate st && has_update st);
    by intros [= <-].
Qed.

Lemma result_handler_queryResults c key rk v w w' :
  result_handler c key rk v w = Normal w' → queryResults w' = <[rk := v]> (queryResults w).
Proof.
  unfold Query.result_handler. set (w1 := upd_queryResults _ _).
  destruct (clear_call c w1) as [w2|] eqn:Hclear; cbn [bind]; [|done].
  intros [= <-]. cbn [queryResults qlog]. by rewrite (clear_call_queryResults _ _ _ Hclear).
Qed.

Lemma drain_queryResults rk v hs : ∀ w w',
  drain rk v hs w = Normal w' → hs ≠ [] → queryResults w' = <[rk := v]> (queryResults w).
Proof.
  induction hs as [|[c key] hs IH]; intros w w'; cbn [Query.drain]; [done|].
  destruct (result_handler c key rk v w) as [w1|] eqn:H1; cbn [bind]; [|done].
  intros H2 _. apply result_handler_queryResults in H1.
  destruct hs as [|h hs].
  - cbn in H2. by injection H2 as <-.
  - rewrite (IH _ _ H2), H1 by done. apply insert_insert_eq.
Qed.

(** When a replicator answers an execution that has result handlers,
    the answer is stored in [queryResults] under the execution's result
    key, and no other entry changes; the next lookup of that key finds it,
    unless the answer is [undefined], which counts as no result. *)
Theorem answers_are_cached e v w w' x :
  executions w !! e = Some x → x_handlers x ≠ [] → on_result e v w = Normal w' →
  queryResults w' = <[x_key x := v]> (queryResults w)
  ∧ cached w' (x_key x) = if typeof_undefined v then None else Some v.
Proof.
  intros Hx Hhs. unfold Query.on_result. rewrite Hx. intros Hdrain.
  apply drain_queryResults in Hdrain; [|done]. cbn [queryResults upd_executions upd_active] in Hdrain.
  split; [done|]. unfold cached. by rewrite Hdrain, lookup_insert_eq.
Qed.

(** *** What is added to the trace *)

Section Growth.

Variable P : qevent → Prop.
Hypothesis P_wait : ∀ key f, P (QWait key f).
Hypothesis P_clear : ∀ key f, P (QClear key f).
Hypothesis P_result : ∀ c key v, P (QResult c key v).
Hypothesis P_update : ∀ c, P (QUpdate c).
Hypothesis P_callback : ∀ c, P (QCallback c).
Hypothesis P_handle : ∀ h rk query ks o, P (QHandle h rk query (VObj (with_select ks o))).

Lemma grows_refl w : grows_by P w w.
Proof. exists []. by rewrite app_nil_r. Qed.

Lemma grows_trans w1 w2 w3 : grows_by P w1 w2 → grows_by P w2 w3 → grows_by P w1 w3.
Proof.
  intros (es1 & H1 & F1) (es2 & H2 & F2). exists (es1 ++ es2).
  split; [by rewrite H2, H1, app_assoc|by apply Forall_app].
Qed.

Lemma grows_silent w w' : qtrace w' = qtrace w → grows_by P w w'.
Proof. intros H. exists []. by rewrite app_nil_r. Qed.

Lemma grows_log es w : Forall P es → grows_by P w (qlog es w).
Proof. intros H. by exists es. Qed.

Lemma grows_clear_call c w w' : clear_call c w = Normal w' → grows_by P w w'.
Proof.
  unfold clear_call.
  destruct (calls w !! c) as [st|]; [|intros [= <-]; apply grows_refl].
  destruct (semaphore st) as [s|]; [|intros [= <-]; apply grows_refl].
  destruct (s - 1 =? 0)%Z; [|intros [= <-]; by apply grows_silent].
  destruct (has_query st); [destruct (Merge.getMergedResult (results st)); [|done]|];
    cbn [bind]; destruct (has_callback st), (doUpdate st && has_update st);
    intros [= <-];
    first [ by apply grows_silent
          | (exists [QUpdate c; QCallback c]; split;
               [cbn [qtrace qlog upd_calls]; by rewrite <- app_assoc|by repeat constructor])
          | (exists [QUpdate c]; by split; [|repeat constructor])
          | (exists [QCallback c]; by split; [|repeat constructor]) ].
Qed.

Lemma grows_result_handler c key rk v w w' :
  result_handler c key rk v w = Normal w' → grows_by P w w'.
Proof.
  unfold Query.result_handler. set (w1 := upd_queryResults _ _).
  destruct (clear_call c w1) as [w2|] eqn:Hclear; cbn [bind]; [|done].
  intros [= <-]. apply (grows_trans _ w1).
  { exists [QResult c key v]. split; [done|by repeat constructor]. }
  apply (grows_trans _ w2); [by eapply grows_clear_call|].
  apply grows_log, Forall_fmap, Forall_forall. intros f _. apply P_clear.
Qed.

Lemma grows_drain rk v hs : ∀ w w', drain rk v hs w = Normal w' → grows_by P w w'.
Proof.
  induction hs as [|[c key] hs IH]; intros w w'; cbn [Query.drain].
  - intros [= <-]. apply grows_refl.
  - destruct (result_handler c key rk v w) as [w1|] eqn:H1; cbn [bind]; [|done].
    intros H2. apply (grows_trans _ w1); [by eapply grows_result_handler|by eapply IH].
Qed.

Lemma grows_on_result e v w w' : on_result e v w = Normal w' → grows_by P w w'.
Proof.
  unfold Query.on_result. destruct (executions w !! e) as [x|]; [|intros [= <-]; apply grows_refl].
  intros H. apply grows_drain in H. destruct H as (es & Hes & HF). by exists es.
Qed.

Lemma grows_process_entry c q st st' :
  process_entry c q st = Normal st' → grows_by P (l_world st) (l_world st').
Proof.
  destruct q as [key query]. unfold Query.process_entry.
  set (options := match l_queryOptions st with Some o => o | None => _ end).
  set (rk := Query.resultKey_of stringify query options).
  destruct (cached (l_world st) rk) as [v|].
  { set (w1 := upd_calls _ _).
    destruct (clear_call c w1) as [w2|] eqn:Hclear; cbn [bind]; [|done].
    intros [= <-]. cbn [l_world]. apply grows_clear_call in Hclear.
    destruct Hclear as (es & Hes & HF). by exists es. }
  destruct (q_providers (l_world st) !! key) as [p|]; [|done].
  cbn [activeQueries qlog].
  set (w1 := qlog _ (l_world st)).
  assert (grows_by P (l_world st) w1) as H1.
  { apply grows_log, Forall_fmap, Forall_forall. intros f _. apply P_wait. }
  destruct (activeQueries (l_world st) !! rk) as [e|].
  { intros [= <-]. cbn [l_world]. destruct H1 as (es & Hes & HF). by exists es. }
  destruct (getQueryHandler p) as [[h reducerKeys]|]; [|done].
  set (w4 := qlog [QHandle _ _ _ _] _).
  assert (grows_by P (l_world st) w4) as H4.
  { apply (grows_trans _ w1); [done|]. exists [QHandle (hq_name h) rk query
                                                 (VObj (with_select reducerKeys options))].
    split; [done|]. repeat constructor. apply P_handle. }
  destruct (hq_answer h query _) as [v|].
  - destruct (Query.on_result shallowEqual _ v w4) as [w5|] eqn:Hres; cbn [bind]; [|done].
    intros [= <-]. cbn [l_world]. apply (grows_trans _ w4); [done|by eapply grows_on_result].
  - cbn [bind]. by intros [= <-].
Qed.

Lemma grows_process_entries c qs : ∀ st st',
  process_entries c qs st = Normal st' → grows_by P (l_world st) (l_world st').
Proof.
  induction qs as [|q qs IH]; intros st st'; cbn [Query.process_entries].
  - intros [= <-]. apply grows_refl.
  - destruct (process_entry c q st) as [st1|] eqn:H1; cbn [bind]; [|done].
    intros H2. apply (grows_trans _ (l_world st1));
      [by eapply grows_process_entry|by eapply IH].
Qed.

Lemma grows_handleQueries r w w' b :
  handleQueries r w = Normal (w', b) → grows_by P w w'.
Proof.
  unfold Query.handleQueries. destruct (r_queries r) as [qs|].
  - destruct (process_entries _ qs _) as [st'|] eqn:Hloop; cbn [bind]; [|done].
    intros [= <- <-]. apply grows_process_entries in Hloop.
    destruct Hloop as (es & Hes & HF). by exists es.
  - intros [= <- <-]. destruct (r_callback r); [|by apply grows_silent].
    exists [QCallback (length (calls w))]. split; [done|by repeat constructor].
Qed.

Lemma grows_qreachable w0 w : qreachable w0 w → grows_by P w0 w.
Proof.
  induction 1 as [|w o w' _ IH _ Hstep]; [apply grows_refl|].
  apply (grows_trans _ w); [done|]. destruct o as [r|e v]; cbn [Query.qperform] in Hstep.
  - destruct (handleQueries r w) as [[w1 b]|] eqn:Hcall; cbn [bind] in Hstep; [|done].
    injection Hstep as <-. by eapply grows_handleQueries.
  - by eapply grows_on_result.
Qed.

End Growth.

Lemma select_with_select ks o : ∃ xs, get_prop "select" (with_select ks o) = Some (VArr xs).
Proof.
  unfold with_select. destruct (get_prop "select" o) as [[]|] eqn:Hs;
    try (rewrite get_set_prop; by eexists); by eexists.
Qed.

(** Whatever the consumer gives as [select], a [handleQuery] is called
    with options whose [select] is an array: a [select] that is not an
    array is wrapped in one, and a missing [select] is replaced by the
    reducer keys that come with the handler, which are an array of names
    here.  So in every trace that starts from a fresh context, every
    call of a [handleQuery] has such options. *)
Theorem select_is_always_array w0 w e :
  qinitial w0 → qreachable w0 w → e ∈ qtrace w → select_is_array e.
Proof.
  intros (_ & _ & _ & Ht) Hreach He.
  destruct (grows_qreachable select_is_array) with (w0 := w0) (w := w)
    as (es & Hes & HF); try done.
  - intros h rk query ks o. destruct (select_with_select ks o) as [xs Hxs].
    by exists (with_select ks o), xs.
  - rewrite Ht in Hes. cbn in Hes. rewrite Hes in He.
    rewrite Forall_forall in HF. by apply HF.
Qed.

(** *** Queries that cannot be handled *)

(** When the loop of [handleQueries] comes to a key that has no cached
    result and names no provider, the call ends in a [TypeError]. *)
Theorem unknown_provider_raises r w pre key query post st :
  r_queries r = Some (pre ++ (key, query) :: post) →
  process_entries (length (calls w)) pre (loop_start r (pre ++ (key, query) :: post) w)
  = Normal st →
  cached (l_world st) (resultKey_of query (options_for key st)) = None →
  q_providers (l_world st) !! key = None →
  handleQueries r w = Throw TypeError.
Proof.
  intros Hqs Hpre Hcached Hnone.
  rewrite (handleQueries_loop stringify shallowEqual _ _ _ Hqs).
  rewrite (process_entries_app stringify shallowEqual).
  unfold loop_start in Hpre |- *. rewrite Hpre. cbn [bind Query.process_entries].
  unfold Query.process_entry.
  change (match l_queryOptions st with
          | Some o => o
          | None => default [] (get_prop key (l_queriesOptions st))
          end) with (options_for key st).
  by rewrite Hcached, Hnone.
Qed.

(** *** Queries answered from the cache *)

Lemma alter_as_insert {A} (f : A → A) i (l : list A) x :
  l !! i = Some x → alter f i l = <[i := f x]> l.
Proof.
  revert i. induction l as [|y l IH]; intros [|i]; cbn; try done.
  - by intros [= ->].
  - intros H. f_equal. by apply IH.
Qed.

Lemma qcount_cons f e (t : list qevent) :
  qcount f (e :: t) = (if f e then 1 else 0) + qcount f t.
Proof. unfold qcount. rewrite filter_cons. by destruct (f e). Qed.

(** What [clear] does, when the merge it may have to make goes through. *)
Lemma clear_call_spec c w st s :
  calls w !! c = Some st → semaphore st = Some s →
  ((s - 1)%Z = 0%Z → has_query st = true →
   ∃ m, Merge.getMergedResult (results st) = Normal m) →
  ∃ w' st' es,
    clear_call c w = Normal w'
    ∧ activeQueries w' = activeQueries w
    ∧ executions w' = executions w
    ∧ queryResults w' = queryResults w
    ∧ calls w' = <[c := st']> (calls w)
    ∧ semaphore st' = Some (s - 1)%Z
    ∧ results st' = results st
    ∧ has_query st' = has_query st
    ∧ has_callback st' = has_callback st
    ∧ ((s - 1)%Z = 0%Z → has_query st = true →
       Merge.getMergedResult (results st) = Normal (result st'))
    ∧ qtrace w' = qtrace w ++ es
    ∧ Forall (λ e, is_any_handle e = false ∧ is_any_qwait e = false) es
    ∧ qcount (is_callback c) es = if (s - 1 =? 0)%Z && has_callback st then 1 else 0.
Proof.
  intros Hst Hs Hmerge. unfold clear_call. rewrite Hst, Hs.
  destruct (Z.eqb_spec (s - 1) 0) as [Hz|Hz]; cbn [andb].
  2:{ exists (upd_calls (alter (set_join (Some (s - 1)%Z)) c) w),
             (set_join (Some (s - 1)%Z) st), [].
      cbn [activeQueries executions queryResults calls qtrace upd_calls].
      rewrite (alter_as_insert _ _ _ _ Hst), app_nil_r.
      split_and!; try done. }
  set (w1 := upd_calls (alter (set_join (Some (s - 1)%Z)) c) w).
  assert (calls w1 = <[c := set_join (Some (s - 1)%Z) st]> (calls w)) as Hc1
    by (unfold w1; cbn [calls upd_calls]; by apply alter_as_insert).
  assert (∀ w2 st2,
            activeQueries w2 = activeQueries w → executions w2 = executions w →
            queryResults w2 = queryResults w → qtrace w2 = qtrace w →
            calls w2 = <[c := st2]> (calls w) →
            ∃ w' es,
              Normal (if has_callback st
                      then qlog [QCallback c]
                             (if doUpdate st && has_update st then qlog [QUpdate c] w2 else w2)
                      else (if doUpdate st && has_update st then qlog [QUpdate c] w2 else w2))
              = Normal w'
              ∧ activeQueries w' = activeQueries w ∧ executions w' = executions w
              ∧ queryResults w' = queryResults w ∧ calls w' = <[c := st2]> (calls w)
              ∧ qtrace w' = qtrace w ++ es
              ∧ Forall (λ e, is_any_handle e = false ∧ is_any_qwait e = false) es
              ∧ qcount (is_callback c) es = if has_callback st then 1 else 0) as Hfin.
  { intros w2 st2 Ha He Hq Ht Hc.
    destruct (has_callback st), (doUpdate st && has_update st).
    - eexists _, [QUpdate c; QCallback c]. split; [reflexivity|].
      cbn [activeQueries executions queryResults calls qtrace qlog]. rewrite Ht, <- app_assoc.
      split_and!; try done; [by repeat constructor|].
      rewrite !qcount_cons. cbn [is_callback]. by rewrite Nat.eqb_refl.
    - eexists _, [QCallback c]. split; [reflexivity|].
      cbn [activeQueries executions queryResults calls qtrace qlog]. rewrite Ht.
      split_and!; try done; [by repeat constructor|].
      rewrite !qcount_cons. cbn [is_callback]. by rewrite Nat.eqb_refl.
    - eexists _, [QUpdate c]. split; [reflexivity|].
      cbn [activeQueries executions queryResults calls qtrace qlog]. rewrite Ht.
      split_and!; try done. by repeat constructor.
    - eexists _, []. split; [reflexivity|]. rewrite Ht, app_nil_r.
      split_and!; try done. }
  destruct (has_query st) eqn:Hq.
  - destruct (Hmerge Hz eq_refl) as [m Hm]. rewrite Hm. cbn [bind].
    destruct (Hfin (upd_calls (alter (set_result m) c) w1)
                (set_result m (set_join (Some (s - 1)%Z) st)))
      as (w' & es & Hw' & Ha & He & Hqr & Hc & Ht & HF & Hn); try done.
    { cbn [calls upd_calls]. rewrite Hc1.
      rewrite (alter_as_insert _ _ _ (set_join (Some (s - 1)%Z) st)).
      - by rewrite list_insert_insert_eq.
      - apply list_lookup_insert_eq. by apply lookup_lt_Some in Hst. }
    exists w', (set_result m (set_join (Some (s - 1)%Z) st)), es.
    rewrite Hw'. split_and!; try done.
  - cbn [bind].
    destruct (Hfin w1 (set_join (Some (s - 1)%Z) st))
      as (w' & es & Hw' & Ha & He & Hqr & Hc & Ht & HF & Hn); try done.
    exists w', (set_join (Some (s - 1)%Z) st), es.
    rewrite Hw'. split_and!; try done.
Qed.



(** *** Options shared by the queries of a call *)

Lemma with_select_idem ks ks' o : with_select ks' (with_select ks o) = with_select ks o.
Proof.
  destruct (select_with_select ks o) as [xs Hxs]. unfold with_select at 1. by rewrite Hxs.
Qed.

(** A turn of the loop that issues a new execution whose replicator
    answers at a later turn. *)
Lemma process_entry_cold c key query st p h ks :
  cached (l_world st) (resultKey_of query (options_for key st)) = None →
  q_providers (l_world st) !! key = Some p →
  activeQueries (l_world st) !! resultKey_of query (options_for key st) = None →
  getQueryHandler p = Some (h, ks) →
  hq_answer h query (VObj (with_select ks (options_for key st))) = None →
  ∃ st',
    process_entry c (key, query) st = Normal st'
    ∧ l_queryOptions st' = with_select ks <$> l_queryOptions st
    ∧ q_providers (l_world st') = q_providers (l_world st)
    ∧ queryResults (l_world st') = queryResults (l_world st)
    ∧ activeQueries (l_world st')
      = <[resultKey_of query (options_for key st) := length (executions (l_world st))]>
          (activeQueries (l_world st))
    ∧ qtrace (l_world st')
      = qtrace (l_world st)
        ++ (QWait key <$> callback_list (wait p))
        ++ [QHandle (hq_name h) (resultKey_of query (options_for key st)) query
              (VObj (with_select ks (options_for key st)))].
Proof.
  intros Hcached Hp Hactive Hh Hanswer. unfold Query.process_entry.
  change (match l_queryOptions st with
          | Some o => o
          | None => default [] (get_prop key (l_queriesOptions st))
          end) with (options_for key st).
  rewrite Hcached, Hp. cbn [activeQueries qlog]. rewrite Hactive, Hh, Hanswer.
  cbn [bind]. eexists. split; [done|].
  cbn [l_queryOptions l_world q_providers queryResults activeQueries qtrace
       qlog upd_active upd_executions].
  split_and!; try done.
  - unfold options_for. by destruct (l_queryOptions st).
  - by rewrite <- app_assoc.
Qed.

(** The options object given as [queryOptions] is shared by all queries
    of a call, and the loop writes [select] into it.  So when it has no
    [select], the reducer keys of the first provider that is asked are
    written there and stay: the next provider is asked with the first
    provider's keys as [select], under a result key that includes
    them. *)
Theorem first_select_is_shared c k1 q1 k2 q2 st o p1 p2 h1 ks1 h2 ks2 :
  l_queryOptions st = Some o → get_prop "select" o = None →
  q_providers (l_world st) !! k1 = Some p1 → getQueryHandler p1 = Some (h1, ks1) →
  q_providers (l_world st) !! k2 = Some p2 → getQueryHandler p2 = Some (h2, ks2) →
  cached (l_world st) (resultKey_of q1 o) = None →
  activeQueries (l_world st) !! resultKey_of q1 o = None →
  hq_answer h1 q1 (VObj (with_select ks1 o)) = None →
  cached (l_world st) (resultKey_of q2 (with_select ks1 o)) = None →
  activeQueries (l_world st) !! resultKey_of q2 (with_select ks1 o) = None →
  resultKey_of q2 (with_select ks1 o) ≠ resultKey_of q1 o →
  hq_answer h2 q2 (VObj (with_select ks1 o)) = None →
  ∃ st',
    process_entries c [(k1, q1); (k2, q2)] st = Normal st'
    ∧ l_queryOptions st' = Some (set_prop "select" (VArr (VStr <$> ks1)) o)
    ∧ filter (λ e, is_any_handle e = true)
        (drop (length (qtrace (l_world st))) (qtrace (l_world st')))
      = [QHandle (hq_name h1) (resultKey_of q1 o) q1
           (VObj (set_prop "select" (VArr (VStr <$> ks1)) o));
         QHandle (hq_name h2) (resultKey_of q2 (set_prop "select" (VArr (VStr <$> ks1)) o)) q2
           (VObj (set_prop "select" (VArr (VStr <$> ks1)) o))].
Proof.
  intros Ho Hsel Hp1 Hh1 Hp2 Hh2 Hc1 Ha1 Hans1 Hc2 Ha2 Hne Hans2.
  assert (with_select ks1 o = set_prop "select" (VArr (VStr <$> ks1)) o) as Hws
    by (unfold with_select; by rewrite Hsel).
  assert (options_for k1 st = o) as Ho1 by (unfold options_for; by rewrite Ho).
  destruct (process_entry_cold c k1 q1 st p1 h1 ks1)
    as (st1 & H1 & Hqo1 & Hpr1 & Hqr1 & Hact1 & Ht1); rewrite ?Ho1; try done.
  rewrite Ho1 in Hact1, Ht1. rewrite Ho in Hqo1. cbn in Hqo1.
  assert (options_for k2 st1 = with_select ks1 o) as Ho2
    by (unfold options_for; by rewrite Hqo1).
  destruct (process_entry_cold c k2 q2 st1 p2 h2 ks2)
    as (st2 & H2 & Hqo2 & Hpr2 & Hqr2 & Hact2 & Ht2); rewrite ?Ho2, ?with_select_idem.
  - unfold cached in *. by rewrite Hqr1.
  - by rewrite Hpr1.
  - rewrite Hact1, lookup_insert_ne; done.
  - done.
  - done.
  - rewrite Ho2, with_select_idem in Ht2. rewrite Hqo1 in Hqo2. cbn in Hqo2.
    rewrite with_select_idem in Hqo2.
    exists st2. cbn [Query.process_entries]. rewrite H1. cbn [bind]. rewrite H2. cbn [bind].
    split; [done|]. split; [by rewrite Hqo2, Hws|].
    rewrite Ht2, Ht1, <- !app_assoc, drop_app_length, <- Hws.
    rewrite !filter_app.
    assert (∀ key fs, filter (λ e, is_any_handle e = true) (QWait key <$> fs) = []) as Hw.
    { intros key fs. induction fs as [|f fs IH]; [done|].
      rewrite fmap_cons, filter_cons. by rewrite decide_False by done. }
    rewrite !Hw. done.
Qed.

(** *** The order of the results *)

(** What [clear] has done when it returns. *)
Lemma clear_call_inv c w w' st s :
  calls w !! c = Some st → semaphore st = Some s → clear_call c w = Normal w' →
  ∃ st', calls w' = <[c := st']> (calls w)
    ∧ executions w' = executions w
    ∧ semaphore st' = Some (s - 1)%Z
    ∧ results st' = results st
    ∧ has_query st' = has_query st
    ∧ ((s - 1)%Z = 0%Z → has_query st = true →
       Merge.getMergedResult (results st) = Normal (result st')).
Proof.
  intros Hst Hs Hclear.
  destruct (clear_call_spec c w st s Hst Hs)
    as (w2 & st' & es & Hcl & _ & Hx & _ & Hc & Hs' & Hr & Hq & _ & Hm & _).
  { intros Hz Hq. destruct (Merge.getMergedResult (results st)) as [m|[]] eqn:Hm;
      [by eexists|].
    exfalso. unfold clear_call in Hclear. rewrite Hst, Hs in Hclear.
    rewrite (proj2 (Z.eqb_eq _ _) Hz), Hq, Hm in Hclear. done. }
  rewrite Hcl in Hclear. injection Hclear as <-. exists st'. split_and!; done.
Qed.

(** One answer for an execution that the handler of call [c] for [key]
    waits on alone: the result goes to the end of the results of [c]. *)
Lemma answer_one c e key v rk w w' st s :
  calls w !! c = Some st → semaphore st = Some s → key ∉ keys (results st) →
  executions w !! e = Some (Execution rk [(c, key)] false) →
  on_result e v w = Normal w' →
  ∃ st', calls w' !! c = Some st'
    ∧ results st' = results st ++ [(key, v)]
    ∧ semaphore st' = Some (s - 1)%Z
    ∧ has_query st' = has_query st
    ∧ executions w' = <[e := Execution rk [] true]> (executions w)
    ∧ ((s - 1)%Z = 0%Z → has_query st = true →
       Merge.getMergedResult (results st') = Normal (result st')).
Proof.
  intros Hst Hs Hkey Hx. unfold Query.on_result. rewrite Hx. cbn [x_key x_handlers Query.drain].
  unfold Query.result_handler. set (w0 := upd_queryResults _ _).
  destruct (clear_call c w0) as [w1|] eqn:Hclear; cbn [bind]; [|done]. intros [= <-].
  set (st0 := set_results (set_prop key v (results st))
                (if negb (doUpdate st)
                    && negb (shallowEqual v (default VUndefined
                                               (get_prop key (previousResults st))))
                 then set_doUpdate true st else st)).
  assert (calls w0 !! c = Some st0) as Hst0.
  { unfold w0. cbn [calls upd_queryResults upd_calls qlog upd_executions upd_active].
    rewrite list_lookup_alter_eq, Hst. cbn. unfold st0. by destruct (_ && _). }
  assert (semaphore st0 = Some s ∧ has_query st0 = has_query st
          ∧ results st0 = results st ++ [(key, v)]) as (Hs0 & Hq0 & Hr0).
  { unfold st0. rewrite <- (MergeFacts.set_prop_fresh key v (results st) Hkey).
    by destruct (_ && _). }
  destruct (clear_call_inv c w0 w1 st0 s Hst0 Hs0 Hclear)
    as (st' & Hc & Hx1 & Hs' & Hr' & Hq' & Hm).
  exists st'. cbn [calls executions qlog]. rewrite Hc, Hx1. split_and!.
  - apply list_lookup_insert_eq. by eapply lookup_lt_Some.
  - by rewrite Hr'.
  - done.
  - by rewrite Hq'.
  - done.
  - intros Hz Hq. rewrite Hr'. apply Hm; [done|]. by rewrite Hq0.
Qed.

(** The same, with the call returning: it does unless this is the last
    result awaited and the merge of the results throws. *)
Lemma answer_one_returns c e key v rk w st s :
  calls w !! c = Some st → semaphore st = Some s →
  executions w !! e = Some (Execution rk [(c, key)] false) →
  ((s - 1)%Z = 0%Z → has_query st = true →
   ∃ m, Merge.getMergedResult (set_prop key v (results st)) = Normal m) →
  ∃ w', on_result e v w = Normal w'.
Proof.
  intros Hst Hs Hx Hm. unfold Query.on_result. rewrite Hx. cbn [x_key x_handlers Query.drain].
  unfold Query.result_handler. set (w0 := upd_queryResults _ _).
  set (st0 := set_results (set_prop key v (results st))
                (if negb (doUpdate st)
                    && negb (shallowEqual v (default VUndefined
                                               (get_prop key (previousResults st))))
                 then set_doUpdate true st else st)).
  assert (calls w0 !! c = Some st0) as Hst0.
  { unfold w0. cbn [calls upd_queryResults upd_calls qlog upd_executions upd_active].
    rewrite list_lookup_alter_eq, Hst. cbn. unfold st0. by destruct (_ && _). }
  assert (semaphore st0 = Some s ∧ has_query st0 = has_query st
          ∧ results st0 = set_prop key v (results st)) as (Hs0 & Hq0 & Hr0).
  { unfold st0. by destruct (_ && _). }
  destruct (clear_call_spec c w0 st0 s Hst0 Hs0) as (w1 & _ & _ & -> & _).
  { rewrite Hr0, Hq0. exact Hm. }
  cbn [bind]. by eexists.
Qed.

(** The answers come one after the other, each for an execution of its
    own: the results of the call grow by them, in their order. *)
Lemma answers_stored c answers w st w' :
  awaits c st answers w →
  answer_all shallowEqual answers w = Normal w' →
  ∃ st', calls w' !! c = Some st'
    ∧ results st' = results st ++ stored answers
    ∧ (answers ≠ [] → has_query st = true →
       Merge.getMergedResult (results st') = Normal (result st')).
Proof.
  revert w st. induction answers as [|[[e key] v] rest IH];
    intros w st (Hst & Hs & Hes & Hkeys & Hdig & Haw); cbn [answer_all].
  - intros [= <-]. exists st. unfold stored. cbn. rewrite app_nil_r. by split_and!.
  - destruct (on_result e v w) as [w1|] eqn:Hone; cbn [bind]; [|done]. intros Hrest.
    change (NoDup (e :: rest.*1.*1)) in Hes.
    change (NoDup (key :: keys (stored rest) ++ keys (results st))) in Hkeys.
    change (Forall (λ k, starts_with_digit k = false)
              (key :: keys (stored rest) ++ keys (results st))) in Hdig.
    pose proof Hkeys as Hall.
    apply NoDup_cons in Hes as [He Hes]. apply NoDup_cons in Hkeys as [Hkey Hkeys].
    apply Forall_cons in Haw as [[rk Hx] Haw]. cbn [fst snd] in Hx.
    destruct (answer_one c e key v rk w w1 st _ Hst Hs) as (st1 & Hst1 & Hr1 & Hs1 & Hq1 & Hx1 & Hm1);
      [by intros Hin; apply Hkey, elem_of_app; right|done|done|].
    destruct (IH w1 st1) as (st' & Hst' & Hr' & Hm'); [|done|].
    { split_and!.
      + done.
      + rewrite Hs1. f_equal. cbn [length]. lia.
      + done.
      + rewrite Hr1. unfold keys at 2. rewrite map_app. cbn [map fst].
        fold (keys (results st)).
        by rewrite app_assoc, <- Permutation_cons_append.
      + rewrite Hr1. unfold keys at 2. rewrite map_app. cbn [map fst].
        fold (keys (results st)).
        by rewrite app_assoc, <- Permutation_cons_append.
      + unfold awaited_by. rewrite Forall_forall in Haw |- *. intros a Ha.
        destruct (Haw a Ha) as [rk' Hx']. exists rk'. rewrite Hx1.
        rewrite list_lookup_insert_ne; [done|]. intros ->. apply He.
        apply list_elem_of_fmap. exists a.1. split; [done|]. apply list_elem_of_fmap.
        by exists a. }
    exists st'. split; [done|]. split.
    + rewrite Hr', Hr1, <- app_assoc. done.
    + intros _ Hq. destruct rest as [|a rest].
      * cbn [answer_all] in Hrest. injection Hrest as <-.
        rewrite Hst1 in Hst'. injection Hst' as <-. apply Hm1; [cbn; lia|done].
      * apply Hm'; [done|]. by rewrite Hq1.
Qed.

(** The answers are all taken when the merge of the results does not
    throw. *)
Lemma answers_taken c answers w st :
  awaits c st answers w →
  (has_query st = true →
   ∃ m, Merge.getMergedResult (results st ++ stored answers) = Normal m) →
  ∃ w', answer_all shallowEqual answers w = Normal w'.
Proof.
  revert w st. induction answers as [|[[e key] v] rest IH];
    intros w st (Hst & Hs & Hes & Hkeys & Hdig & Haw) Hmerge; cbn [answer_all]; [by eexists|].
  change (NoDup (e :: rest.*1.*1)) in Hes.
  change (NoDup (key :: keys (stored rest) ++ keys (results st))) in Hkeys.
  change (Forall (λ k, starts_with_digit k = false)
            (key :: keys (stored rest) ++ keys (results st))) in Hdig.
  apply NoDup_cons in Hes as [He Hes]. apply NoDup_cons in Hkeys as [Hkey Hkeys].
  apply Forall_cons in Haw as [[rk Hx] Haw]. cbn [fst snd] in Hx.
  assert (key ∉ keys (results st)) as Hfresh
    by (intros Hin; apply Hkey, elem_of_app; by right).
  destruct (answer_one_returns c e key v rk w st _ Hst Hs Hx) as [w1 Hone].
  { intros Hz Hq. rewrite (MergeFacts.set_prop_fresh key v (results st) Hfresh).
    assert (rest = []) as -> by (destruct rest; [done|cbn [length] in Hz; lia]).
    by apply Hmerge. }
  rewrite Hone. cbn [bind].
  destruct (answer_one c e key v rk w w1 st _ Hst Hs Hfresh Hx Hone)
    as (st1 & Hst1 & Hr1 & Hs1 & Hq1 & Hx1 & _).
  apply (IH w1 st1).
  - split_and!.
    + done.
    + rewrite Hs1. f_equal. cbn [length]. lia.
    + done.
    + rewrite Hr1. unfold keys at 2. rewrite map_app. cbn [map fst].
      fold (keys (results st)).
      rewrite app_assoc, <- Permutation_cons_append.
      by apply NoDup_cons.
    + rewrite Hr1. unfold keys at 2. rewrite map_app. cbn [map fst].
      fold (keys (results st)).
      by rewrite app_assoc, <- Permutation_cons_append.
    + unfold awaited_by. rewrite Forall_forall in Haw |- *. intros a Ha.
      destruct (Haw a Ha) as [rk' Hx']. exists rk'. rewrite Hx1.
      rewrite list_lookup_insert_ne; [done|]. intros ->. apply He.
      apply list_elem_of_fmap. exists a.1. split; [done|]. apply list_elem_of_fmap.
      by exists a.
  - rewrite Hq1, Hr1, <- app_assoc. exact Hmerge.
Qed.

(** C4, as the code has it.  The results of a call are merged in the
    order in which they were stored, which for results that replicators
    answer is the order of the answers and not that of the loop over the
    providers.  When a call waits for answers, each for an execution of
    its own, and they come in any order, each result goes to the end of
    the results (the provider keys are taken not to start with a digit:
    an object enumerates its array indices first), and with the last the
    result of a flat query is the merge of the results in that order.
    For results that are all plain objects the answers are all taken and
    the result is their shallow merge in that order, later results
    overriding earlier ones key by key; for results that are all arrays
    it is their concatenation in that order.  So {a:1} then {b:2} merge
    to {a:1,b:2}, and [1] then [2] to [1,2]. *)
Theorem merge_in_arrival_order :
  (∀ c answers w st w',
     awaits c st answers w →
     answer_all shallowEqual answers w = Normal w' →
     ∃ st', calls w' !! c = Some st'
       ∧ results st' = results st ++ stored answers
       ∧ (answers ≠ [] → has_query st = true →
          Merge.getMergedResult (results st') = Normal (result st')))
  ∧ (∀ c answers w st rs,
       awaits c st answers w → answers ≠ [] → has_query st = true →
       results st ++ stored answers = MergeSpec.as_objects rs →
       ∃ w' st', answer_all shallowEqual answers w = Normal w'
         ∧ calls w' !! c = Some st'
         ∧ results st' = MergeSpec.as_objects rs
         ∧ result st' = VObj (MergeSpec.shallow_merge (map snd rs)))
  ∧ (∀ k objs, get_prop k (MergeSpec.shallow_merge objs) = MergeSpec.lookup_merged k objs)
  ∧ (∀ c answers w st rs,
       awaits c st answers w → answers ≠ [] → has_query st = true →
       results st ++ stored answers = MergeSpec.as_arrays rs →
       ∃ w' st', answer_all shallowEqual answers w = Normal w'
         ∧ calls w' !! c = Some st'
         ∧ results st' = MergeSpec.as_arrays rs
         ∧ result st' = VArr (concat (map snd rs)))
  ∧ Merge.getMergedResult [("A", VObj [("a", VNum 1)]); ("B", VObj [("b", VNum 2)])]
    = Normal (VObj [("a", VNum 1); ("b", VNum 2)])
  ∧ Merge.getMergedResult [("A", VArr [VNum 1]); ("B", VArr [VNum 2])]
    = Normal (VArr [VNum 1; VNum 2]).
Proof.
  destruct MergeFacts.merge_law as (Hobj & Hlook & Harr & Hex1 & Hex2).
  split_and!; [exact answers_stored| |exact Hlook| |exact Hex1|exact Hex2].
  - intros c answers w st rs Haw Hne Hq Hrs.
    assert (∃ r rs', rs = r :: rs') as (r & rs' & ->).
    { destruct rs as [|r rs']; [|by eexists _, _]. destruct answers; [done|].
      by destruct (results st). }
    destruct (answers_taken c answers w st Haw) as [w' Hall].
    { intros _. rewrite Hrs, Hobj. by eexists. }
    destruct (answers_stored c answers w st w' Haw Hall) as (st' & Hst' & Hr' & Hm').
    exists w', st'. rewrite Hr', Hrs. split_and!; try done.
    specialize (Hm' Hne Hq). rewrite Hr', Hrs, Hobj in Hm'. by injection Hm' as <-.
  - intros c answers w st rs Haw Hne Hq Hrs.
    assert (∃ r rs', rs = r :: rs') as (r & rs' & ->).
    { destruct rs as [|r rs']; [|by eexists _, _]. destruct answers; [done|].
      by destruct (results st). }
    destruct (answers_taken c answers w st Haw) as [w' Hall].
    { intros _. rewrite Hrs, Harr. by eexists. }
    destruct (answers_stored c answers w st w' Haw Hall) as (st' & Hst' & Hr' & Hm').
    exists w', st'. rewrite Hr', Hrs. split_and!; try done.
    specialize (Hm' Hne Hq). rewrite Hr', Hrs, Harr in Hm'. by injection Hm' as <-.
Qed.

End Cache.

End CachingFacts.

(* ===================================================================== *)
(** ** The query cache at work                                           *)
(* ===================================================================== *)

Module CachingWitnesses.
Import Js Provider Query QuerySpec Examples Caching Scenes QueryFacts CachingFacts.
Local Open Scope nat_scope.

(** The hypotheses of [merge_in_arrival_order] in a context with [list]
    and [tags]: a flat query asks both, and they answer in the order of
    the loop. *)
Lemma merge_in_arrival_order_witness :
  ∃ w' st',
    answer_all same [(0, "list", VArr [VNum 1]); (1, "tags", VArr [VNum 2])]
      (context_after
         [HandleQueries (Request (Some [("list", items_query);
                                        ("tags", VObj [("tags", VNum 1)])])
                           true false None [] [] false true)]
         shop_context) = Normal w'
    ∧ calls w' !! 0 = Some st'
    ∧ results st' = MergeSpec.as_arrays [("list", [VNum 1]); ("tags", [VNum 2])]
    ∧ result st' = VArr (concat (map snd [("list", [VNum 1]); ("tags", [VNum 2])])).
Proof.
  refine (proj1 (proj2 (proj2 (proj2 (merge_in_arrival_order same)))) 0
            [(0, "list", VArr [VNum 1]); (1, "tags", VArr [VNum 2])] _
            (Call 2 (Some 2%Z) true false true false [] [] VUndefined)
            [("list", [VNum 1]); ("tags", [VNum 2])] _ _ _ _).
  - split_and!.
    + vm_compute. reflexivity.
    + reflexivity.
    + by apply (bool_decide_unpack _).
    + by apply (bool_decide_unpack _).
    + by repeat constructor.
    + repeat constructor; eexists; vm_compute; reflexivity.
  - done.
  - reflexivity.
  - reflexivity.
Defined.

(** C4 as stated fails.  A flat query asks [list] and then [tags], and
    their handlers are called in that order.  The replicator of [tags]
    answers [2] first, that of [list] answers [1] after it: the merged
    result is [2,1], the order of the answers, not [1,2].  And when two
    providers are asked the same query with the same options, the second
    joins the execution of the first: its handler is never called, both
    take the answer [1] of the first, and the merged result is [1,1]. *)
Lemma arrival_order_is_not_processing_order :
  qtrace (context_after
            [HandleQueries (Request (Some [("list", items_query);
                                           ("tags", VObj [("tags", VNum 1)])])
                              true false None [] [] false true)]
            shop_context)
  = [QWait "list" 1;
     QHandle 1 "{query:{items:1,},options:{},}" items_query
       (VObj [("select", VArr [VStr "items"])]);
     QHandle 2 "{query:{tags:1,},options:{},}" (VObj [("tags", VNum 1)])
       (VObj [("select", VArr [VStr "tags"])])]
  ∧ (result <$> calls
       (context_after
          [HandleQueries (Request (Some [("list", items_query);
                                         ("tags", VObj [("tags", VNum 1)])])
                            true false None [] [] false true);
           Answer 1 (VArr [VNum 2]);
           Answer 0 (VArr [VNum 1])]
          shop_context) !! 0)
    = Some (VArr [VNum 2; VNum 1])
  ∧ qtrace (context_after
              [HandleQueries (Request (Some [("list", items_query); ("bare", items_query)])
                                true false None [] [] false true)]
              fresh_context)
    = [QWait "list" 1;
       QHandle 1 "{query:{items:1,},options:{},}" items_query
         (VObj [("select", VArr [VStr "items"])])]
  ∧ (result <$> calls
       (context_after
          [HandleQueries (Request (Some [("list", items_query); ("bare", items_query)])
                            true false None [] [] false true);
           Answer 0 (VArr [VNum 1])]
          fresh_context) !! 0)
    = Some (VArr [VNum 1; VNum 1]).
Proof. split_and!; vm_compute; reflexivity. Qed.

Lemma answers_are_cached_witness :
  queryResults (context_after [HandleQueries (request_for (Some [("list", items_query)]));
                               Answer 0 (VNum 5)] fresh_context)
  = <["{query:{items:1,},options:{},}" := VNum 5]>
      (queryResults (context_after [HandleQueries (request_for (Some [("list", items_query)]))]
                       fresh_context))
  ∧ cached (context_after [HandleQueries (request_for (Some [("list", items_query)]));
                           Answer 0 (VNum 5)] fresh_context)
      "{query:{items:1,},options:{},}" = Some (VNum 5).
Proof.
  apply (answers_are_cached same 0 (VNum 5)
           (context_after [HandleQueries (request_for (Some [("list", items_query)]))]
              fresh_context) _
           (Execution "{query:{items:1,},options:{},}" [(0, "list")] false)).
  - vm_compute. reflexivity.
  - done.
  - vm_compute. reflexivity.
Defined.

Lemma select_is_always_array_witness :
  select_is_array (QHandle 1 "{query:{items:1,},options:{},}" items_query
                     (VObj [("select", VArr [VStr "items"])])).
Proof.
  apply (select_is_always_array json same fresh_context
           (context_after [HandleQueries (request_for (Some [("list", items_query)]))]
              fresh_context)).
  - apply fresh_context_initial.
  - eapply qreachable_step with
      (o := HandleQueries (request_for (Some [("list", items_query)])));
      [apply qreachable_refl|reflexivity|vm_compute; reflexivity].
  - vm_compute. apply list_elem_of_further, list_elem_of_here.
Defined.

Lemma unknown_provider_raises_witness :
  handleQueries json same (request_for (Some [("list", items_query); ("nobody", VNull)]))
    fresh_context = Throw TypeError.
Proof.
  eapply (unknown_provider_raises json same _ fresh_context
            [("list", items_query)] "nobody" VNull []).
  - reflexivity.
  - vm_compute. reflexivity.
  - vm_compute. reflexivity.
  - vm_compute. reflexivity.
Defined.


Lemma first_select_is_shared_witness :
  ∃ st',
    process_entries json same 0 [("list", items_query); ("tags", VObj [("tags", VNum 1)])]
      (LoopState shop_context (Some []) []) = Normal st'
    ∧ l_queryOptions st' = Some [("select", VArr [VStr "items"])]
    ∧ filter (λ e, is_any_handle e = true) (drop 0 (qtrace (l_world st')))
      = [QHandle 1 "{query:{items:1,},options:{},}" items_query
           (VObj [("select", VArr [VStr "items"])]);
         QHandle 2 "{query:{tags:1,},options:{select:[items,],},}" (VObj [("tags", VNum 1)])
           (VObj [("select", VArr [VStr "items"])])].
Proof.
  apply (first_select_is_shared json same 0 "list" items_query "tags" (VObj [("tags", VNum 1)])
           (LoopState shop_context (Some []) []) [] list_provider tags_provider
           later_handler ["items"] (QueryHandler 2 (λ _ _, None)) ["tags"]);
    try reflexivity.
  vm_compute. congruence.
Defined.

End CachingWitnesses.

(* ===================================================================== *)
(** ** Undefined results in a merge                                      *)
(* ===================================================================== *)

Module MergeMoreFacts.
Import Js Merge MergeSpec MergeMore MergeFacts.

Lemma merge_step_undefined m : merge_step m VUndefined = Normal m.
Proof. done. Qed.

Lemma merge_from_defined m rs : merge_from m (defined_results rs) = merge_from m rs.
Proof.
  revert m. induction rs as [|[k v] rs IH]; intros m; [done|].
  unfold defined_results. rewrite filter_cons. cbn [snd].
  destruct (typeof_undefined v) eqn:Hv.
  - rewrite decide_False by done. destruct v; try done.
  - rewrite decide_True by done. cbn [merge_from].
    destruct (merge_step m v); cbn [bind]; [apply IH|done].
Qed.

Lemma merge_step_defined m v r :
  m ≠ VUndefined → merge_step m v = Normal r → r ≠ VUndefined.
Proof.
  intros Hm. unfold merge_step. destruct (isArray v).
  - destruct (iterate (or_else m (VArr []))); cbn [bind]; [|done].
    destruct (iterate v); cbn [bind]; [|done]. by intros [= <-].
  - destruct (truthy v && typeof_object v); [by intros [= <-]|].
    destruct (typeof_undefined v) eqn:Hv; cbn [negb]; intros [= <-]; [done|].
    by destruct v.
Qed.

Lemma merge_from_never_undefined rs : ∀ m r,
  m ≠ VUndefined → merge_from m rs = Normal r → r ≠ VUndefined.
Proof.
  induction rs as [|[k v] rs IH]; intros m r Hm; cbn [merge_from].
  - by intros [= <-].
  - destruct (merge_step m v) as [m'|] eqn:Hstep; cbn [bind]; [|done].
    apply IH. by eapply merge_step_defined.
Qed.

(** Results that are [undefined] do not count: the merge is that of the
    other results, and when every result is [undefined] it is [null].
    The merged result itself is never [undefined]. *)
Theorem undefined_results_are_skipped :
  (∀ rs, getMergedResult rs = getMergedResult (defined_results rs))
  ∧ (∀ rs, Forall (λ kv, kv.2 = VUndefined) rs → getMergedResult rs = Normal VNull)
  ∧ (∀ rs r, getMergedResult rs = Normal r → r ≠ VUndefined).
Proof.
  split_and!.
  - intros rs. unfold getMergedResult. by rewrite merge_from_defined.
  - intros rs Hrs. unfold getMergedResult. rewrite <- merge_from_defined.
    replace (defined_results rs) with (@nil (string * val)); [done|].
    symmetry. unfold defined_results. induction Hrs as [|[k v] rs Hv _ IH]; [done|].
    rewrite filter_cons. cbn [snd] in *. subst v. by rewrite decide_False by done.
  - intros rs r. unfold getMergedResult. by apply merge_from_never_undefined.
Qed.

End MergeMoreFacts.

(* ===================================================================== *)
(** ** Facts about the getters of a fauxInstance                         *)
(* ===================================================================== *)

Module FauxFacts.
Import Js Faux MergeFacts.

Section Runtime.
Variable inherited : jval → string → jval.

Local Abbreviation field := (Faux.field inherited).
Local Abbreviation member := (Faux.member inherited).
Local Abbreviation getFromContextOrProps := (Faux.getFromContextOrProps inherited).

Lemma field_set_same k v ps : field k (set_prop k v ps) = v.
Proof. unfold Faux.field. by rewrite get_set_prop, String.eqb_refl. Qed.

(** Once a call has returned a value that is not [undefined], the value
    stays: every later call for that key returns it and leaves the
    fauxInstance alone, whatever [props], [context] and the default have
    become, and without reading them. *)
Theorem context_or_props_cached fauxInstance key defaultValue v fauxInstance' :
  getFromContextOrProps fauxInstance key defaultValue = Normal (v, fauxInstance') →
  is_undefined v = false →
  field key fauxInstance' = v
  ∧ ∀ later defaultValue',
      field key later = v →
      getFromContextOrProps later key defaultValue' = Normal (v, later).
Proof.
  intros Hcall Hv.
  assert (field key fauxInstance' = v) as Hf.
  { unfold Faux.getFromContextOrProps in Hcall.
    destruct (is_undefined (field key fauxInstance)); [|by injection Hcall as <- <-].
    destruct (member (field "props" fauxInstance) key) as [pv|]; cbn [bind] in Hcall; [|done].
    destruct (is_undefined pv); cbn [negb] in Hcall.
    - destruct (member (field "context" fauxInstance) key) as [cv|]; cbn [bind] in Hcall;
        [|done].
      destruct (is_undefined cv); cbn [negb] in Hcall; by injection Hcall as <- <-.
    - by injection Hcall as <- <-. }
  split; [done|]. intros later d' Hl. unfold Faux.getFromContextOrProps. by rewrite Hl, Hv.
Qed.

Section FunctionFacts.
Variable invoke : nat → list (string * jval) → jval.

(** What [getFunctionOrObject] returns is never [undefined]: it is what
    the fauxInstance already had under [key], or a truthy value, or the
    default ([null] when none is given), which stands in for every falsy
    value of the prop and of the function's result.  It is stored under
    [key], so every later call returns it without calling the function
    again, whatever [props] has become. *)
Theorem function_or_object_memoised fauxInstance key defaultValue v fauxInstance' :
  getFunctionOrObject inherited invoke fauxInstance key defaultValue
  = Normal (v, fauxInstance') →
  is_undefined v = false
  ∧ (v = field key fauxInstance ∨ jtruthy v = true
     ∨ v = if is_undefined defaultValue then JData VNull else defaultValue)
  ∧ field key fauxInstance' = v
  ∧ ∀ invoke' later defaultValue',
      field key later = v →
      getFunctionOrObject inherited invoke' later key defaultValue' = Normal (v, later).
Proof.
  intros Hcall.
  assert (is_undefined v = false
          ∧ (v = field key fauxInstance ∨ jtruthy v = true
             ∨ v = if is_undefined defaultValue then JData VNull else defaultValue)
          ∧ field key fauxInstance' = v) as (Hv & Hor & Hf).
  { unfold getFunctionOrObject in Hcall.
    destruct (is_undefined (field key fauxInstance)) eqn:Hu; cbn [negb] in Hcall.
    - destruct (member (field "props" fauxInstance) key) as [value|]; cbn [bind] in Hcall;
        [|done].
      rewrite field_set_same in Hcall. injection Hcall as <- <-.
      rewrite field_set_same.
      set (value' := match value with JFun f => invoke f fauxInstance | _ => value end).
      destruct (jtruthy value') eqn:Ht.
      + split_and!; [by destruct value' as [[]| |]|by right; left|done].
      + split_and!; [by destruct (is_undefined defaultValue) eqn:Hd; [|rewrite Hd]
                    |by right; right|done].
    - injection Hcall as <- <-. split_and!; [done|by left|done]. }
  split_and!; try done.
  intros invoke' later d' Hl. unfold getFunctionOrObject. by rewrite Hl, Hv.
Qed.

End FunctionFacts.

End Runtime.

Lemma context_or_props_cached_witness :
  Faux.field nothing_inherited "queryResults"
    (set_prop "queryResults" (JObj [("k", JData (VNum 5))])
       [("props", JObj []); ("context", JObj [("queryResults", JObj [("k", JData (VNum 5))])])])
  = JObj [("k", JData (VNum 5))]
  ∧ ∀ later defaultValue',
      Faux.field nothing_inherited "queryResults" later = JObj [("k", JData (VNum 5))] →
      getFromContextOrProps nothing_inherited later "queryResults" defaultValue'
      = Normal (JObj [("k", JData (VNum 5))], later).
Proof.
  apply (context_or_props_cached nothing_inherited
           [("props", JObj []); ("context", JObj [("queryResults", JObj [("k", JData (VNum 5))])])]
           "queryResults" (JObj [])); reflexivity.
Defined.

Lemma function_or_object_memoised_witness :
  is_undefined (JData VNull) = false
  ∧ (JData VNull = Faux.field nothing_inherited "query" [("props", JObj [("query", JFun 1)])]
     ∨ jtruthy (JData VNull) = true
     ∨ JData VNull = if is_undefined (JData VUndefined) then JData VNull else JData VUndefined)
  ∧ Faux.field nothing_inherited "query"
      (set_prop "query" (JData VNull) [("props", JObj [("query", JFun 1)])])
    = JData VNull
  ∧ ∀ invoke' later defaultValue',
      Faux.field nothing_inherited "query" later = JData VNull →
      getFunctionOrObject nothing_inherited invoke' later "query" defaultValue'
      = Normal (JData VNull, later).
Proof.
  apply (function_or_object_memoised nothing_inherited (λ _ _, JData (VNum 0))
           [("props", JObj [("query", JFun 1)])] "query" (JData VUndefined)).
  reflexivity.
Defined.

End FauxFacts.
